(** * Jira release dashboard: the route handlers and the page, embedded
    and verified

    The development follows the TypeScript sources:

      - [src/app/api/issues/route.ts]: the paged search, the grouping by
        fix version and the order of the groups;
      - [src/app/api/issue/[key]/route.ts]: the flattening of a document,
        the attachment placeholders and the detail view;
      - the attachment proxy;
      - [src/app/page.tsx]: how the page reads a reply, what its search
        shows and counts, and which months it shows open.

    Strings are sequences of UTF-16 code units and numbers are binary64
    values, as in the language the handlers are written in.  What belongs
    to the runtime and not to the program ([toLowerCase], [localeCompare],
    [encodeURIComponent], the upstream service) is a parameter.

    The first part holds the embedding of the program, the second part
    the notions the properties are stated with, the third part the
    properties and their proofs. *)

From Stdlib Require Import List ZArith NArith QArith Qround Qpower Qfield Bool Lia Ascii String.
From Stdlib Require Import Permutation Sorted.
Import ListNotations.

Set Implicit Arguments.

(* ================================================================== *)
(** * Strings *)
(* ================================================================== *)

Module JsString.

(** A string value: the list of its UTF-16 code units. *)
Abbreviation jsstring := (list N).

(** ASCII literals are written [str "..."]. *)
Definition str (s : string) : jsstring :=
  List.map N_of_ascii (list_ascii_of_string s).

Fixpoint streq (a b : jsstring) : bool :=
  match a, b with
  | [], [] => true
  | x :: a', y :: b' => N.eqb x y && streq a' b'
  | _, _ => false
  end.

(** [!s] on a string: only the empty string is falsy. *)
Definition truthy (s : jsstring) : bool :=
  match s with [] => false | _ :: _ => true end.

(** WhiteSpace and LineTerminator code points: the set stripped by
    [String.prototype.trim] and matched by the regular expression class
    [\s]. *)
Definition isWhiteSpace (c : N) : bool :=
  ((9 <=? c) && (c <=? 13)        (* TAB LF VT FF CR *)
   || (c =? 32)                   (* SPACE *)
   || (c =? 160)                  (* NBSP *)
   || (c =? 5760)                 (* U+1680 *)
   || ((8192 <=? c) && (c <=? 8202))  (* U+2000 .. U+200A *)
   || (c =? 8232) || (c =? 8233)  (* U+2028, U+2029 *)
   || (c =? 8239)                 (* U+202F *)
   || (c =? 8287)                 (* U+205F *)
   || (c =? 12288)                (* U+3000 *)
   || (c =? 65279))%N.            (* U+FEFF *)

Fixpoint trimStart (s : jsstring) : jsstring :=
  match s with
  | c :: s' => if isWhiteSpace c then trimStart s' else s
  | [] => []
  end.

Definition trimEnd (s : jsstring) : jsstring := rev (trimStart (rev s)).

(** [s.trim()] *)
Definition trim (s : jsstring) : jsstring := trimEnd (trimStart s).

(** [s.split(/\s+/)]: the pieces between maximal runs of white space.
    [cur] is the piece being read (reversed) and [inRun] tells that the
    previous code unit belonged to a separator.  A separator at either end
    of the string leaves an empty piece there, and the empty string splits
    into one empty piece. *)
Fixpoint splitRuns (inRun : bool) (cur : jsstring) (s : jsstring)
  : list jsstring :=
  match s with
  | [] => [rev cur]
  | c :: s' =>
      if isWhiteSpace c
      then if inRun then splitRuns true cur s'
           else rev cur :: splitRuns true [] s'
      else splitRuns false (c :: cur) s'
  end.

Definition splitWhiteSpace (s : jsstring) : list jsstring :=
  splitRuns false [] s.

(** [parts.join(sep)] *)
Fixpoint join (sep : jsstring) (parts : list jsstring) : jsstring :=
  match parts with
  | [] => []
  | [p] => p
  | p :: rest => p ++ sep ++ join sep rest
  end.

(** [s.startsWith(p)] *)
Fixpoint startsWith (p s : jsstring) : bool :=
  match p, s with
  | [], _ => true
  | x :: p', y :: s' => N.eqb x y && startsWith p' s'
  | _ :: _, [] => false
  end.

(** Lower-casing of the Basic Latin, Latin-1 Supplement and Latin
    Extended-A blocks, where every letter of the Lithuanian alphabet lives.
    [String.prototype.toLowerCase] agrees with it on strings drawn from
    these blocks; the development is parametric in the lower-casing
    function and uses this one for worked examples. *)
Definition lowerUnit (c : N) : jsstring :=
  (if (65 <=? c) && (c <=? 90) then [c + 32]
   else if (192 <=? c) && (c <=? 222) && negb (c =? 215) then [c + 32]
   else if c =? 304 then [105; 775]                 (* U+0130 *)
   else if c =? 376 then [255]                      (* U+0178 *)
   else if ((256 <=? c) && (c <=? 303) || (306 <=? c) && (c <=? 311)
            || (330 <=? c) && (c <=? 375)) && N.even c then [c + 1]
   else if ((313 <=? c) && (c <=? 328) || (377 <=? c) && (c <=? 382))
           && N.odd c then [c + 1]
   else [c])%N.

Definition latinLower (s : jsstring) : jsstring := flat_map lowerUnit s.

End JsString.
Export JsString.

(* ================================================================== *)
(** * Numbers *)
(* ================================================================== *)

Module JsNumber.

(** A Number value.  A finite binary64 value is represented by the
    (reduced) rational it denotes; the sign of zero is not kept, since no
    operation used by the program observes it. *)
Inductive number :=
| NaN
| Infinity (negative : bool)
| Finite (q : Q).

Definition pow2 (e : Z) : Q :=
  if (0 <=? e)%Z then inject_Z (2 ^ e) else 1 # Z.to_pos (2 ^ (- e)).

Definition pow10 (e : Z) : Q :=
  if (0 <=? e)%Z then inject_Z (10 ^ e) else 1 # Z.to_pos (10 ^ (- e)).

(** [floor (log2 q)] for [q > 0]. *)
Definition floorLog2 (q : Q) : Z :=
  let l := (Z.log2 (Qnum q) - Z.log2 (Zpos (Qden q)))%Z in
  if Qle_bool (pow2 l) q then l else (l - 1)%Z.

(** Nearest integer, ties to even. *)
Definition roundHalfEven (q : Q) : Z :=
  let f := Qfloor q in
  match Qcompare (q - inject_Z f) (1 # 2) with
  | Lt => f
  | Gt => (f + 1)%Z
  | Eq => if Z.even f then f else (f + 1)%Z
  end.

(** Rounding of a positive real to binary64, round-to-nearest-even:
    53 significant bits, least exponent -1074, overflow to infinity. *)
Definition roundPositive (negative : bool) (q : Q) : number :=
  let e := floorLog2 q in
  let u := Z.max (e - 52) (-1074) in
  let m := roundHalfEven (q / pow2 u) in
  let v := inject_Z m * pow2 u in
  if Qle_bool (pow2 1024) v then Infinity negative
  else Finite (Qred (if negative then - v else v)).

Definition round64 (q : Q) : number :=
  match Qcompare q 0 with
  | Eq => Finite 0
  | Gt => roundPositive false q
  | Lt => roundPositive true (- q)
  end.

(** ** Arithmetic and comparison *)

Definition isZero (q : Q) : bool := Qeq_bool q 0.
Definition isNeg (q : Q) : bool := negb (Qle_bool 0 q).

(** [a * b] *)
Definition numMul (a b : number) : number :=
  match a, b with
  | NaN, _ | _, NaN => NaN
  | Finite x, Finite y => round64 (x * y)
  | Infinity s, Infinity t => Infinity (xorb s t)
  | Infinity s, Finite y | Finite y, Infinity s =>
      if isZero y then NaN else Infinity (xorb s (isNeg y))
  end.

(** [a + b] on two numbers *)
Definition numAdd (a b : number) : number :=
  match a, b with
  | NaN, _ | _, NaN => NaN
  | Finite x, Finite y => round64 (x + y)
  | Infinity s, Infinity t => if Bool.eqb s t then Infinity s else NaN
  | Infinity s, Finite _ | Finite _, Infinity s => Infinity s
  end.

Definition numNeg (a : number) : number :=
  match a with
  | NaN => NaN
  | Infinity s => Infinity (negb s)
  | Finite x => Finite (Qred (- x))
  end.

(** [a - b] *)
Definition numSub (a b : number) : number := numAdd a (numNeg b).

(** [a < b] *)
Definition numLt (a b : number) : bool :=
  match a, b with
  | NaN, _ | _, NaN => false
  | Finite x, Finite y => negb (Qle_bool y x)
  | Infinity s, Infinity t => s && negb t
  | Infinity s, Finite _ => s
  | Finite _, Infinity t => negb t
  end.

(** [a > b] *)
Definition numGt (a b : number) : bool := numLt b a.

(** [Number.isFinite(a)] *)
Definition isFinite (a : number) : bool :=
  match a with Finite _ => true | _ => false end.

(** [Number.isInteger(a)]: not used by the program, used to state what the
    program does not check. *)
Definition isInteger (a : number) : bool :=
  match a with
  | Finite q => Qeq_bool q (inject_Z (Qfloor q))
  | _ => false
  end.

Definition ofZ (z : Z) : number := Finite (inject_Z z).

(** ** [Number(s)] on a string: the StringNumericLiteral grammar *)

Definition isDigit (c : N) : bool := ((48 <=? c) && (c <=? 57))%N.

Definition digitValue (base : N) (c : N) : option N :=
  let v :=
    (if (48 <=? c) && (c <=? 57) then Some (c - 48)
     else if (97 <=? c) && (c <=? 102) then Some (c - 87)
     else if (65 <=? c) && (c <=? 70) then Some (c - 55)
     else None)%N in
  match v with
  | Some d => if (d <? base)%N then Some d else None
  | None => None
  end.

(** Value of a digit string in [base]; [None] if some code unit is not a
    digit of that base. *)
Fixpoint digitsValue (base : N) (acc : Z) (s : jsstring) : option Z :=
  match s with
  | [] => Some acc
  | c :: s' =>
      match digitValue base c with
      | Some d => digitsValue base (acc * Z.of_N base + Z.of_N d) s'
      | None => None
      end
  end.

Fixpoint spanDigits (s : jsstring) : jsstring * jsstring :=
  match s with
  | c :: s' =>
      if isDigit c
      then let (ds, rest) := spanDigits s' in (c :: ds, rest)
      else ([], s)
  | [] => ([], [])
  end.

Definition decimalValue (ds : jsstring) : Z :=
  match digitsValue 10 0 ds with Some v => v | None => 0%Z end.

(** StrUnsignedDecimalLiteral other than [Infinity]:
    digits, optional fraction, optional exponent; at least one digit
    before the exponent. The value is exact. *)
Definition unsignedDecimal (s : jsstring) : option Q :=
  let (ip, r1) := spanDigits s in
  let (fp, r2) :=
    match r1 with
    | 46%N :: t => spanDigits t            (* "." *)
    | _ => ([], r1)
    end in
  match ip ++ fp with
  | [] => None
  | m =>
      let scale := (- Z.of_nat (List.length fp))%Z in
      match r2 with
      | [] => Some (inject_Z (decimalValue m) * pow10 scale)
      | c :: r3 =>
          if ((c =? 101) || (c =? 69))%N then          (* "e" "E" *)
            let (esign, r4) :=
              match r3 with
              | 43%N :: t => (1%Z, t)                   (* "+" *)
              | 45%N :: t => ((-1)%Z, t)                (* "-" *)
              | _ => (1%Z, r3)
              end in
            let (ed, r5) := spanDigits r4 in
            match ed, r5 with
            | _ :: _, [] =>
                Some (inject_Z (decimalValue m)
                      * pow10 (esign * decimalValue ed + scale))
            | _, _ => None
            end
          else None
      end
  end.

Definition nonDecimal (base : N) (ds : jsstring) : number :=
  match ds with
  | [] => NaN
  | _ => match digitsValue base 0 ds with
         | Some v => round64 (inject_Z v)
         | None => NaN
         end
  end.

(** [Number(s)] *)
Definition toNumber (s : jsstring) : number :=
  match trim s with
  | [] => Finite 0
  | 48%N :: 120%N :: ds | 48%N :: 88%N :: ds => nonDecimal 16 ds   (* 0x *)
  | 48%N :: 111%N :: ds | 48%N :: 79%N :: ds => nonDecimal 8 ds    (* 0o *)
  | 48%N :: 98%N :: ds | 48%N :: 66%N :: ds => nonDecimal 2 ds     (* 0b *)
  | t =>
      let (negative, body) :=
        match t with
        | 43%N :: b => (false, b)
        | 45%N :: b => (true, b)
        | _ => (false, t)
        end in
      if streq body (str "Infinity") then Infinity negative
      else match unsignedDecimal body with
           | Some q => round64 (if negative then - q else q)
           | None => NaN
           end
  end.

End JsNumber.
Export JsNumber.

(* ================================================================== *)
(** * Release-name parser ([issues/route.ts]) *)
(* ================================================================== *)

Module ReleaseName.

(** The own properties of [LT_MONTH_TO_NUM].  Four names are listed
    twice, with their Lithuanian letters and with these letters folded to
    ASCII. *)
Definition LT_MONTH_TO_NUM : list (jsstring * Z) :=
  [ (str "sausis", 1%Z);
    (str "vasaris", 2%Z);
    (str "kovas", 3%Z);
    (str "balandis", 4%Z);
    (str "gegu" ++ [382; 279]%N, 5%Z);                 (* U+017E U+0117 *)
    (str "geguze", 5%Z);
    (str "bir" ++ [382%N] ++ str "elis", 6%Z);         (* U+017E *)
    (str "birzelis", 6%Z);
    (str "liepa", 7%Z);
    (str "rugpj" ++ [363%N] ++ str "tis", 8%Z);        (* U+016B *)
    (str "rugpjutis", 8%Z);
    (str "rugs" ++ [279%N] ++ str "jis", 9%Z);         (* U+0117 *)
    (str "rugsejis", 9%Z);
    (str "spalis", 10%Z);
    (str "lapkritis", 11%Z);
    (str "gruodis", 12%Z) ].

(** [LT_MONTH_TO_NUM] is an object literal, so a property read that finds
    no own property continues in [Object.prototype].  These are the
    properties found there. *)
Definition objectPrototype : list jsstring :=
  [ str "constructor"; str "__defineGetter__"; str "__defineSetter__";
    str "hasOwnProperty"; str "__lookupGetter__"; str "__lookupSetter__";
    str "isPrototypeOf"; str "propertyIsEnumerable"; str "toString";
    str "valueOf"; str "__proto__"; str "toLocaleString" ].

(** What a property read on the table yields when it is not [undefined]:
    a month number, or the function or object inherited under [name]. *)
Inductive monthValue :=
| MonthNumber (n : number)
| MonthObject (name : jsstring).

Fixpoint ownMonth (table : list (jsstring * Z)) (k : jsstring) : option Z :=
  match table with
  | [] => None
  | (k', v) :: rest => if streq k k' then Some v else ownMonth rest k
  end.

Definition inheritedProperty (k : jsstring) : bool :=
  existsb (streq k) objectPrototype.

(** [LT_MONTH_TO_NUM[k]]; [None] is [undefined]. *)
Definition monthProperty (k : jsstring) : option monthValue :=
  match ownMonth LT_MONTH_TO_NUM k with
  | Some v => Some (MonthNumber (ofZ v))
  | None => if inheritedProperty k then Some (MonthObject k) else None
  end.

(** [a ?? b] where [None] is [undefined]. *)
Definition nullish {A} (a b : option A) : option A :=
  match a with Some v => Some v | None => b end.

(** [!m] on a defined month value: objects are truthy, a number is falsy
    when it is zero or NaN. *)
Definition monthFalsy (m : monthValue) : bool :=
  match m with
  | MonthObject _ => false
  | MonthNumber NaN => true
  | MonthNumber (Infinity _) => false
  | MonthNumber (Finite q) => isZero q
  end.

Record parsed := { year : number; month : monthValue }.

(** [year] is finite and lies in [2000, 2100]: the negation of the guard
    [!Number.isFinite(year) || year < 2000 || year > 2100]. *)
Definition yearAccepted (y : number) : bool :=
  negb (negb (isFinite y) || numLt y (ofZ 2000) || numGt y (ofZ 2100)).

Section Parser.

(** [String.prototype.toLowerCase] of the runtime. *)
Variable toLowerCase : jsstring -> jsstring.

Definition parseLtFixVersion (name : jsstring) : option parsed :=
  let parts := splitWhiteSpace (trim name) in
  if (List.length parts <? 2)%nat then None
  else
    let year := toNumber (nth 0 parts []) in
    if negb (isFinite year) || numLt year (ofZ 2000) || numGt year (ofZ 2100)
    then None
    else
      let monthNameRaw := toLowerCase (join (str " ") (skipn 1 parts)) in
      let month :=
        nullish (monthProperty monthNameRaw)
                (monthProperty (toLowerCase (nth 1 parts []))) in
      match month with
      | None => None
      | Some m => if monthFalsy m then None
                  else Some {| year := year; month := m |}
      end.

End Parser.

End ReleaseName.
Export ReleaseName.


(* ================================================================== *)
(** * Document flattener ([issue/[key]/route.ts]) *)
(* ================================================================== *)

Module Adf.

(** A mark of a text node: [m.type] and [m.attrs.href], each possibly
    absent. *)
Record markAttrs := { markHref : option jsstring }.
Record mark := { markType : option jsstring; markAttributes : option markAttrs }.

(** [node.attrs]: the attributes the flattener reads. *)
Record nodeAttrs := { attrUrl : option jsstring; attrId : option jsstring }.

(** What [adfToPlainText] may be handed: nothing ([null], [undefined]),
    a bare string, an array of nodes, or a node object with its [type],
    [text], [marks], [attrs] and [content] properties ([Absent] content
    when the property is missing). *)
#[warnings="-register-all"]
Inductive node :=
| Absent
| Bare (s : jsstring)
| Nodes (items : list node)
| Node (type : option jsstring) (text : option jsstring)
       (marks : option (list mark)) (attrs : option nodeAttrs)
       (content : node).

(** [x === "literal"] for a possibly absent string property. *)
Definition isLit (x : option jsstring) (literal : string) : bool :=
  match x with Some s => streq s (str literal) | None => false end.

(** [x ?? d] *)
Definition orElse {A} (x : option A) (d : A) : A :=
  match x with Some v => v | None => d end.

(** Truthiness of a node value: [null], [undefined] and the empty string
    are falsy, arrays and objects are truthy. *)
Definition present (n : node) : bool :=
  match n with
  | Absent => false
  | Bare s => truthy s
  | Nodes _ | Node _ _ _ _ _ => true
  end.

(** [linkMark?.attrs?.href] for
    [linkMark = marks.find(m => m?.type === "link")]. *)
Definition linkHref (marks : list mark) : option jsstring :=
  match find (fun m => isLit (markType m) "link") marks with
  | Some linkMark =>
      match markAttributes linkMark with
      | Some a => markHref a
      | None => None
      end
  | None => None
  end.

Definition blockTypes : list jsstring :=
  [ str "doc"; str "paragraph"; str "heading"; str "blockquote";
    str "listItem"; str "bulletList"; str "orderedList"; str "codeBlock";
    str "panel"; str "rule"; str "table"; str "tableRow"; str "tableCell" ].

(** [blockTypes.has(node.type)] *)
Definition isBlock (type : option jsstring) : bool :=
  match type with
  | Some t => existsb (streq t) blockTypes
  | None => false
  end.

Definition newline : jsstring := [10%N].

(** The text-node case. *)
Definition textNode (text : option jsstring) (marks : option (list mark))
  : jsstring :=
  let text := orElse text [] in
  let marks := orElse marks [] in
  match linkHref marks with
  | Some ((_ :: _) as href) =>
      if truthy text && truthy (trim text) && negb (streq (trim text) href)
      then text ++ str " (" ++ href ++ str ")"
      else href
  | _ => text
  end.

(** The smart-link case ([inlineCard], [blockCard], [embedCard]). *)
Definition cardNode (attrs : option nodeAttrs) : jsstring :=
  match attrs with
  | Some {| attrUrl := Some ((_ :: _) as url) |} =>
      str "[Link: " ++ url ++ str "]" ++ newline
  | _ => str "[Link]" ++ newline
  end.

(** The media case. *)
Definition mediaNode (attrs : option nodeAttrs) : jsstring :=
  let attrs := orElse attrs {| attrUrl := None; attrId := None |} in
  let id := orElse (attrId attrs) [] in
  if truthy id then str "[ATTACHMENT_ID:" ++ id ++ str "]"
  else str "[ATTACHMENT]".

Fixpoint adfToPlainText (n : node) : jsstring :=
  match n with
  | Absent => []
  | Bare s => s
  | Nodes items => List.concat (List.map adfToPlainText items)
  | Node type text marks attrs content =>
      if isLit type "text" then textNode text marks
      else if isLit type "hardBreak" then newline
      else if isLit type "inlineCard" || isLit type "blockCard"
              || isLit type "embedCard" then cardNode attrs
      else if isLit type "media" then mediaNode attrs
      else
        let content :=
          if present content then adfToPlainText content else [] in
        if isLit type "mediaSingle" || isLit type "mediaGroup" then
          if truthy content then content ++ newline
          else str "[ATTACHMENT]" ++ newline
        else if isBlock type then content ++ newline
        else content
  end.

End Adf.
Export Adf.

(* ================================================================== *)
(** * Route handlers: values, responses, effects *)
(* ================================================================== *)

Module Http.

(** An insertion-ordered [Map] with string keys. *)
Definition jsmap (V : Type) := list (jsstring * V).

Fixpoint mapGet {V} (k : jsstring) (m : jsmap V) : option V :=
  match m with
  | [] => None
  | (k', v) :: rest => if streq k k' then Some v else mapGet k rest
  end.

Definition mapHas {V} (k : jsstring) (m : jsmap V) : bool :=
  match mapGet k m with Some _ => true | None => false end.

(** [m.set(k, v)]: an existing key keeps its place, a new key goes last. *)
Fixpoint mapSet {V} (k : jsstring) (v : V) (m : jsmap V) : jsmap V :=
  match m with
  | [] => [(k, v)]
  | (k', v') :: rest =>
      if streq k k' then (k', v) :: rest else (k', v') :: mapSet k v rest
  end.

(** In-place update of the object stored under [k]. *)
Fixpoint mapAdjust {V} (f : V -> V) (k : jsstring) (m : jsmap V) : jsmap V :=
  match m with
  | [] => []
  | (k', v') :: rest =>
      if streq k k' then (k', f v') :: rest
      else (k', v') :: mapAdjust f k rest
  end.

(** [Array.from(m.values())] *)
Definition mapValues {V} (m : jsmap V) : list V := List.map snd m.

(** Values handed to [NextResponse.json] for the detail view. *)
#[warnings="-register-all"]
Inductive jsvalue :=
| Undefined
| Null
| Bool (b : bool)
| Num (z : Z)
| Str (s : jsstring)
| Arr (items : list jsvalue)
| Obj (properties : list (jsstring * jsvalue)).

Definition isUndefined (v : jsvalue) : bool :=
  match v with Undefined => true | _ => false end.

(** What the client receives: JSON serialisation drops the properties
    whose value is [undefined] and writes [null] for an [undefined] array
    element. *)
Fixpoint serialise (v : jsvalue) : jsvalue :=
  match v with
  | Arr items =>
      Arr (List.map (fun x => if isUndefined x then Null else serialise x) items)
  | Obj properties =>
      Obj ((fix kept (l : list (jsstring * jsvalue)) :=
              match l with
              | [] => []
              | (k, x) :: rest =>
                  if isUndefined x then kept rest
                  else (k, serialise x) :: kept rest
              end) properties)
  | _ => v
  end.

Fixpoint property (k : jsstring) (properties : list (jsstring * jsvalue))
  : option jsvalue :=
  match properties with
  | [] => None
  | (k', v) :: rest => if streq k k' then Some v else property k rest
  end.

(** The property [k] of a serialised object, if it has it. *)
Definition field (k : jsstring) (v : jsvalue) : option jsvalue :=
  match v with Obj properties => property k properties | _ => None end.

(** [x ?? null] and [x] for an optional string. *)
Definition strOrNull (x : option jsstring) : jsvalue :=
  match x with Some s => Str s | None => Null end.
Definition strOrUndefined (x : option jsstring) : jsvalue :=
  match x with Some s => Str s | None => Undefined end.

(** A possibly absent string inside a template literal. *)
Definition interpolate (x : option jsstring) : jsstring :=
  orElse x (str "undefined").

(** ** Upstream responses *)

(** The outcome of [await fetch(...)]: the call rejects, or resolves to a
    response with its status, its body as text ([r.text()]) and as JSON
    ([r.json()], which rejects with a message when the body is no JSON). *)
Inductive fetched (A : Type) :=
| NetworkError (message : jsstring)
| Response (status : Z) (text : jsstring) (json : jsstring + A).
Arguments NetworkError {A}.
Arguments Response {A}.

(** [r.ok] *)
Definition ok (status : Z) : bool := ((200 <=? status) && (status <=? 299))%Z.

(** ** Replies of a handler *)

Record trimmedIssue :=
  { issueKey : option jsstring; issueSummary : jsstring; issueUrl : jsstring }.

Record group :=
  { fixVersion : jsstring; released : option bool; issues : list trimmedIssue }.

Inductive body :=
| ErrorBody (error : jsstring) (status : option Z) (details : option jsstring)
| GroupsBody (total : nat) (groups : list group)
| DetailBody (detail : jsvalue).

(** [NextResponse.json(body, { status })] *)
Record response := { httpStatus : Z; responseBody : body }.

Definition json (b : body) : response := {| httpStatus := 200; responseBody := b |}.
Definition jsonWithStatus (b : body) (s : Z) : response :=
  {| httpStatus := s; responseBody := b |}.

(** ** Control flow of a handler body

    A computation reads and changes a state [S], and ends with a value, a
    thrown [Error] or a [return] out of the handler. *)
Inductive outcome (A : Type) :=
| Value (a : A)
| Throw (message : jsstring)
| Return (r : response).
Arguments Value {A}.
Arguments Throw {A}.
Arguments Return {A}.

Definition handler (S A : Type) := S -> outcome A * S.

Definition pure {S A} (a : A) : handler S A := fun s => (Value a, s).
Definition throw {S A} (message : jsstring) : handler S A :=
  fun s => (Throw message, s).
Definition reply {S A} (r : response) : handler S A := fun s => (Return r, s).

Definition bind {S A B} (m : handler S A) (k : A -> handler S B) : handler S B :=
  fun s =>
    match m s with
    | (Value a, s') => k a s'
    | (Throw e, s') => (Throw e, s')
    | (Return r, s') => (Return r, s')
    end.

(** [try { ... } catch (err) { return 500 }] around the whole handler. *)
Definition tryCatch {S} (m : handler S response) : S -> response * S :=
  fun s =>
    match m s with
    | (Value r, s') | (Return r, s') => (r, s')
    | (Throw e, s') =>
        (jsonWithStatus (ErrorBody (str "Server error") None (Some e)) 500, s')
    end.

(** [process.env] and [mustGetEnv]. *)
Definition environment := jsstring -> option jsstring.

Definition mustGetEnv {S} (env : environment) (name : string) : handler S jsstring :=
  match env (str name) with
  | Some ((_ :: _) as v) => pure v
  | _ => throw (str "Missing env var: " ++ str name)
  end.

(** The reply to a response that is not [ok]. *)
Definition upstreamFailure (error : string) (status : Z) (text : jsstring)
  : response :=
  jsonWithStatus (ErrorBody (str error) (Some status) (Some text)) 502.

End Http.
Export Http.

Declare Scope handler_scope.
Delimit Scope handler_scope with handler.
Notation "x <- m ;; k" := (bind m (fun x => k))
  (at level 100, m at next level, right associativity) : handler_scope.

(* ================================================================== *)
(** * Issue detail ([issue/[key]/route.ts]) *)
(* ================================================================== *)

Module IssueDetail.

(** ** Upstream data, as far as the handler reads it *)

Record attachment :=
  { attachmentId : option jsstring;
    filename : option jsstring;
    mimeType : option jsstring;
    size : option Z;
    content : option jsstring }.

Record named := { name : option jsstring }.
Record person := { displayName : option jsstring }.

Record comment :=
  { commentId : option jsstring;
    author : option person;
    commentCreated : option jsstring;
    commentBody : node }.

Record commentPage := { comments : option (list comment) }.

Record issueFields :=
  { summary : option jsstring;
    description : node;
    comment_ : option commentPage;
    attachment_ : option (list attachment);
    fixVersions : option (list named);
    issuetype : option named;
    status : option named;
    assignee : option person;
    priority : option named;
    created : option jsstring }.

Record issueData := { key : option jsstring; fields : option issueFields }.

(** [data.fields ?? {}] *)
Definition noFields : issueFields :=
  {| summary := None; description := Absent; comment_ := None;
     attachment_ := None; fixVersions := None; issuetype := None;
     status := None; assignee := None; priority := None; created := None |}.

(** [x?.name] and [x?.displayName] *)
Definition nameOf (x : option named) : option jsstring :=
  match x with Some n => name n | None => None end.
Definition displayNameOf (x : option person) : option jsstring :=
  match x with Some p => displayName p | None => None end.

(** ** Global replacement

    [text.replace(re, f)] for a global regular expression that never
    matches the empty string.  [matchAt s] tells whether the expression
    matches at the start of [s], and then gives the replacement for the
    match and the text after it.  The scan tries each position from left
    to right and resumes after a match; [fuel] bounds the positions still
    to visit. *)
Section GlobalReplace.

Variable matchAt : jsstring -> option (jsstring * jsstring).

Fixpoint replaceFrom (fuel : nat) (s : jsstring) : jsstring :=
  match fuel, s with
  | _, [] => []
  | O, _ => s
  | S fuel', c :: s' =>
      match matchAt s with
      | Some (replacement, rest) => replacement ++ replaceFrom fuel' rest
      | None => c :: replaceFrom fuel' s'
      end
  end.

Definition replaceAll (s : jsstring) : jsstring :=
  replaceFrom (List.length s) s.

End GlobalReplace.

Definition closeBracket : N := 93%N.
Definition openBracket : N := 91%N.

(** The longest prefix without ["]"], and what follows it. *)
Fixpoint spanId (s : jsstring) : jsstring * jsstring :=
  match s with
  | c :: s' =>
      if N.eqb c closeBracket then ([], s)
      else let (run, rest) := spanId s' in (c :: run, rest)
  | [] => ([], [])
  end.

Definition idPrefix : jsstring := str "[ATTACHMENT_ID:".
Definition bareToken : jsstring := str "[ATTACHMENT]".

(** [/\[ATTACHMENT_ID:([^\]]+)\]/] at the start of [s]: the captured id
    and the text after the match. *)
Definition matchAttachmentId (s : jsstring) : option (jsstring * jsstring) :=
  if startsWith idPrefix s then
    match spanId (skipn (List.length idPrefix) s) with
    | ((_ :: _) as id, c :: rest) =>
        if N.eqb c closeBracket then Some (id, rest) else None
    | _ => None
    end
  else None.

(** [/\[ATTACHMENT\]/] at the start of [s]: the text after the match. *)
Definition matchBare (s : jsstring) : option jsstring :=
  if startsWith bareToken s then Some (skipn (List.length bareToken) s)
  else None.

Definition genericLabel : jsstring := str "[Attachment]".

Section Detail.

Variable toLowerCase : jsstring -> jsstring.

Definition placeholderLabelForAttachment (a : attachment) : jsstring :=
  let mime := toLowerCase (orElse (mimeType a) []) in
  let isImage := startsWith (str "image/") mime in
  let filename := orElse (filename a) (str "file") in
  if isImage then str "[Image: " ++ filename ++ str "]"
  else str "[File: " ++ filename ++ str "]".

(** The two regular expressions with their replacements. *)
Definition idReplacement (attachmentById : jsmap attachment) (s : jsstring)
  : option (jsstring * jsstring) :=
  match matchAttachmentId s with
  | Some (id, rest) =>
      Some (match mapGet id attachmentById with
            | None => genericLabel
            | Some a => placeholderLabelForAttachment a
            end, rest)
  | None => None
  end.

Definition bareReplacement (s : jsstring) : option (jsstring * jsstring) :=
  match matchBare s with
  | Some rest => Some (genericLabel, rest)
  | None => None
  end.

Definition enrichPlaceholders (attachmentById : jsmap attachment)
  (text : jsstring) : jsstring :=
  if negb (truthy text) then []
  else replaceAll bareReplacement
         (replaceAll (idReplacement attachmentById) text).

(** [for (const a of attachmentsRaw) if (a?.id) attachmentById.set(String(a.id), a)] *)
Definition indexAttachments (attachmentsRaw : list attachment)
  : jsmap attachment :=
  fold_left
    (fun m a =>
       match attachmentId a with
       | Some ((_ :: _) as i) => mapSet i a m
       | _ => m
       end)
    attachmentsRaw [].

Definition numOrNull (x : option Z) : jsvalue :=
  match x with Some z => Num z | None => Null end.

(** The object handed to [NextResponse.json] on success. *)
Definition detail (baseUrl : jsstring) (data : issueData) : jsvalue :=
  let f := orElse (fields data) noFields in
  let attachmentsRaw := orElse (attachment_ f) [] in
  let attachmentById := indexAttachments attachmentsRaw in
  let descriptionText :=
    enrichPlaceholders attachmentById (trim (adfToPlainText (description f))) in
  let comments :=
    List.map
      (fun c =>
         let raw := trim (adfToPlainText (commentBody c)) in
         let bodyText := enrichPlaceholders attachmentById raw in
         Obj [ (str "id", strOrUndefined (commentId c));
               (str "author",
                 Str (orElse (displayNameOf (author c)) (str "Unknown")));
               (str "created", strOrNull (commentCreated c));
               (str "bodyText", Str bodyText) ])
      (orElse (match comment_ f with Some p => comments p | None => None end) [])
  in
  let attachments :=
    List.map
      (fun a =>
         Obj [ (str "id", strOrUndefined (attachmentId a));
               (str "filename", strOrUndefined (filename a));
               (str "mimeType", strOrNull (mimeType a));
               (str "size", numOrNull (size a));
               (str "contentUrl", strOrUndefined (content a)) ])
      attachmentsRaw in
  Obj [ (str "key", strOrUndefined (key data));
        (str "url", Str (baseUrl ++ str "/browse/" ++ interpolate (key data)));
        (str "summary", Str (orElse (summary f) []));
        (str "status", strOrNull (nameOf (status f)));
        (str "assignee", strOrNull (displayNameOf (assignee f)));
        (str "priority", strOrNull (nameOf (priority f)));
        (str "issueType", strOrNull (nameOf (issuetype f)));
        (str "created", strOrNull (created f));
        (str "fixVersions",
          Arr (List.map (fun v => strOrUndefined (name v))
                 (orElse (fixVersions f) [])));
        (str "descriptionText", Str descriptionText);
        (str "comments", Arr comments);
        (str "attachments", Arr attachments) ].

(** ** The handler *)

Record issueRequest :=
  { issueRequestUrl : jsstring;
    issueRequestFields : jsstring;
    issueCredentials : jsstring * jsstring }.

Variable encodeURIComponent : jsstring -> jsstring.

(** The upstream service: its state, and how it answers a request. *)
Variable World : Type.
Variable fetchIssue : issueRequest -> World -> fetched issueData * World.

Definition fetchDetail (q : issueRequest) : handler World (fetched issueData) :=
  fun w => let (r, w') := fetchIssue q w in (Value r, w').

Definition fieldList : jsstring :=
  str "summary,description,comment,attachment,fixVersions,issuetype,status,assignee,priority,created".

Definition GET (env : environment) (key : jsstring)
  : World -> response * World :=
  tryCatch
    (let issueKey := trim key in
     baseUrl <- mustGetEnv env "JIRA_BASE_URL" ;;
     email <- mustGetEnv env "JIRA_EMAIL" ;;
     token <- mustGetEnv env "JIRA_API_TOKEN" ;;
     r <- fetchDetail
            {| issueRequestUrl :=
                 baseUrl ++ str "/rest/api/3/issue/"
                 ++ encodeURIComponent issueKey;
               issueRequestFields := fieldList;
               issueCredentials := (email, token) |} ;;
     match r with
     | NetworkError message => throw message
     | Response status text data =>
         if negb (ok status)
         then reply (upstreamFailure "Jira request failed" status text)
         else
           match data with
           | inl message => throw message
           | inr data =>
               pure (json (DetailBody (serialise (detail baseUrl data))))
           end
     end)%handler.

End Detail.

End IssueDetail.

(* ================================================================== *)
(** * Grouped issues ([issues/route.ts]) *)
(* ================================================================== *)

Module Issues.

(** ** Upstream data *)

Record fixVersionRaw :=
  { versionName : option jsstring; versionReleased : option bool }.

Record rawFields :=
  { summary : option jsstring; fixVersions : option (list fixVersionRaw) }.

Record rawIssue := { key : option jsstring; fields : option rawFields }.

Record page :=
  { pageIssues : option (list rawIssue);
    nextPageToken : option jsstring;
    isLast : option bool }.

Record searchRequest :=
  { searchUrl : jsstring;
    searchCredentials : jsstring * jsstring;
    searchPageToken : option jsstring }.

(** ** Sort keys *)

(** The value of [p.year * 100 + p.month]: a number when the month is a
    number; when the month is an inherited object, [+] concatenates the
    text of [p.year * 100] with the text of that object. *)
Inductive keyValue :=
| KeyNumber (n : number)
| KeyText (n : number) (object : jsstring).

Definition monthKey (p : parsed) : keyValue :=
  match month p with
  | MonthNumber m => KeyNumber (numAdd (numMul (year p) (ofZ 100)) m)
  | MonthObject o => KeyText (numMul (year p) (ofZ 100)) o
  end.

(** [a - b] on two keys.  The text of an inherited object starts with
    ["function "] or ["[object "], so a key that is a text converts to NaN
    and so does the difference. *)
Definition keyDifference (a b : keyValue) : number :=
  match a, b with
  | KeyNumber x, KeyNumber y => numSub x y
  | _, _ => NaN
  end.

(** ** [Array.prototype.sort]

    The sort is stable; [comparefn(x, y) > 0] puts [x] after [y], and a NaN
    result counts as zero.  For a comparator that orders the elements
    consistently the outcome is the only stable sorted arrangement, which
    [sort] computes by insertion. *)
Section Sort.

Variable A : Type.
Variable comparefn : A -> A -> number.

Definition sortsAfter (x y : A) : bool := numGt (comparefn x y) (ofZ 0).

Fixpoint insert (x : A) (sorted : list A) : list A :=
  match sorted with
  | [] => [x]
  | y :: rest => if sortsAfter x y then y :: insert x rest else x :: sorted
  end.

Definition sort (l : list A) : list A := fold_right insert [] l.

End Sort.

Section Route.

Variable toLowerCase : jsstring -> jsstring.

(** [a.localeCompare(b)] of the runtime. *)
Variable localeCompare : jsstring -> jsstring -> Z.

(** The upstream service: its state, and how it answers a request. *)
Variable World : Type.
Variable fetchPage : searchRequest -> World -> fetched page * World.

(** The handler state: the service, and the requests sent so far. *)
Definition state := (World * list searchRequest)%type.

Definition fetchSearch (q : searchRequest) : handler state (fetched page) :=
  fun s =>
    let (r, w') := fetchPage q (fst s) in (Value r, (w', snd s ++ [q])).

(** ** Fetch all pages

    [while (safety < 30) { safety += 1; ... }]: [remaining] is
    [30 - safety]. The loop ends with the accumulated issues, or leaves the
    handler with a reply. *)
Fixpoint fetchPages (remaining : nat) (url : jsstring)
  (credentials : jsstring * jsstring) (nextPageToken_ : option jsstring)
  (allIssuesRaw : list rawIssue) : handler state (list rawIssue) :=
  match remaining with
  | O => pure allIssuesRaw
  | S remaining' =>
      (r <- fetchSearch
              {| searchUrl := url;
                 searchCredentials := credentials;
                 searchPageToken :=
                   match nextPageToken_ with
                   | Some ((_ :: _) as t) => Some t
                   | _ => None
                   end |} ;;
       match r with
       | NetworkError message => throw message
       | Response status text data =>
           if negb (ok status)
           then reply (upstreamFailure "Jira request failed" status text)
           else
             match data with
             | inl message => throw message
             | inr data =>
                 let allIssuesRaw := allIssuesRaw ++ orElse (pageIssues data) [] in
                 let nextPageToken_ := nextPageToken data in
                 let isLast := orElse (isLast data) true in
                 if isLast || negb (truthy (orElse nextPageToken_ []))
                 then pure allIssuesRaw
                 else fetchPages remaining' url credentials nextPageToken_
                        allIssuesRaw
             end
       end)%handler
  end.

(** ** Group by fix version *)

(** One pass of the inner loop: [seen] and [groupsMap] before and after
    the fix version [fv] of the issue [issue]. *)
Definition addFixVersion (issue : trimmedIssue)
  (st : list jsstring * jsmap group) (fv : fixVersionRaw)
  : list jsstring * jsmap group :=
  let (seen, groupsMap) := st in
  match versionName fv with
  | Some ((_ :: _) as name) =>
      if existsb (streq name) seen then st
      else
        let seen := name :: seen in
        let groupsMap :=
          if negb (mapHas name groupsMap)
          then mapSet name
                 {| fixVersion := name;
                    released := versionReleased fv;
                    issues := [] |} groupsMap
          else groupsMap in
        (seen,
         mapAdjust
           (fun g => {| fixVersion := fixVersion g;
                        released := released g;
                        issues := issues g ++ [issue] |})
           name groupsMap)
  | _ => st
  end.

Definition trimIssue (baseUrl : jsstring) (raw : rawIssue) : trimmedIssue :=
  {| issueKey := key raw;
     issueSummary :=
       orElse (match fields raw with Some f => summary f | None => None end) [];
     issueUrl := baseUrl ++ str "/browse/" ++ interpolate (key raw) |}.

(** One pass of the outer loop. *)
Definition addIssue (baseUrl : jsstring) (groupsMap : jsmap group)
  (raw : rawIssue) : jsmap group :=
  let issue := trimIssue baseUrl raw in
  let fixVersions :=
    orElse (match fields raw with Some f => fixVersions f | None => None end) [] in
  snd (fold_left (addFixVersion issue) fixVersions ([], groupsMap)).

Definition groupIssues (baseUrl : jsstring) (allIssuesRaw : list rawIssue)
  : jsmap group :=
  fold_left (addIssue baseUrl) allIssuesRaw [].

(** ** Sort groups newest first *)

Definition compareGroups (a b : group) : number :=
  let pa := parseLtFixVersion toLowerCase (fixVersion a) in
  let pb := parseLtFixVersion toLowerCase (fixVersion b) in
  match pa, pb with
  | None, None => ofZ (localeCompare (fixVersion a) (fixVersion b))
  | None, Some _ => ofZ 1
  | Some _, None => ofZ (-1)
  | Some pa, Some pb => keyDifference (monthKey pb) (monthKey pa)
  end.

Definition sortGroups (groupsMap : jsmap group) : list group :=
  sort compareGroups (mapValues groupsMap).

(** ** The handler *)

Definition GET (env : environment) : state -> response * state :=
  tryCatch
    (baseUrl <- mustGetEnv env "JIRA_BASE_URL" ;;
     email <- mustGetEnv env "JIRA_EMAIL" ;;
     token <- mustGetEnv env "JIRA_API_TOKEN" ;;
     let url := baseUrl ++ str "/rest/api/3/search/jql" in
     allIssuesRaw <- fetchPages 30 url (email, token) None [] ;;
     let groups := sortGroups (groupIssues baseUrl allIssuesRaw) in
     pure (json (GroupsBody (List.length allIssuesRaw) groups)))%handler.

End Route.

End Issues.

(* ================================================================== *)
(** * Attachment proxy (the third route handler) *)
(* ================================================================== *)

Module AttachmentProxy.

(** What the handler reads of a fetched attachment: the [content-type]
    header, if any, and the bytes of the body. *)
Record payload := { contentType : option jsstring; bytes : list N }.

(** What it replies: a JSON body, or the bytes with two headers. *)
Inductive reply :=
| JsonReply (r : response)
| BytesReply (contentTypeHeader contentDisposition : jsstring) (body : list N).

(** [s.replaceAll] of every double quote (code unit 34) by nothing. *)
Definition stripQuotes (s : jsstring) : jsstring :=
  filter (fun c => negb (N.eqb c 34)) s.

Section Route.

Variable World : Type.
Variable fetchContent : jsstring -> (jsstring * jsstring) -> World
                        -> fetched payload * World.

(** [contentUrl] and [filename] are the two search parameters of the
    request, [None] when the parameter is missing. *)
Definition GET (env : environment) (contentUrl filename : option jsstring)
  : World -> reply * World :=
  fun w =>
    let filename := orElse filename (str "attachment") in
    match contentUrl with
    | Some ((_ :: _) as contentUrl) =>
        let run : handler World reply :=
          (email <- mustGetEnv env "JIRA_EMAIL" ;;
           token <- mustGetEnv env "JIRA_API_TOKEN" ;;
           r <- (fun w => let (r, w') := fetchContent contentUrl (email, token) w
                          in (Value r, w')) ;;
           match r with
           | NetworkError message => throw message
           | Response status text data =>
               if negb (ok status)
               then pure (JsonReply
                            (upstreamFailure "Attachment fetch failed" status text))
               else
                 match data with
                 | inl message => throw message
                 | inr p =>
                     pure (BytesReply
                             (orElse (contentType p)
                                (str "application/octet-stream"))
                             (str "inline; filename=" ++ [34%N]
                              ++ stripQuotes filename ++ [34%N])
                             (bytes p))
                 end
           end)%handler in
        match run w with
        | (Value r, w') => (r, w')
        | (Return r, w') => (JsonReply r, w')
        | (Throw e, w') =>
            (JsonReply
               (jsonWithStatus (ErrorBody (str "Server error") None (Some e)) 500),
             w')
        end
    | _ =>
        (JsonReply
           (jsonWithStatus (ErrorBody (str "Missing contentUrl") None None) 400),
         w)
    end.

End Route.

End AttachmentProxy.

(* ================================================================== *)
(** * The page ([page.tsx]): what it computes from the replies *)
(* ================================================================== *)

Module Page.

(** ** The replies on the wire

    [NextResponse.json(body)] sends the JSON text of [body]; the page reads
    it back with [res.json()].  Numbers of these replies are integers (a
    status, a count, a size in bytes). *)

Fixpoint digits (fuel : nat) (n : N) (acc : jsstring) : jsstring :=
  match fuel with
  | O => acc
  | S fuel' =>
      let acc' := (48 + n mod 10)%N :: acc in
      if (n <? 10)%N then acc' else digits fuel' (n / 10)%N acc'
  end.

(** The text of an integer below [10^21] in magnitude: its decimal
    digits, after a minus sign if it is negative. *)
Definition numberToText (z : Z) : jsstring :=
  match z with
  | Z0 => str "0"
  | Zpos p => digits (S (N.to_nat (N.log2 (Npos p)))) (Npos p) []
  | Zneg p => 45%N :: digits (S (N.to_nat (N.log2 (Npos p)))) (Npos p) []
  end.

Definition numOrUndefined (x : option Z) : jsvalue :=
  match x with Some z => Num z | None => Undefined end.

Definition issueJson (i : trimmedIssue) : jsvalue :=
  Obj [ (str "key", strOrUndefined (issueKey i));
        (str "summary", Str (issueSummary i));
        (str "url", Str (issueUrl i)) ].

Definition groupJson (g : group) : jsvalue :=
  Obj [ (str "fixVersion", Str (fixVersion g));
        (str "released",
          match released g with Some b => Bool b | None => Null end);
        (str "issues", Arr (List.map issueJson (issues g))) ].

(** The JSON value of a reply body. *)
Definition bodyJson (b : body) : jsvalue :=
  match b with
  | ErrorBody error status details =>
      serialise
        (Obj [ (str "error", Str error);
               (str "status", numOrUndefined status);
               (str "details", strOrUndefined details) ])
  | GroupsBody total groups =>
      serialise
        (Obj [ (str "total", Num (Z.of_nat total));
               (str "groups", Arr (List.map groupJson groups)) ])
  | DetailBody detail => detail
  end.

(** ** Reading a reply: [apiJson] *)

(** Truthiness of a JSON value. *)
Definition truthyValue (v : jsvalue) : bool :=
  match v with
  | Undefined | Null => false
  | Bool b => b
  | Num z => negb (z =? 0)%Z
  | Str s => truthy s
  | Arr _ | Obj _ => true
  end.

(** A JSON value inside a template literal. *)
Fixpoint toText (v : jsvalue) : jsstring :=
  match v with
  | Undefined => str "undefined"
  | Null => str "null"
  | Bool true => str "true"
  | Bool false => str "false"
  | Num z => numberToText z
  | Str s => s
  | Arr items =>
      join (str ",")
        (List.map (fun x => match x with
                            | Undefined | Null => []
                            | _ => toText x
                            end) items)
  | Obj _ => str "[object Object]"
  end.

(** [json?.name] for a name no object inherits; [None] is [undefined]. *)
Definition member (name : string) (json : jsvalue) : option jsvalue :=
  match field (str name) json with
  | Some Undefined => None
  | x => x
  end.

(** [{ ok: false, error }] and [{ ok: true, data }] *)
Inductive apiResult :=
| ApiError (error : jsvalue)
| ApiData (data : jsvalue).

(** [r] is the outcome of the page's own [fetch]: it rejects, or resolves
    to a response whose body is JSON or is not. *)
Definition apiJson (r : fetched jsvalue) : apiResult :=
  match r with
  | NetworkError message => ApiError (Str message)
  | Response status _ parsed =>
      let json := match parsed with inr v => v | inl _ => Obj [] end in
      if negb (ok status) then
        let msg :=
          if truthyValue (orElse (member "details" json) Undefined)
          then Str (toText (orElse (member "error" json) Undefined)
                    ++ str ": "
                    ++ toText (orElse (member "details" json) Undefined))
          else
            match member "error" json with
            | Some Null | None =>
                Str (str "Request failed (" ++ numberToText status ++ str ")")
            | Some error => error
            end in
        ApiError msg
      else ApiData json
  end.

(** ** Search *)

(** [ApiResponse] *)
Record apiResponse := { total : nat; groups : list group }.

(** [s.includes(q)] *)
Fixpoint includes (q s : jsstring) : bool :=
  startsWith q s
  || match s with [] => false | _ :: s' => includes q s' end.

Section Search.

Variable toLowerCase : jsstring -> jsstring.

Definition normalize (s : jsstring) : jsstring := toLowerCase (trim s).

Definition filteredGroups (data : option apiResponse) (query : jsstring)
  : list group :=
  match data with
  | None => []
  | Some data =>
      let q := normalize query in
      if negb (truthy q) then groups data
      else
        filter (fun g => (0 <? List.length (issues g))%nat)
          (List.map
             (fun g =>
                let issues :=
                  filter
                    (fun i =>
                       includes q
                         (normalize
                            (interpolate (issueKey i) ++ str " "
                             ++ issueSummary i ++ str " " ++ fixVersion g)))
                    (issues g) in
                {| fixVersion := fixVersion g;
                   released := released g;
                   issues := issues |})
             (groups data))
  end.

End Search.

(** [filteredGroups.reduce((acc, g) => acc + g.issues.length, 0)] *)
Definition shownTicketsCount (filteredGroups : list group) : nat :=
  fold_left (fun acc g => (acc + List.length (issues g))%nat) filteredGroups 0%nat.

(** ** Open and closed months

    [openMonths] is an object used as a record from release names to
    booleans.  It is kept as the map of its own properties; a read that
    finds no own property continues in [Object.prototype]. *)
Definition openMonths := jsmap bool.

(** What [r[name]] yields when it is not [undefined]: an own boolean, or
    the member every object inherits under [name]. *)
Inductive monthFlag :=
| OwnFlag (b : bool)
| InheritedMember.

Definition flag (r : openMonths) (name : jsstring) : option monthFlag :=
  match mapGet name r with
  | Some b => Some (OwnFlag b)
  | None => if inheritedProperty name then Some InheritedMember else None
  end.

(** [openMonths[name] ?? true] as a condition: an inherited member is
    truthy. *)
Definition isOpen (r : openMonths) (name : jsstring) : bool :=
  match flag r name with
  | Some (OwnFlag b) => b
  | Some InheritedMember | None => true
  end.

(** [r[name] = v].  Assigning to [__proto__] calls the setter inherited
    under this name, which ignores a boolean, unless the object has an
    own property of this name; any other name gets an own property. *)
Definition assign (r : openMonths) (name : jsstring) (v : bool) : openMonths :=
  if streq name (str "__proto__") && negb (mapHas name r) then r
  else mapSet name v r.

(** [(prev) => ({ ...prev, [name]: !prev[name] })]: a computed name in
    an object literal defines an own property, whatever the name is. *)
Definition toggleMonth (name : jsstring) (prev : openMonths) : openMonths :=
  mapSet name
    (match flag prev name with
     | Some (OwnFlag b) => negb b
     | Some InheritedMember => false
     | None => true
     end) prev.

(** [for (const g of groups) next[g.fixVersion] = v] *)
Definition setAll (v : bool) (groups : list group) (next : openMonths)
  : openMonths :=
  fold_left (fun next g => assign next (fixVersion g) v) groups next.

(** [data?.groups ?? []] *)
Definition groupsOf (data : option apiResponse) : list group :=
  match data with Some data => groups data | None => [] end.

Definition openAll (data : option apiResponse) (prev : openMonths) : openMonths :=
  setAll true (groupsOf data) prev.

Definition closeAll (data : option apiResponse) (prev : openMonths) : openMonths :=
  setAll false (groupsOf data) prev.

(** The record set after the first load: every month open. *)
Definition initial (data : apiResponse) : openMonths :=
  setAll true (groups data) [].

End Page.

(* ================================================================== *)
(** * Notions used to state the properties *)
(* ================================================================== *)

Module NumberNotions.

(** The values binary64 can hold are multiples of the least positive
    one. *)
Definition isDouble (v : Q) : Prop :=
  exists k : Z, (v == inject_Z k * pow2 (-1074))%Q.

(** A number other than NaN whose finite value, if any, binary64 can
    hold. *)
Definition ordered (n : number) : Prop :=
  match n with
  | NaN => False
  | Infinity _ => True
  | Finite v => isDouble v
  end.

(** [a >= b] *)
Definition numGe (a b : number) : bool :=
  match a, b with
  | NaN, _ | _, NaN => false
  | _, _ => negb (numLt a b)
  end.

End NumberNotions.
Export NumberNotions.

Module TextNotions.

(** [holds] at the start of [s] or of one of its suffixes. *)
Fixpoint anywhere (holds : jsstring -> bool) (s : jsstring) : bool :=
  holds s || match s with [] => false | _ :: s' => anywhere holds s' end.

(** A token [[ATTACHMENT_ID:<id>]] with a non-empty id starts the text. *)
Definition idHolds (t : jsstring) : bool :=
  match IssueDetail.matchAttachmentId t with
  | Some _ => true
  | None => false
  end.

(** The text contains such a token. *)
Definition hasIdToken (s : jsstring) : bool := anywhere idHolds s.

(** The text contains the token [[ATTACHMENT]]. *)
Definition hasBareToken (s : jsstring) : bool :=
  anywhere (startsWith IssueDetail.bareToken) s.

(** No ["["] of the text is directly followed by ["A"], and none is its
    last code unit: no placeholder token can start inside such a text. *)
Fixpoint plain (s : jsstring) : bool :=
  match s with
  | [] => true
  | c :: s' =>
      (if N.eqb c 91 then
         match s' with d :: _ => negb (N.eqb d 65) | [] => false end
       else true) && plain s'
  end.

(** A text seen as a sequence of literal stretches and placeholders. *)
Inductive piece :=
| Literal (s : jsstring)
| IdToken (id : jsstring)
| BareToken.

Definition render (p : piece) : jsstring :=
  match p with
  | Literal s => s
  | IdToken id => IssueDetail.idPrefix ++ id ++ [IssueDetail.closeBracket]
  | BareToken => IssueDetail.bareToken
  end.

(** Literal stretches are plain; ids are not empty and hold no ["]"]. *)
Definition wellFormed (p : piece) : bool :=
  match p with
  | Literal s => plain s
  | IdToken id =>
      truthy id && negb (existsb (N.eqb IssueDetail.closeBracket) id)
  | BareToken => true
  end.

(** What a piece is to become: the label of the attachment found under
    the id, an image label when its lower-cased mime type starts with
    [image/] and a file label otherwise; the generic label for an unknown
    id and for the bare token; a literal stretch as it is. *)
Definition resolved (toLowerCase : jsstring -> jsstring)
  (attachmentById : jsmap IssueDetail.attachment) (p : piece) : jsstring :=
  match p with
  | Literal s => s
  | IdToken id =>
      match mapGet id attachmentById with
      | Some a =>
          let filename := orElse (IssueDetail.filename a) (str "file") in
          if startsWith (str "image/")
               (toLowerCase (orElse (IssueDetail.mimeType a) []))
          then str "[Image: " ++ filename ++ str "]"
          else str "[File: " ++ filename ++ str "]"
      | None => str "[Attachment]"
      end
  | BareToken => str "[Attachment]"
  end.

(** The label an id token is replaced by. *)
Definition labelFor (toLowerCase : jsstring -> jsstring)
  (attachmentById : jsmap IssueDetail.attachment) (i : jsstring) : jsstring :=
  match mapGet i attachmentById with
  | None => IssueDetail.genericLabel
  | Some a => IssueDetail.placeholderLabelForAttachment toLowerCase a
  end.

(** A piece after the first pass, which replaces the id tokens. *)
Definition afterIds (toLowerCase : jsstring -> jsstring)
  (attachmentById : jsmap IssueDetail.attachment) (p : piece) : jsstring :=
  match p with
  | IdToken i => labelFor toLowerCase attachmentById i
  | _ => render p
  end.

(** The id a media node is flattened with: [(node.attrs ?? {}).id ?? ""]. *)
Definition mediaId (attrs : option nodeAttrs) : jsstring :=
  orElse (attrId (orElse attrs {| attrUrl := None; attrId := None |})) [].

(** The id expression after its prefix: what must follow the prefix for
    the expression to match. *)
Definition idBody (r : jsstring) : option (jsstring * jsstring) :=
  match IssueDetail.spanId r with
  | ((_ :: _) as id, c :: rest) =>
      if N.eqb c IssueDetail.closeBracket then Some (id, rest) else None
  | _ => None
  end.

Definition idTail : jsstring := str "ATTACHMENT_ID:".

(** A regular expression, with its replacement, is well behaved when a
    match consumes something, starts with ["[A"], contains a ["]"], and
    is replaced by a text that starts with ["["]. *)
Record wellBehaved (matchAt : jsstring -> option (jsstring * jsstring))
  : Prop :=
  { matchShrinks : forall s r rest,
      matchAt s = Some (r, rest) -> (List.length rest < List.length s)%nat;
    matchAnchored : forall s r rest,
      matchAt s = Some (r, rest) -> exists s', s = 91%N :: 65%N :: s';
    matchCloses : forall s r rest,
      matchAt s = Some (r, rest) -> In IssueDetail.closeBracket s;
    matchBracketed : forall s r rest,
      matchAt s = Some (r, rest) -> exists r', r = 91%N :: r' }.

End TextNotions.
Export TextNotions.

Module RouteNotions.

Import Issues.

(** The environment holds the two credentials. *)
Definition credentialsSet (env : environment) (email token : jsstring) : Prop :=
  env (str "JIRA_EMAIL") = Some email /\ email <> []
  /\ env (str "JIRA_API_TOKEN") = Some token /\ token <> [].

(** The environment holds the three settings of the two main handlers. *)
Definition configured (env : environment) (baseUrl email token : jsstring)
  : Prop :=
  env (str "JIRA_BASE_URL") = Some baseUrl /\ baseUrl <> []
  /\ credentialsSet env email token.

Definition searchUrlOf (baseUrl : jsstring) : jsstring :=
  baseUrl ++ str "/rest/api/3/search/jql".

(** The request the detail handler sends for [key]. *)
Definition requestOf (encodeURIComponent : jsstring -> jsstring)
  (baseUrl email token key : jsstring) : IssueDetail.issueRequest :=
  {| IssueDetail.issueRequestUrl :=
       baseUrl ++ str "/rest/api/3/issue/" ++ encodeURIComponent (trim key);
     IssueDetail.issueRequestFields := IssueDetail.fieldList;
     IssueDetail.issueCredentials := (email, token) |}.

(** A page after which the loop goes on: it says it is not the last one
    and carries a cursor. *)
Definition continues (p : page) : bool :=
  negb (orElse (isLast p) true || negb (truthy (orElse (nextPageToken p) []))).

Definition issuesOf (p : page) : list rawIssue := orElse (pageIssues p) [].

Section Served.

Variable World : Type.
Variable fetchPage : searchRequest -> World -> fetched page * World.
Variable url : jsstring.
Variable credentials : jsstring * jsstring.

(** The request sent when the cursor is [cursor]. *)
Definition requestFor (cursor : option jsstring) : searchRequest :=
  {| searchUrl := url;
     searchCredentials := credentials;
     searchPageToken :=
       match cursor with
       | Some ((_ :: _) as t) => Some t
       | _ => None
       end |}.

(** [serves w cursor pages w' cursor']: asked page after page from the
    state [w] and the cursor [cursor], the service answers with the
    successful, continuing [pages], each request carrying the cursor of the
    page before; it is then in the state [w'] and the cursor is [cursor']. *)
Inductive serves
  : World -> option jsstring -> list page -> World -> option jsstring -> Prop :=
| serves_nil w cursor : serves w cursor [] w cursor
| serves_cons w cursor status text p pages w1 w2 cursor2 :
    fetchPage (requestFor cursor) w = (Response status text (inr p), w1) ->
    ok status = true ->
    continues p = true ->
    serves w1 (nextPageToken p) pages w2 cursor2 ->
    serves w cursor (p :: pages) w2 cursor2.

(** The requests that fetch [pages] one after the other. *)
Fixpoint requestsOf (cursor : option jsstring) (pages : list page)
  : list searchRequest :=
  match pages with
  | [] => []
  | p :: rest => requestFor cursor :: requestsOf (nextPageToken p) rest
  end.

End Served.

(** The reply to a completed aggregation of [all]. *)
Definition groupedReply (toLowerCase : jsstring -> jsstring)
  (localeCompare : jsstring -> jsstring -> Z) (baseUrl : jsstring)
  (all : list rawIssue) : response :=
  json (GroupsBody (List.length all)
          (sortGroups toLowerCase localeCompare (groupIssues baseUrl all))).

(** How the handler ends once the loop has ended with [o]. *)
Definition conclude {S} (toLowerCase : jsstring -> jsstring)
  (localeCompare : jsstring -> jsstring -> Z) (baseUrl : jsstring)
  (o : outcome (list rawIssue) * S) : response * S :=
  match o with
  | (Value all, s) => (groupedReply toLowerCase localeCompare baseUrl all, s)
  | (Throw e, s) =>
      (jsonWithStatus (ErrorBody (str "Server error") None (Some e)) 500, s)
  | (Return r, s) => (r, s)
  end.

(** [x] may stand before [y]: the comparator does not put it after. *)
Definition mayPrecede {A} (comparefn : A -> A -> number) (x y : A) : Prop :=
  sortsAfter comparefn x y = false.

(** A group whose name, if it parses, parses with a month of the table. *)
Definition tame (toLowerCase : jsstring -> jsstring) (g : group) : Prop :=
  forall p,
    parseLtFixVersion toLowerCase (fixVersion g) = Some p ->
    exists m, month p = MonthNumber m.

(** A comparison of names that orders them consistently. *)
Definition consistent (localeCompare : jsstring -> jsstring -> Z) : Prop :=
  (forall a b, (0 < localeCompare a b)%Z -> (localeCompare b a <= 0)%Z)
  /\ (forall a b c,
        (localeCompare a b <= 0)%Z -> (localeCompare b c <= 0)%Z ->
        (localeCompare a c <= 0)%Z).

(** The numeric sort key of a group, if its name parses to one. *)
Definition rank (toLowerCase : jsstring -> jsstring) (g : group)
  : option number :=
  match parseLtFixVersion toLowerCase (fixVersion g) with
  | Some p =>
      match monthKey p with
      | KeyNumber k => Some k
      | KeyText _ _ => None
      end
  | None => None
  end.

(** The entries of the group of [name], none if there is no such group. *)
Definition issuesIn (name : jsstring) (groupsMap : jsmap group)
  : list trimmedIssue :=
  match mapGet name groupsMap with Some g => issues g | None => [] end.

(** The names of a release list, absent and empty ones left out. *)
Definition names (fvs : list fixVersionRaw) : list jsstring :=
  flat_map
    (fun fv => match versionName fv with
               | Some ((_ :: _) as n) => [n]
               | _ => []
               end) fvs.

(** The release names a record gives. *)
Definition namesOf (raw : rawIssue) : list jsstring :=
  names (orElse (match fields raw with Some f => fixVersions f | None => None end) []).

End RouteNotions.

Module GroupNotions.

Import Issues.

(** The names of [l] in the order of their first mention, every name
    once, the names in [seen] left out. *)
Fixpoint firstMentions (seen l : list jsstring) : list jsstring :=
  match l with
  | [] => []
  | n :: l' =>
      if existsb (streq n) seen then firstMentions seen l'
      else n :: firstMentions (n :: seen) l'
  end.

(** The release entries of a record: [raw.fields?.fixVersions ?? []]. *)
Definition versionsOf (raw : rawIssue) : list fixVersionRaw :=
  orElse (match fields raw with Some f => fixVersions f | None => None end) [].

(** The release entry carries the name [n]. *)
Definition mentions (n : jsstring) (fv : fixVersionRaw) : bool :=
  match versionName fv with
  | Some ((_ :: _) as m) => streq n m
  | _ => false
  end.

(** The keys of a map, in its order. *)
Definition keys {V} (m : jsmap V) : list jsstring := List.map fst m.

(** The number of entries of all groups together. *)
Definition entries (gs : list group) : nat :=
  list_sum (List.map (fun g => List.length (issues g)) gs).

(** The group a first mention creates, with its first entry. *)
Definition opened (name : jsstring) (fv : fixVersionRaw) (issue : trimmedIssue)
  : group :=
  {| fixVersion := name; released := versionReleased fv; issues := [issue] |}.

(** A further entry of a group. *)
Definition joined (issue : trimmedIssue) (g : group) : group :=
  {| fixVersion := fixVersion g; released := released g;
     issues := issues g ++ [issue] |}.

End GroupNotions.

Module PageNotions.

(** [shown] is [all] with some elements left out, the order kept; an
    element that stays is related by [R] to the one it comes from. *)
Inductive selection {A B} (R : A -> B -> Prop) : list A -> list B -> Prop :=
| selection_nil : selection R [] []
| selection_keep a b shown all :
    R a b -> selection R shown all -> selection R (a :: shown) (b :: all)
| selection_skip b shown all :
    selection R shown all -> selection R shown (b :: all).

(** A group as shown: the name and the released flag of the group it
    comes from, and a selection of its issues. *)
Definition narrowed (shown original : group) : Prop :=
  fixVersion shown = fixVersion original
  /\ released shown = released original
  /\ selection eq (issues shown) (issues original).

(** What the page's [fetch] resolves to when a route replies [r]; [text]
    is the body as text, which the page does not read. *)
Definition delivered (text : jsstring) (r : response) : fetched jsvalue :=
  Response (httpStatus r) text (inr (Page.bodyJson (responseBody r))).

(** An error and its details as the page words them. *)
Definition worded (error details : jsstring) : jsvalue :=
  Str (if truthy details then error ++ str ": " ++ details else error).

End PageNotions.

Module MonthNotions.

(** The name is one the record can answer for: it has an own property
    of this name, or every object inherits a member of this name. *)
Definition answered (r : Page.openMonths) (name : jsstring) : Prop :=
  Page.flag r name <> None.

(** The name [__proto__], when the record has no own property of it. *)
Definition shielded (r : Page.openMonths) (name : jsstring) : bool :=
  streq name (str "__proto__") && negb (mapHas name r).

End MonthNotions.

Module ReplyNotions.

Import Issues.

(** The variable [name] is unset, or set to the empty string. *)
Definition unset (env : environment) (name : string) : bool :=
  match env (str name) with Some (_ :: _) => false | _ => true end.

(** The settings the two main handlers read, in the order they read
    them, and the two the attachment proxy reads. *)
Definition settings : list string :=
  ["JIRA_BASE_URL"; "JIRA_EMAIL"; "JIRA_API_TOKEN"]%string.
Definition credentialNames : list string :=
  ["JIRA_EMAIL"; "JIRA_API_TOKEN"]%string.

(** The reply of the [catch] clause to an error with [message]. *)
Definition serverError (message : jsstring) : response :=
  jsonWithStatus (ErrorBody (str "Server error") None (Some message)) 500.

Definition missing (name : string) : response :=
  serverError (str "Missing env var: " ++ str name).

Definition missingContentUrl : response :=
  jsonWithStatus (ErrorBody (str "Missing contentUrl") None None) 400.

(** A text a response header can carry: every code unit is a byte, and
    none is NUL, a line feed or a carriage return. *)
Definition headerSafe (s : jsstring) : bool :=
  forallb
    (fun c => (c <=? 255) && negb ((c =? 0) || (c =? 10) || (c =? 13)))%N s.

(** What makes the handler throw on an upstream answer: the call
    rejected, or the body of an [ok] response is no JSON. *)
Definition rejected {A} (r : fetched A) : option jsstring :=
  match r with
  | NetworkError message => Some message
  | Response status _ (inl message) => if ok status then Some message else None
  | Response _ _ (inr _) => None
  end.

(** A request for a further page: to [url], with [credentials], and
    carrying a cursor that is not empty. *)
Definition followUp (url : jsstring) (credentials : jsstring * jsstring)
  (q : searchRequest) : Prop :=
  searchUrl q = url /\ searchCredentials q = credentials
  /\ exists t, searchPageToken q = Some t /\ t <> [].

(** The first request: to [url], with [credentials], without cursor. *)
Definition opening (url : jsstring) (credentials : jsstring * jsstring)
  : searchRequest :=
  {| searchUrl := url; searchCredentials := credentials;
     searchPageToken := None |}.

End ReplyNotions.

Module LookupNotions.

(** The attachment has the id [i], an id that is not empty. *)
Definition hasId (i : jsstring) (a : IssueDetail.attachment) : bool :=
  match IssueDetail.attachmentId a with
  | Some ((_ :: _) as j) => streq i j
  | _ => false
  end.

(** Only white space. *)
Definition blank (s : jsstring) : bool := forallb isWhiteSpace s.

(** The text does not start with white space. *)
Definition headOk (s : jsstring) : bool :=
  match s with [] => true | c :: _ => negb (isWhiteSpace c) end.

(** The text does not end with white space. *)
Definition endOk (s : jsstring) : bool := headOk (rev s).

(** The expression matches at the start of the text. *)
Definition matches (matchAt : jsstring -> option (jsstring * jsstring))
  (t : jsstring) : bool :=
  match matchAt t with Some _ => true | None => false end.

(** A match is replaced by a text that ends with ["]"], and the scan
    resumes in what the match left of the text. *)
Record closing (matchAt : jsstring -> option (jsstring * jsstring)) : Prop :=
  { matchEnds : forall s r rest,
      matchAt s = Some (r, rest) -> exists r', r = r' ++ [IssueDetail.closeBracket];
    matchSuffix : forall s r rest,
      matchAt s = Some (r, rest) -> exists consumed, s = consumed ++ rest }.

(** The bodies of the comments of a detail reply. *)
Definition bodyTexts (detail : jsvalue) : list (option jsvalue) :=
  match field (str "comments") detail with
  | Some (Arr items) => List.map (field (str "bodyText")) items
  | _ => []
  end.

End LookupNotions.

Module WireNotions.

(** [a] stands at some place of the list and [b] at a later place. *)
Inductive precedes {A} (a b : A) : list A -> Prop :=
| precedes_here l : In b l -> precedes a b (a :: l)
| precedes_later x l : precedes a b l -> precedes a b (x :: l).

(** The first property named [k] whose value is defined, as it is
    sent. *)
Fixpoint sentProperty (k : jsstring) (properties : list (jsstring * jsvalue))
  : option jsvalue :=
  match properties with
  | [] => None
  | (k', v) :: rest =>
      if streq k k' && negb (isUndefined v) then Some (serialise v)
      else sentProperty k rest
  end.

End WireNotions.

Module MediaNotions.

(** A media node with the attributes [attrs]. *)
Definition media (attrs : option nodeAttrs) : node :=
  Node (Some (str "media")) None None attrs Absent.

(** A node of type [type] around the media nodes of [attrsList]. *)
Definition mediaHolder (type : string) (attrsList : list (option nodeAttrs))
  : node :=
  Node (Some (str type)) None None None (Nodes (List.map media attrsList)).

(** The placeholder a media node stands for: the id token when the node
    has an id that is not empty, the bare token otherwise. *)
Definition pieceOf (attrs : option nodeAttrs) : piece :=
  match mediaId attrs with
  | [] => BareToken
  | id => IdToken id
  end.

End MediaNotions.

Module FlattenNotions.


End FlattenNotions.

Module LabelNotions.

(** [q] occurs in [s] as a contiguous part. *)
Definition occurs (q s : jsstring) : Prop :=
  exists before after, s = before ++ q ++ after.

(** The text an issue is searched in, under the release name [name]. *)
Definition searched (toLowerCase : jsstring -> jsstring) (name : jsstring)
  (i : trimmedIssue) : jsstring :=
  Page.normalize toLowerCase
    (interpolate (issueKey i) ++ str " " ++ issueSummary i ++ str " " ++ name).

(** Equality of two numbers, as a test. *)
Definition numberEq (a b : number) : bool :=
  match a, b with
  | NaN, NaN => true
  | Infinity s, Infinity t => Bool.eqb s t
  | Finite p, Finite q =>
      (Qnum p =? Qnum q)%Z && (Qden p =? Qden q)%positive
  | _, _ => false
  end.

(** The decimal numeral of the year [k] is one word without white
    space, and reads back as [k]. *)
Definition yearReadable (k : Z) : bool :=
  numberEq (toNumber (Page.numberToText k)) (ofZ k)
  && negb (existsb isWhiteSpace (Page.numberToText k))
  && truthy (Page.numberToText k).

(** The years the parser accepts. *)
Definition acceptedYears : list Z :=
  List.map (fun i => (2000 + Z.of_nat i)%Z) (seq 0 101).

End LabelNotions.

(* ================================================================== *)
(** * Sample inputs for the worked examples *)
(* ================================================================== *)

Module Sample.

Import Issues.


Definition env : environment :=
  fun k =>
    if streq k (str "JIRA_BASE_URL") then Some (str "https://jira.example")
    else if streq k (str "JIRA_EMAIL") then Some (str "me@example.com")
    else if streq k (str "JIRA_API_TOKEN") then Some (str "secret")
    else None.

Definition baseUrl : jsstring := str "https://jira.example".
Definition searchUrl : jsstring := baseUrl ++ str "/rest/api/3/search/jql".
Definition credentials : jsstring * jsstring :=
  (str "me@example.com", str "secret").

(** Order by code units: a stand-in for the runtime's [localeCompare] in
    examples where a concrete comparison is needed. *)
Fixpoint compareUnits (a b : jsstring) : Z :=
  match a, b with
  | [], [] => 0
  | [], _ :: _ => -1
  | _ :: _, [] => 1
  | x :: a', y :: b' =>
      match N.compare x y with
      | Lt => -1
      | Gt => 1
      | Eq => compareUnits a' b'
      end
  end.

Definition release (name : string) : fixVersionRaw :=
  {| versionName := Some (str name); versionReleased := None |}.

Definition issue (key : string) (releases : list string) : rawIssue :=
  {| key := Some (str key);
     fields := Some {| summary := Some (str "Summary of " ++ str key);
                       fixVersions := Some (List.map release releases) |} |}.

Definition more (issues : list rawIssue) (cursor : string) : page :=
  {| pageIssues := Some issues;
     nextPageToken := Some (str cursor);
     isLast := Some false |}.

Definition last (issues : list rawIssue) : page :=
  {| pageIssues := Some issues; nextPageToken := None; isLast := Some true |}.

Definition success {A} (data : A) : fetched A := Response 200 (str "{}") (inr data).

(** A service that answers the n-th request with the n-th entry of a
    script; its state counts the requests answered. *)
Definition scripted {Q A} (script : list (fetched A)) (q : Q) (n : nat)
  : fetched A * nat :=
  (nth n script (NetworkError (str "connection refused")), S n).

(** A service that always has one more page. *)
Definition endless (q : searchRequest) (n : nat) : fetched page * nat :=
  (success (more [issue "IMOSHELP-1" ["2024 Sausis"%string]] "next"), S n).

Definition threePages : list page :=
  [ more [issue "IMOSHELP-1" ["2024 Sausis"%string]; issue "IMOSHELP-2" ["2024 Vasaris"%string]] "p2";
    more [issue "IMOSHELP-3" ["2024 Sausis"%string]] "p3";
    last [issue "IMOSHELP-4" ["2023 Gruodis"%string]] ].

Definition unavailable : fetched page :=
  Response 503 (str "Service Unavailable") (inl (str "Unexpected token S")).

Definition linkTo (h : string) : option (list mark) :=
  Some [ {| markType := Some (str "link");
            markAttributes := Some {| markHref := Some (str h) |} |} ].

Definition pngLookup : jsmap IssueDetail.attachment :=
  IssueDetail.indexAttachments
    [ {| IssueDetail.attachmentId := Some (str "10001");
         IssueDetail.filename := Some (str "a.png");
         IssueDetail.mimeType := Some (str "image/png");
         IssueDetail.size := None; IssueDetail.content := None |} ].


Definition gone : fetched AttachmentProxy.payload :=
  Response 410 (str "Gone") (inl (str "body unavailable")).

Definition notFound : fetched IssueDetail.issueData :=
  Response 404 (str "Issue does not exist") (inl (str "Unexpected token I")).

(** The record of scenario 6: the same release listed twice. *)
Definition twice : rawIssue :=
  issue "IMOSHELP-7" ["2024 Sausis"%string; "2024 Sausis"%string].

(** A record of two releases, the first with a month text that is no
    month but the name of a member every object inherits. *)
Definition odd : rawIssue :=
  issue "IMOSHELP-9" ["2024 constructor"%string; "2024 sausis"%string].

(** Three records over five releases, two of which have no month name. *)
Definition mixed : list rawIssue :=
  [ issue "IMOSHELP-1" ["2024 Sausis"%string];
    issue "IMOSHELP-2" ["Backlog"%string; "2024 vasaris"%string];
    issue "IMOSHELP-3" ["2025 Sausis"%string; "Archive"%string] ].

End Sample.

Module MoreSamples.

(** No setting at all. *)
Definition bare : environment := fun _ => None.

(** The base address set, the e-mail address set to the empty string. *)
Definition halfSet : environment :=
  fun k =>
    if streq k (str "JIRA_BASE_URL") then Some (str "https://jira.example")
    else if streq k (str "JIRA_EMAIL") then Some []
    else None.

(** A service that is never asked. *)
Definition silent {Q A} (q : Q) (n : nat) : fetched A * nat :=
  (NetworkError (str "connection refused"), S n).

Definition png : AttachmentProxy.payload :=
  {| AttachmentProxy.contentType := Some (str "image/png");
     AttachmentProxy.bytes := [137; 80; 78; 71]%N |}.

End MoreSamples.

Module TieSamples.

Import Issues.

(** Two names of the same month, the second with a word after the
    month, and a record without key. *)
Definition sameMonth : list rawIssue :=
  [ Sample.issue "IMOSHELP-1" ["2024 sausis hotfix"%string];
    Sample.issue "IMOSHELP-2" ["2024 Sausis"%string; "2025 kovas"%string] ].

Definition hotfix : group :=
  {| fixVersion := str "2024 sausis hotfix"; released := None;
     issues := [trimIssue Sample.baseUrl (Sample.issue "IMOSHELP-1" ["2024 sausis hotfix"%string])] |}.

Definition january : group :=
  {| fixVersion := str "2024 Sausis"; released := None;
     issues := [trimIssue Sample.baseUrl (Sample.issue "IMOSHELP-2" ["2024 Sausis"%string; "2025 kovas"%string])] |}.

Definition keyless : IssueDetail.issueData :=
  {| IssueDetail.key := None; IssueDetail.fields := None |}.

End TieSamples.

(* ================================================================== *)
(** * Properties: strings, numbers, release names *)
(* ================================================================== *)

Lemma streq_spec a b : reflect (a = b) (streq a b).
Proof.
  revert b; induction a as [|x a IH]; intros [|y b]; simpl;
    try (constructor; congruence).
  destruct (N.eqb_spec x y) as [->|Hxy]; simpl.
  - destruct (IH b) as [->|Hab]; constructor; congruence.
  - constructor; congruence.
Qed.

Lemma streq_refl a : streq a a = true.
Proof. destruct (streq_spec a a); congruence. Qed.

Lemma streq_eq a b : streq a b = true <-> a = b.
Proof. destruct (streq_spec a b); split; congruence. Qed.

Lemma streq_neq a b : streq a b = false <-> a <> b.
Proof. destruct (streq_spec a b); split; congruence. Qed.


Example trim_example :
  trim (str "  2024  Sausis ") = str "2024  Sausis".
Proof. reflexivity. Qed.

Example split_example :
  splitWhiteSpace (str "2024  Sausis x") = [str "2024"; str "Sausis"; str "x"].
Proof. reflexivity. Qed.

Example split_empty : splitWhiteSpace [] = [[]].
Proof. reflexivity. Qed.

Example split_leading : splitWhiteSpace (str " a") = [[]; str "a"].
Proof. reflexivity. Qed.

Example number_2024 : toNumber (str "2024") = Finite (2024 # 1).
Proof. reflexivity. Qed.

Example number_fraction : toNumber (str "2024.5") = Finite (4049 # 2).
Proof. reflexivity. Qed.

Example number_hex : toNumber (str "0x7E8") = Finite (2024 # 1).
Proof. reflexivity. Qed.

Example number_exponent : toNumber (str "2.024e3") = Finite (2024 # 1).
Proof. vm_compute. reflexivity. Qed.

Example number_tenth :
  toNumber (str "0.1") = Finite (3602879701896397 # 36028797018963968).
Proof. vm_compute. reflexivity. Qed.

Example number_overflow : toNumber (str "1e400") = Infinity false.
Proof. vm_compute. reflexivity. Qed.

Example number_word : toNumber (str "sausis") = NaN.
Proof. reflexivity. Qed.

Example number_rounds_up :
  toNumber (str "1999.99999999999999999999") = Finite (2000 # 1).
Proof. vm_compute. reflexivity. Qed.

Example parse_sausis :
  parseLtFixVersion latinLower (str "2024 Sausis")
  = Some {| year := Finite (2024 # 1); month := MonthNumber (Finite 1) |}.
Proof. reflexivity. Qed.

Example parse_second_token :
  parseLtFixVersion latinLower (str " 2025  Gruodis  hotfix ")
  = Some {| year := Finite (2025 # 1); month := MonthNumber (Finite (12 # 1)) |}.
Proof. reflexivity. Qed.

Example parse_accented :
  parseLtFixVersion latinLower (str "2024 BIR" ++ [381%N] ++ str "ELIS")
  = Some {| year := Finite (2024 # 1); month := MonthNumber (Finite (6 # 1)) |}.
Proof. reflexivity. Qed.

Example parse_one_token : parseLtFixVersion latinLower (str "2024") = None.
Proof. reflexivity. Qed.

Example parse_out_of_range :
  parseLtFixVersion latinLower (str "1999 sausis") = None.
Proof. reflexivity. Qed.

Example parse_unknown_month :
  parseLtFixVersion latinLower (str "2024 january") = None.
Proof. reflexivity. Qed.

Example parse_fraction :
  parseLtFixVersion latinLower (str "2024.5 sausis")
  = Some {| year := Finite (4049 # 2); month := MonthNumber (Finite 1) |}.
Proof. reflexivity. Qed.

Example parse_inherited :
  parseLtFixVersion latinLower (str "2024 constructor")
  = Some {| year := Finite (2024 # 1);
            month := MonthObject (str "constructor") |}.
Proof. reflexivity. Qed.

Example flatten_paragraph :
  adfToPlainText
    (Node (Some (str "paragraph")) None None None
       (Nodes [Node (Some (str "text")) (Some (str "Hello")) None None Absent]))
  = str "Hello" ++ newline.
Proof. reflexivity. Qed.

Example flatten_link :
  adfToPlainText
    (Node (Some (str "text")) (Some (str "Click here"))
       (Some [ {| markType := Some (str "link");
                  markAttributes := Some {| markHref := Some (str "http://x/y") |} |} ])
       None Absent)
  = str "Click here (http://x/y)".
Proof. reflexivity. Qed.

Example flatten_media :
  adfToPlainText
    (Node (Some (str "media")) None None
       (Some {| attrUrl := None; attrId := Some (str "10001") |}) Absent)
  = str "[ATTACHMENT_ID:10001]".
Proof. reflexivity. Qed.

Example flatten_card :
  adfToPlainText
    (Node (Some (str "inlineCard")) None None
       (Some {| attrUrl := Some (str "http://x"); attrId := None |}) Absent)
  = str "[Link: http://x]" ++ newline.
Proof. reflexivity. Qed.

(** Rounding at the edges of binary64. *)

Example number_tie_to_even :
  toNumber (str "9007199254740993") = Finite (9007199254740992 # 1).
Proof. vm_compute. reflexivity. Qed.

Example number_1e23 :
  toNumber (str "1e23") = Finite (99999999999999991611392 # 1).
Proof. vm_compute. reflexivity. Qed.

Example number_least :
  toNumber (str "5e-324") = Finite (Qred (pow2 (-1074))).
Proof. vm_compute. reflexivity. Qed.

Example number_underflow : toNumber (str "2e-324") = Finite 0.
Proof. vm_compute. reflexivity. Qed.

Example number_greatest :
  isFinite (toNumber (str "1.7976931348623157e308")) = true.
Proof. vm_compute. reflexivity. Qed.

Example number_beyond :
  toNumber (str "1.7976931348623159e308") = Infinity false.
Proof. vm_compute. reflexivity. Qed.

Example number_negative : toNumber (str "-2024") = Finite (-2024 # 1).
Proof. vm_compute. reflexivity. Qed.

Example number_sign_hex : toNumber (str "+0x7E8") = NaN.
Proof. vm_compute. reflexivity. Qed.

(* ================================================================== *)
(** * Properties of numbers: the sign of a difference *)
(* ================================================================== *)

Module NumberFacts.

Local Open Scope Q_scope.

(** ** Powers of two *)

Lemma pow2_power e : pow2 e == 2 ^ e.
Proof.
  unfold pow2. destruct (Z.leb_spec 0 e) as [H|H].
  - now apply (Zpower_Qpower 2).
  - assert (E : 2 ^ (- e) == inject_Z (2 ^ (- e)))
      by (symmetry; apply (Zpower_Qpower 2); lia).
    replace e with (- (- e))%Z at 2 by lia.
    rewrite Qpower_opp, E.
    assert (Hp : (0 < 2 ^ (- e))%Z) by (apply Z.pow_pos_nonneg; lia).
    destruct (2 ^ (- e))%Z; try lia. reflexivity.
Qed.

Lemma pow2_pos e : 0 < pow2 e.
Proof. rewrite pow2_power. now apply Qpower_0_lt. Qed.

Lemma pow2_add a b : pow2 (a + b) == pow2 a * pow2 b.
Proof. rewrite !pow2_power. now apply Qpower_plus. Qed.

Lemma pow2_le a b : (a <= b)%Z -> pow2 a <= pow2 b.
Proof.
  intros H. rewrite !pow2_power. apply Qpower_le_compat_l; [exact H|].
  discriminate.
Qed.

Lemma pow2_Z n : (0 <= n)%Z -> pow2 n = inject_Z (2 ^ n).
Proof. intros H. unfold pow2. destruct (Z.leb_spec 0 n); [reflexivity|lia]. Qed.

Lemma inject_Z_pos z : (0 < z)%Z -> 0 < inject_Z z.
Proof. intros H. unfold Qlt. simpl. lia. Qed.

Lemma inject_Z_nonzero z : (0 < z)%Z -> ~ inject_Z z == 0.
Proof. intros H E. unfold Qeq in E. simpl in E. lia. Qed.

(** ** Rounding to an integer *)

Lemma roundHalfEven_ge k x : inject_Z k <= x -> (k <= roundHalfEven x)%Z.
Proof.
  intros H. apply Qfloor_resp_le in H. rewrite Qfloor_Z in H.
  unfold roundHalfEven.
  destruct (Qcompare _ _); [destruct (Z.even _)| |]; lia.
Qed.

(** ** The binary exponent *)

Lemma floorLog2_le q :
  (floorLog2 q <= Z.log2 (Qnum q) - Z.log2 (Zpos (Qden q)))%Z.
Proof. unfold floorLog2. destruct (Qle_bool _ _); lia. Qed.

Lemma log2_lower q :
  0 < q -> pow2 (Z.log2 (Qnum q) - Z.log2 (Zpos (Qden q)) - 1) <= q.
Proof.
  destruct q as [n d]. intros Hq.
  assert (Hn : (0 < n)%Z) by (unfold Qlt in Hq; simpl in Hq; lia).
  cbn [Qnum Qden].
  set (a := Z.log2 n). set (b := Z.log2 (Zpos d)).
  assert (Ha : (0 <= a)%Z) by apply Z.log2_nonneg.
  assert (Hb : (0 <= b)%Z) by apply Z.log2_nonneg.
  destruct (Z.log2_spec n Hn) as [Hn1 _]. fold a in Hn1.
  destruct (Z.log2_spec (Zpos d) (Pos2Z.is_pos d)) as [_ Hd]. fold b in Hd.
  replace (a - b - 1)%Z with (a + - (b + 1))%Z by lia.
  rewrite pow2_add, (pow2_power (- (b + 1))), Qpower_opp, <- pow2_power.
  rewrite !pow2_Z by lia.
  assert (Hp : (0 < 2 ^ (b + 1))%Z) by (apply Z.pow_pos_nonneg; lia).
  rewrite (Qmake_Qdiv n d).
  apply Qle_shift_div_l; [now apply inject_Z_pos|].
  setoid_replace (inject_Z (2 ^ a) * / inject_Z (2 ^ (b + 1)) * inject_Z (Zpos d))
    with (inject_Z (2 ^ a) * inject_Z (Zpos d) / inject_Z (2 ^ (b + 1)))
    by (field; now apply inject_Z_nonzero).
  apply Qle_shift_div_r; [now apply inject_Z_pos|].
  rewrite <- !inject_Z_mult, <- Zle_Qle.
  replace (Z.succ b) with (b + 1)%Z in Hd by lia. nia.
Qed.

(** ** Rounding to binary64 *)

Lemma Qopp_neg v : 0 < v -> - v < 0.
Proof. destruct v as [n d]. unfold Qlt. simpl. lia. Qed.

Lemma Qopp_nonpos v : 0 <= v -> - v <= 0.
Proof. destruct v as [n d]. unfold Qle. simpl. lia. Qed.

Lemma Qopp_pos v : v < 0 -> 0 < - v.
Proof. destruct v as [n d]. unfold Qlt. simpl. lia. Qed.

(** A value not below the least positive one keeps its sign. *)
Lemma roundPositive_sign neg q :
  pow2 (-1074) <= q ->
  match roundPositive neg q with
  | NaN => False
  | Infinity s => s = neg
  | Finite v => if neg then v < 0 else 0 < v
  end.
Proof.
  intros Hq.
  assert (H0 : 0 < q) by (eapply Qlt_le_trans; [apply pow2_pos|exact Hq]).
  unfold roundPositive.
  set (u := Z.max (floorLog2 q - 52) (-1074)).
  assert (Hu : pow2 u <= q).
  { destruct (Z.max_spec (floorLog2 q - 52) (-1074)) as [[_ E]|[_ E]];
      fold u in E; rewrite E.
    - exact Hq.
    - eapply Qle_trans; [|apply (log2_lower H0)].
      apply pow2_le. pose proof (floorLog2_le q). lia. }
  assert (Hm : (1 <= roundHalfEven (q / pow2 u))%Z).
  { apply roundHalfEven_ge. apply Qle_shift_div_l; [apply pow2_pos|].
    now rewrite Qmult_1_l. }
  set (m := roundHalfEven (q / pow2 u)) in *.
  assert (Hv : 0 < inject_Z m * pow2 u).
  { apply Qmult_lt_0_compat; [apply inject_Z_pos; lia|apply pow2_pos]. }
  destruct (Qle_bool (pow2 1024) _); [reflexivity|].
  destruct neg; rewrite Qred_correct; [now apply Qopp_neg|exact Hv].
Qed.

(** Rounding never changes the sign. *)
Lemma roundPositive_weak_sign neg q :
  0 < q ->
  match roundPositive neg q with
  | NaN => False
  | Infinity s => s = neg
  | Finite v => if neg then v <= 0 else 0 <= v
  end.
Proof.
  intros H0. unfold roundPositive.
  set (u := Z.max (floorLog2 q - 52) (-1074)).
  assert (Hm : (0 <= roundHalfEven (q / pow2 u))%Z).
  { apply roundHalfEven_ge. apply Qle_shift_div_l; [apply pow2_pos|].
    rewrite Qmult_0_l. now apply Qlt_le_weak. }
  set (m := roundHalfEven (q / pow2 u)) in *.
  assert (Hv : 0 <= inject_Z m * pow2 u).
  { apply Qmult_le_0_compat; [|apply Qlt_le_weak, pow2_pos].
    change 0 with (inject_Z 0). now rewrite <- Zle_Qle. }
  destruct (Qle_bool (pow2 1024) _); [reflexivity|].
  destruct neg; rewrite Qred_correct; [now apply Qopp_nonpos|exact Hv].
Qed.

Lemma roundPositive_double neg q v :
  roundPositive neg q = Finite v -> isDouble v.
Proof.
  unfold roundPositive.
  set (u := Z.max (floorLog2 q - 52) (-1074)).
  set (m := roundHalfEven (q / pow2 u)).
  destruct (Qle_bool (pow2 1024) _); [discriminate|].
  intros H; injection H as <-.
  assert (Hu : (0 <= u + 1074)%Z) by (unfold u; lia).
  assert (E : pow2 u == inject_Z (2 ^ (u + 1074)) * pow2 (-1074)).
  { rewrite <- (pow2_Z Hu), <- pow2_add. now replace (u + 1074 + -1074)%Z with u by lia. }
  exists ((if neg then - m else m) * 2 ^ (u + 1074))%Z.
  rewrite Qred_correct, inject_Z_mult.
  destruct neg; [rewrite inject_Z_opp|]; rewrite E; ring.
Qed.

Lemma round64_ordered q : ordered (round64 q).
Proof.
  unfold round64.
  destruct (Qcompare_spec q 0) as [E|H|H].
  - exists 0%Z. ring.
  - pose proof (roundPositive_weak_sign true (Qopp_pos H)) as Hs.
    destruct (roundPositive true (- q)) eqn:Er; [contradiction|exact I|].
    now apply roundPositive_double in Er.
  - pose proof (roundPositive_weak_sign false H) as Hs.
    destruct (roundPositive false q) eqn:Er; [contradiction|exact I|].
    now apply roundPositive_double in Er.
Qed.

Lemma gt0_Finite v : numGt (Finite v) (ofZ 0) = negb (Qle_bool v 0).
Proof. reflexivity. Qed.

Lemma round64_nonpos q : q <= 0 -> numGt (round64 q) (ofZ 0) = false.
Proof.
  intros Hq. unfold round64.
  destruct (Qcompare_spec q 0) as [E|H|H].
  - reflexivity.
  - pose proof (roundPositive_weak_sign true (Qopp_pos H)) as Hs.
    destruct (roundPositive true (- q)) as [|s|v]; [contradiction| |].
    + now subst s.
    + rewrite gt0_Finite. apply negb_false_iff, Qle_bool_iff. exact Hs.
  - exfalso. apply (Qlt_irrefl 0). eapply Qlt_le_trans; eassumption.
Qed.

Lemma round64_pos q : pow2 (-1074) <= q -> numGt (round64 q) (ofZ 0) = true.
Proof.
  intros Hq.
  assert (H0 : 0 < q) by (eapply Qlt_le_trans; [apply pow2_pos|exact Hq]).
  unfold round64.
  destruct (Qcompare_spec q 0) as [E|H|H].
  - rewrite E in H0. now apply Qlt_irrefl in H0.
  - exfalso. apply (Qlt_irrefl 0). eapply Qlt_trans; eassumption.
  - pose proof (roundPositive_sign false Hq) as Hs.
    destruct (roundPositive false q) as [|s|v]; [contradiction| |].
    + now subst s.
    + rewrite gt0_Finite. apply negb_true_iff.
      destruct (Qle_bool v 0) eqn:E; [|reflexivity].
      apply Qle_bool_iff in E. exfalso. apply (Qlt_irrefl 0).
      eapply Qlt_le_trans; eassumption.
Qed.

(** Two binary64 values differ by at least the least positive one. *)
Lemma double_gap a b :
  isDouble a -> isDouble b -> a < b -> pow2 (-1074) <= b + Qred (- a).
Proof.
  intros (ka & Ea) (kb & Eb) Hab.
  rewrite Qred_correct, Ea, Eb in *.
  apply Qmult_lt_r in Hab; [|apply pow2_pos].
  rewrite <- Zlt_Qlt in Hab.
  setoid_replace (inject_Z kb * pow2 (-1074) + - (inject_Z ka * pow2 (-1074)))
    with (inject_Z (kb - ka) * pow2 (-1074))
    by (unfold Z.sub; rewrite inject_Z_plus, inject_Z_opp; ring).
  rewrite <- (Qmult_1_l (pow2 (-1074))) at 1.
  apply Qmult_le_r; [apply pow2_pos|].
  change 1 with (inject_Z 1). rewrite <- Zle_Qle. lia.
Qed.

(** The sign of a difference of two binary64 values is exact. *)
Lemma numSub_sign a b :
  isDouble a -> isDouble b ->
  numGt (numSub (Finite b) (Finite a)) (ofZ 0) = negb (Qle_bool b a).
Proof.
  intros Ha Hb. unfold numSub, numNeg, numAdd.
  destruct (Qle_bool b a) eqn:E.
  - apply Qle_bool_iff in E. apply round64_nonpos.
    rewrite Qred_correct. 
    setoid_replace 0 with (a + - a) by ring.
    now apply Qplus_le_l.
  - apply round64_pos, double_gap; [exact Ha|exact Hb|].
    apply Qnot_le_lt. intros H. apply Qle_bool_iff in H. congruence.
Qed.

(** On ordered numbers, the comparator's test is [a < b]. *)
Lemma difference_sign a b :
  ordered a -> ordered b ->
  numGt (numSub b a) (ofZ 0) = numLt a b.
Proof.
  destruct a as [|s|a], b as [|t|b]; try contradiction; intros Ha Hb.
  - destruct s, t; reflexivity.
  - destruct s; reflexivity.
  - destruct t; reflexivity.
  - now apply numSub_sign.
Qed.

(** [<] on ordered numbers is a strict order with a transitive
    complement. *)
Lemma numLt_asym a b : numLt a b = true -> numLt b a = false.
Proof.
  destruct a as [|s|a], b as [|t|b]; simpl; try congruence.
  - destruct s, t; simpl; congruence.
  - destruct s; simpl; congruence.
  - destruct t; simpl; congruence.
  - intros H. apply negb_true_iff in H. apply negb_false_iff, Qle_bool_iff.
    apply Qlt_le_weak, Qnot_le_lt. intros H'. apply Qle_bool_iff in H'.
    congruence.
Qed.

Lemma numGe_trans a b c :
  numGe a b = true -> numGe b c = true -> numGe a c = true.
Proof.
  destruct a as [|s|a], b as [|t|b], c as [|r|c]; simpl; try congruence;
    try (destruct s); try (destruct t); try (destruct r); simpl;
    try congruence.
  rewrite !negb_involutive. intros H1 H2.
  apply Qle_bool_iff in H1, H2. apply Qle_bool_iff.
  eapply Qle_trans; eassumption.
Qed.

Lemma numGe_not_lt a b :
  ordered a -> ordered b -> numGe a b = negb (numLt a b).
Proof. destruct a, b; simpl; try contradiction; reflexivity. Qed.

End NumberFacts.

(* ================================================================== *)
(** * Properties of the flattener *)
(* ================================================================== *)

Module AdfFacts.

Lemma trimStart_nil_iff s :
  trimStart s = [] <-> forallb isWhiteSpace s = true.
Proof.
  induction s as [|c s IH]; simpl.
  - tauto.
  - destruct (isWhiteSpace c); simpl.
    + exact IH.
    + split; discriminate.
Qed.

Lemma trimStart_head c s r :
  trimStart s = c :: r -> isWhiteSpace c = false.
Proof.
  induction s as [|d s IH]; simpl; [discriminate|].
  destruct (isWhiteSpace d) eqn:E; [exact IH|].
  intros H; injection H as -> _; exact E.
Qed.

Lemma forallb_rev (f : N -> bool) s : forallb f (rev s) = forallb f s.
Proof.
  induction s as [|c s IH]; simpl; [reflexivity|].
  rewrite forallb_app, IH; simpl. rewrite andb_true_r. apply andb_comm.
Qed.

(** A text trims to nothing exactly when it is empty or consists of white
    space only. *)
Lemma trim_nil_iff s : trim s = [] <-> forallb isWhiteSpace s = true.
Proof.
  unfold trim, trimEnd. split.
  - intros H.
    assert (H1 : trimStart (rev (trimStart s)) = []).
    { destruct (trimStart (rev (trimStart s))) as [|c l]; [reflexivity|].
      simpl in H. destruct (rev l); discriminate. }
    apply trimStart_nil_iff in H1. rewrite forallb_rev in H1.
    apply trimStart_nil_iff.
    destruct (trimStart s) as [|c r] eqn:E; [reflexivity|].
    apply trimStart_head in E. simpl in H1. rewrite E in H1. discriminate.
  - intros H. apply trimStart_nil_iff in H. rewrite H. reflexivity.
Qed.

Lemma truthy_trim s : truthy s && truthy (trim s) = truthy (trim s).
Proof. destruct s; reflexivity. Qed.

Lemma truthy_false s : truthy s = false <-> s = [].
Proof. destruct s; simpl; split; congruence. Qed.

(** The text-node case with a link whose [href] is not empty. *)
Lemma textNode_link text marks h :
  linkHref (orElse marks []) = Some h -> h <> [] ->
  textNode text marks =
    if truthy (trim (orElse text [])) && negb (streq (trim (orElse text [])) h)
    then orElse text [] ++ str " (" ++ h ++ str ")"
    else h.
Proof.
  intros Hl Hh. unfold textNode. rewrite Hl.
  destruct h as [|c h]; [congruence|].
  rewrite truthy_trim. reflexivity.
Qed.

(** C1 (as amended): for a text node whose first link mark has a
    non-empty href, the flattener emits the href alone when the literal text
    is empty, whitespace-only, or equal to the href once surrounding white
    space is trimmed off the text; for every other literal text it emits
    the untrimmed text followed by the href in parentheses. *)
Theorem link_text_node_output text marks attrs content h :
  linkHref (orElse marks []) = Some h -> h <> [] ->
  let t := orElse text [] in
  let out := adfToPlainText (Node (Some (str "text")) text marks attrs content) in
  (forallb isWhiteSpace t = true \/ trim t = h -> out = h) /\
  (forallb isWhiteSpace t = false -> trim t <> h ->
   out = t ++ str " (" ++ h ++ str ")").
Proof.
  intros Hl Hh. cbv zeta.
  change (adfToPlainText (Node (Some (str "text")) text marks attrs content))
    with (textNode text marks).
  rewrite (textNode_link text marks Hl Hh).
  split.
  - intros [Hw | He].
    + apply trim_nil_iff in Hw. rewrite Hw. reflexivity.
    + rewrite He, streq_refl, andb_false_r. reflexivity.
  - intros Hw Hne.
    assert (Ht : truthy (trim (orElse text [])) = true).
    { destruct (trim (orElse text [])) eqn:Et; [|reflexivity].
      apply trim_nil_iff in Et. congruence. }
    apply streq_neq in Hne. rewrite Ht, Hne. reflexivity.
Qed.

Lemma link_text_node_output_witness :
  adfToPlainText
    (Node (Some (str "text")) (Some (str "Click here")) (Sample.linkTo "http://x/y")
       None Absent)
  = str "Click here" ++ str " (" ++ str "http://x/y" ++ str ")".
Proof.
  refine (proj2 (@link_text_node_output (Some (str "Click here"))
                   (Sample.linkTo "http://x/y") None Absent (str "http://x/y")
                   eq_refl _) eq_refl _); discriminate.
Defined.

(** C1, as stated, fails: a text that differs from the href only by
    surrounding white space is neither empty, nor whitespace-only, nor
    equal to the href, and yet the href alone is emitted. *)
Lemma link_text_node_counterexample :
  let text := str " http://x/y" in
  let h := str "http://x/y" in
  let out :=
    adfToPlainText
      (Node (Some (str "text")) (Some text) (Sample.linkTo "http://x/y") None Absent) in
  truthy text = true
  /\ forallb isWhiteSpace text = false
  /\ streq text h = false
  /\ out = h
  /\ streq out (text ++ str " (" ++ h ++ str ")") = false.
Proof. repeat split. Qed.

(** C10: a media node whose id is absent, null or empty flattens to the
    bare token; the id token is emitted only for a non-empty id, so the
    token with an empty id is never produced. *)
Theorem media_node_output text marks attrs content :
  let out := adfToPlainText (Node (Some (str "media")) text marks attrs content) in
  (mediaId attrs = [] -> out = str "[ATTACHMENT]")
  /\ (mediaId attrs <> [] ->
      out = str "[ATTACHMENT_ID:" ++ mediaId attrs ++ str "]")
  /\ streq out (str "[ATTACHMENT_ID:]") = false
  /\ (attrs = None \/ (exists a, attrs = Some a /\ attrId a = None)
      \/ (exists a, attrs = Some a /\ attrId a = Some [])
      <-> mediaId attrs = []).
Proof.
  intros out.
  assert (E : out = mediaNode attrs) by reflexivity.
  rewrite E. unfold mediaNode. fold (mediaId attrs).
  repeat split.
  - intros ->. reflexivity.
  - intros H. destruct (mediaId attrs); [congruence|reflexivity].
  - destruct (mediaId attrs) as [|c r]; [reflexivity|].
    simpl. destruct r; simpl; apply andb_false_r.
  - intros [-> | [(a & -> & Ha) | (a & -> & Ha)]]; unfold mediaId; simpl;
      try rewrite Ha; reflexivity.
  - unfold mediaId. destruct attrs as [a|]; [|tauto]. simpl.
    destruct (attrId a) as [i|] eqn:Ei; simpl.
    + intros ->. right; right. eauto.
    + intros _. right; left. eauto.
Qed.

End AdfFacts.

(* ================================================================== *)
(** * Properties of the release-name parser *)
(* ================================================================== *)

Module ReleaseNameFacts.

(** Every month number of the table is one of 1 .. 12. *)
Lemma ownMonth_range k v :
  ownMonth LT_MONTH_TO_NUM k = Some v -> (1 <= v <= 12)%Z.
Proof.
  unfold LT_MONTH_TO_NUM. simpl.
  repeat match goal with
         | |- context [streq k ?s] => destruct (streq k s)
         end;
    intros H; inversion H; lia.
Qed.

(** A property read on the table never yields a falsy value. *)
Lemma monthProperty_truthy k m :
  monthProperty k = Some m -> monthFalsy m = false.
Proof.
  unfold monthProperty.
  destruct (ownMonth LT_MONTH_TO_NUM k) as [v|] eqn:E.
  - intros H. injection H as <-. apply ownMonth_range in E.
    unfold ofZ, monthFalsy, isZero, Qeq_bool, inject_Z; simpl.
    apply Z.eqb_neq. lia.
  - destruct (inheritedProperty k); [|discriminate].
    intros H. injection H as <-. reflexivity.
Qed.

(** Without inherited properties, a read finds what the table holds. *)
Lemma monthProperty_own k :
  inheritedProperty k = false ->
  monthProperty k = None <-> ownMonth LT_MONTH_TO_NUM k = None.
Proof.
  intros Hk. unfold monthProperty. rewrite Hk.
  destruct (ownMonth LT_MONTH_TO_NUM k); split; congruence.
Qed.

Section Parser.

Variable toLowerCase : jsstring -> jsstring.

(** What the parser does, in full: it reports unparseable exactly when
    the label has fewer than two tokens, the year is refused, or both
    property reads come back undefined. *)
Lemma parse_none_iff name :
  let parts := splitWhiteSpace (trim name) in
  parseLtFixVersion toLowerCase name = None <->
  (List.length parts < 2)%nat
  \/ yearAccepted (toNumber (nth 0 parts [])) = false
  \/ (monthProperty (toLowerCase (join (str " ") (skipn 1 parts))) = None
      /\ monthProperty (toLowerCase (nth 1 parts [])) = None).
Proof.
  cbv zeta. unfold parseLtFixVersion, yearAccepted.
  set (parts := splitWhiteSpace (trim name)).
  destruct (Nat.ltb_spec (List.length parts) 2) as [Hl|Hl].
  { split; auto. }
  set (refused := negb (isFinite (toNumber (nth 0 parts [])))
                  || numLt (toNumber (nth 0 parts [])) (ofZ 2000)
                  || numGt (toNumber (nth 0 parts [])) (ofZ 2100)).
  destruct refused eqn:Hr.
  { split; auto. }
  unfold nullish.
  destruct (monthProperty (toLowerCase (join (str " ") (skipn 1 parts))))
    as [m1|] eqn:E1.
  - rewrite (monthProperty_truthy _ E1).
    split; [discriminate|].
    intros [H|[H|[H _]]]; [lia|discriminate|discriminate].
  - destruct (monthProperty (toLowerCase (nth 1 parts []))) as [m2|] eqn:E2.
    + rewrite (monthProperty_truthy _ E2).
      split; [discriminate|].
      intros [H|[H|[_ H]]]; [lia|discriminate|discriminate].
    + split; auto.
Qed.

(** C2 (as amended): the parser reports unparseable exactly when the
    label splits into fewer than two tokens, or the first token does not
    convert to a finite number in [2000, 2100] (it need not be an integer),
    or neither the remaining tokens joined and lower-cased nor the second
    token lower-cased is a key of the month table.  Stated for the labels
    whose lower-cased month texts are not names of members every object
    inherits. *)
Theorem parse_unparseable_iff name :
  let parts := splitWhiteSpace (trim name) in
  let joined := toLowerCase (join (str " ") (skipn 1 parts)) in
  let second := toLowerCase (nth 1 parts []) in
  inheritedProperty joined = false ->
  inheritedProperty second = false ->
  parseLtFixVersion toLowerCase name = None <->
  (List.length parts < 2)%nat
  \/ yearAccepted (toNumber (nth 0 parts [])) = false
  \/ (ownMonth LT_MONTH_TO_NUM joined = None
      /\ ownMonth LT_MONTH_TO_NUM second = None).
Proof.
  cbv zeta. intros H1 H2.
  rewrite parse_none_iff; cbv zeta.
  rewrite (monthProperty_own _ H1), (monthProperty_own _ H2).
  reflexivity.
Qed.

End Parser.

Lemma parse_unparseable_iff_witness :
  parseLtFixVersion latinLower (str "2024 january") = None.
Proof.
  apply (proj2 (@parse_unparseable_iff latinLower (str "2024 january")
                  eq_refl eq_refl)).
  right; right; split; reflexivity.
Defined.

(** C2, as stated, fails: a first token that is numeric but not an
    integer is accepted when it lies in the range. *)
Lemma fractional_year_counterexample :
  isInteger (toNumber (str "2024.5")) = false
  /\ yearAccepted (toNumber (str "2024.5")) = true
  /\ parseLtFixVersion latinLower (str "2024.5 sausis")
     = Some {| year := Finite (4049 # 2); month := MonthNumber (Finite 1) |}.
Proof. repeat split. Qed.

End ReleaseNameFacts.

(* ================================================================== *)
(** * Properties of the attachment resolver *)
(* ================================================================== *)

Module PlaceholderFacts.

Import IssueDetail.

(** ** Strings and prefixes *)

Lemma startsWith_app p s : startsWith p (p ++ s) = true.
Proof. induction p as [|c p IH]; simpl; [reflexivity|]. now rewrite N.eqb_refl. Qed.

Lemma startsWith_inv p s :
  startsWith p s = true -> s = p ++ skipn (List.length p) s.
Proof.
  revert s; induction p as [|c p IH]; intros [|d s]; simpl; try congruence.
  intros H. apply andb_prop in H as [H1 H2].
  apply N.eqb_eq in H1 as ->. f_equal. now apply IH.
Qed.

Lemma skipn_length_app (p s : jsstring) : skipn (List.length p) (p ++ s) = s.
Proof. induction p; simpl; auto. Qed.

Lemma existsb_eqb_false c (s : jsstring) :
  existsb (N.eqb c) s = false <-> ~ In c s.
Proof.
  induction s as [|d s IH]; simpl; [tauto|].
  rewrite orb_false_iff, IH, N.eqb_neq. intuition congruence.
Qed.

(** ** [spanId] *)

Lemma spanId_spec r :
  r = fst (spanId r) ++ snd (spanId r)
  /\ ~ In closeBracket (fst (spanId r))
  /\ (snd (spanId r) = [] \/ exists t, snd (spanId r) = closeBracket :: t).
Proof.
  induction r as [|c r IH]; simpl.
  - auto.
  - destruct (N.eqb_spec c closeBracket) as [->|Hc]; simpl.
    + repeat split; [tauto|eauto].
    + destruct (spanId r) as [run rest]; simpl in *.
      destruct IH as (E & Hn & Hr). repeat split.
      * now f_equal.
      * intros [H|H]; [congruence|auto].
      * exact Hr.
Qed.

Lemma spanId_app id t :
  ~ In closeBracket id -> spanId (id ++ closeBracket :: t) = (id, closeBracket :: t).
Proof.
  induction id as [|c id IH]; simpl; intros H.
  - reflexivity.
  - destruct (N.eqb_spec c closeBracket) as [->|Hc]; [tauto|].
    rewrite IH by tauto. reflexivity.
Qed.

Lemma spanId_no_close r : ~ In closeBracket r -> spanId r = (r, []).
Proof.
  induction r as [|c r IH]; simpl; intros H; [reflexivity|].
  destruct (N.eqb_spec c closeBracket) as [->|Hc]; [tauto|].
  rewrite IH by tauto. reflexivity.
Qed.

(** ** What the two expressions match *)

Lemma matchAttachmentId_Some s id rest :
  matchAttachmentId s = Some (id, rest) ->
  s = idPrefix ++ id ++ closeBracket :: rest
  /\ id <> [] /\ ~ In closeBracket id.
Proof.
  unfold matchAttachmentId.
  destruct (startsWith idPrefix s) eqn:Hp; [|discriminate].
  apply startsWith_inv in Hp.
  pose proof (spanId_spec (skipn (List.length idPrefix) s)) as (E & Hn & Hr).
  destruct (spanId (skipn (List.length idPrefix) s)) as [run after].
  simpl in *.
  destruct run as [|c run]; [discriminate|].
  destruct after as [|d after]; [discriminate|].
  destruct (N.eqb_spec d closeBracket) as [->|Hd]; [|discriminate].
  intros H; injection H as <- <-.
  repeat split; [|discriminate|exact Hn].
  rewrite Hp at 1. now rewrite E.
Qed.

Lemma matchAttachmentId_token id rest :
  id <> [] -> ~ In closeBracket id ->
  matchAttachmentId (idPrefix ++ id ++ closeBracket :: rest) = Some (id, rest).
Proof.
  intros Hne Hn. unfold matchAttachmentId.
  rewrite startsWith_app, skipn_length_app, spanId_app by exact Hn.
  destruct id; [congruence|]. now rewrite N.eqb_refl.
Qed.

Lemma matchAttachmentId_prefix r : matchAttachmentId (idPrefix ++ r) = idBody r.
Proof.
  unfold matchAttachmentId. rewrite startsWith_app, skipn_length_app.
  reflexivity.
Qed.

Lemma matchAttachmentId_other s :
  startsWith idPrefix s = false -> matchAttachmentId s = None.
Proof. unfold matchAttachmentId. now intros ->. Qed.

Lemma matchBare_Some s rest :
  matchBare s = Some rest -> s = bareToken ++ rest.
Proof.
  unfold matchBare. destruct (startsWith bareToken s) eqn:Hp; [|discriminate].
  intros H; injection H as <-. now apply startsWith_inv.
Qed.

(** ** The scan, for a well-behaved expression *)

Section Scan.

Variable matchAt : jsstring -> option (jsstring * jsstring).

Hypothesis behaved : wellBehaved matchAt.

Lemma shrinks s r rest :
  matchAt s = Some (r, rest) -> (List.length rest < List.length s)%nat.
Proof. apply behaved. Qed.

Lemma anchored s r rest :
  matchAt s = Some (r, rest) -> exists s', s = 91%N :: 65%N :: s'.
Proof. apply behaved. Qed.

Lemma closes s r rest : matchAt s = Some (r, rest) -> In closeBracket s.
Proof. apply behaved. Qed.

Lemma bracketed s r rest :
  matchAt s = Some (r, rest) -> exists r', r = 91%N :: r'.
Proof. apply behaved. Qed.

Lemma replaceFrom_fuel n m s :
  (List.length s <= n)%nat -> (List.length s <= m)%nat ->
  replaceFrom matchAt n s = replaceFrom matchAt m s.
Proof.
  revert m s; induction n as [|n IH]; intros m s Hn Hm.
  - destruct s; [|simpl in Hn; lia]. destruct m; reflexivity.
  - destruct s as [|c s]; [destruct m; reflexivity|].
    destruct m as [|m]; [simpl in Hm; lia|]. simpl in *.
    destruct (matchAt (c :: s)) as [[r rest]|] eqn:E.
    + apply shrinks in E. simpl in E. f_equal. apply IH; lia.
    + f_equal. apply IH; lia.
Qed.

(** The scan, one position at a time. *)
Lemma replaceAll_cons c s :
  replaceAll matchAt (c :: s) =
    match matchAt (c :: s) with
    | Some (r, rest) => r ++ replaceAll matchAt rest
    | None => c :: replaceAll matchAt s
    end.
Proof.
  unfold replaceAll. simpl.
  destruct (matchAt (c :: s)) as [[r rest]|] eqn:E; [|reflexivity].
  apply shrinks in E. simpl in E. f_equal. apply replaceFrom_fuel; lia.
Qed.

Lemma replaceAll_nil : replaceAll matchAt [] = [].
Proof. reflexivity. Qed.

(** A text without ["["] at the start of the result was there before. *)
Lemma startsWith_replaceAll p :
  ~ In 91%N p ->
  forall s, startsWith p (replaceAll matchAt s) = startsWith p s.
Proof.
  induction p as [|x p IH]; intros Hp s; [reflexivity|].
  destruct s as [|c s]; [reflexivity|].
  rewrite replaceAll_cons.
  destruct (matchAt (c :: s)) as [[r rest]|] eqn:E.
  - destruct (anchored E) as (s' & Es). destruct (bracketed E) as (r' & ->).
    injection Es as -> _. simpl.
    destruct (N.eqb_spec x 91) as [->|_]; [simpl in Hp; tauto|reflexivity].
  - simpl. rewrite IH; [reflexivity|]. simpl in Hp. tauto.
Qed.

(** A plain stretch is copied. *)
Lemma replaceAll_plain l s :
  plain l = true -> replaceAll matchAt (l ++ s) = l ++ replaceAll matchAt s.
Proof.
  induction l as [|c l IH]; intros Hl; [reflexivity|].
  simpl in Hl. apply andb_prop in Hl as [Hc Hl].
  change ((c :: l) ++ s) with (c :: (l ++ s)). rewrite replaceAll_cons.
  destruct (matchAt (c :: l ++ s)) as [[r rest]|] eqn:E.
  - destruct (anchored E) as (s' & Es). injection Es as -> Es.
    simpl in Hc. destruct l as [|d l]; [discriminate|].
    simpl in Es. injection Es as -> _. discriminate.
  - simpl. now rewrite IH.
Qed.

(** A text without ["]"] is left as it is. *)
Lemma replaceAll_no_close s :
  ~ In closeBracket s -> replaceAll matchAt s = s.
Proof.
  induction s as [|c s IH]; intros H; [reflexivity|].
  rewrite replaceAll_cons.
  destruct (matchAt (c :: s)) as [[r rest]|] eqn:E.
  - apply closes in E. contradiction.
  - rewrite IH; [reflexivity|]. simpl in H. tauto.
Qed.

Lemma replaceAll_close s :
  replaceAll matchAt (closeBracket :: s) = closeBracket :: replaceAll matchAt s.
Proof.
  rewrite replaceAll_cons.
  destruct (matchAt (closeBracket :: s)) as [[r rest]|] eqn:E; [|reflexivity].
  destruct (anchored E) as (s' & Es). discriminate.
Qed.

Lemma replaceAll_match s r rest :
  matchAt s = Some (r, rest) ->
  replaceAll matchAt s = r ++ replaceAll matchAt rest.
Proof.
  intros E. destruct s as [|c s].
  - apply shrinks in E. simpl in E. lia.
  - rewrite replaceAll_cons, E. reflexivity.
Qed.

Lemma replaceAll_skip c s :
  matchAt (c :: s) = None ->
  replaceAll matchAt (c :: s) = c :: replaceAll matchAt s.
Proof. intros E. rewrite replaceAll_cons, E. reflexivity. Qed.

(** Where the id expression did not match before the scan, it does not
    match after it. *)
Lemma matchAttachmentId_replaced c x :
  matchAttachmentId (c :: x) = None ->
  matchAttachmentId (c :: replaceAll matchAt x) = None.
Proof.
  assert (Hsw : startsWith idPrefix (c :: replaceAll matchAt x)
                = startsWith idPrefix (c :: x)).
  { change idPrefix with (91%N :: idTail). cbn [startsWith].
    rewrite (@startsWith_replaceAll idTail); [reflexivity|].
    unfold idTail; simpl. intuition discriminate. }
  destruct (startsWith idPrefix (c :: x)) eqn:Hp.
  - apply startsWith_inv in Hp.
    set (r := skipn (List.length idPrefix) (c :: x)) in Hp. clearbody r.
    change (idPrefix ++ r) with (91%N :: (idTail ++ r)) in Hp.
    injection Hp as -> ->. clear Hsw.
    change (matchAttachmentId (idPrefix ++ r) = None ->
            matchAttachmentId (91%N :: replaceAll matchAt (idTail ++ r)) = None).
    rewrite replaceAll_plain by reflexivity.
    change (91%N :: idTail ++ replaceAll matchAt r)
      with (idPrefix ++ replaceAll matchAt r).
    rewrite !matchAttachmentId_prefix. unfold idBody.
    pose proof (spanId_spec r) as (E & Hn & Hr).
    destruct (spanId r) as [run after] eqn:Es. simpl in E, Hn, Hr.
    destruct Hr as [->|(t & ->)].
    + (* no closing bracket in [r] *)
      rewrite app_nil_r in E. subst run.
      rewrite (replaceAll_no_close r Hn), Es. destruct r; reflexivity.
    + destruct run as [|d run].
      * simpl in E. rewrite E, replaceAll_close. reflexivity.
      * rewrite N.eqb_refl. discriminate.
  - intros _. apply matchAttachmentId_other. now rewrite Hsw.
Qed.

End Scan.

(** ** Occurrences *)

Lemma anywhere_suffix holds l s :
  anywhere holds (l ++ s) = false -> anywhere holds s = false.
Proof.
  induction l as [|c l IH]; simpl; [auto|].
  intros H. apply orb_false_iff in H as [_ H]. auto.
Qed.

Lemma anywhere_cons holds c s :
  anywhere holds (c :: s) = holds (c :: s) || anywhere holds s.
Proof. reflexivity. Qed.

(** Nothing anchored at ["[A"] occurs inside a plain stretch. *)
Lemma anywhere_plain holds l s :
  (forall t, holds t = true -> exists t', t = 91%N :: 65%N :: t') ->
  plain l = true ->
  anywhere holds (l ++ s) = anywhere holds s.
Proof.
  intros Ha. induction l as [|c l IH]; intros Hl; [reflexivity|].
  simpl in Hl. apply andb_prop in Hl as [Hc Hl].
  change ((c :: l) ++ s) with (c :: (l ++ s)).
  rewrite anywhere_cons, IH by exact Hl.
  destruct (holds (c :: l ++ s)) eqn:E; [|reflexivity].
  destruct (Ha _ E) as (t' & Et). injection Et as -> Et.
  simpl in Hc. destruct l as [|d l]; [discriminate|].
  simpl in Et. injection Et as -> _. discriminate.
Qed.

Lemma plain_app a b : plain a = true -> plain b = true -> plain (a ++ b) = true.
Proof.
  induction a as [|c a IH]; simpl; [auto|].
  intros H Hb. apply andb_prop in H as [Hc Ha].
  rewrite (IH Ha Hb), andb_true_r.
  destruct (N.eqb c 91); [|reflexivity].
  destruct a; [discriminate|exact Hc].
Qed.

Lemma idHolds_anchored t :
  idHolds t = true -> exists t', t = 91%N :: 65%N :: t'.
Proof.
  unfold idHolds. destruct (matchAttachmentId t) as [[i rest]|] eqn:E;
    [|discriminate].
  intros _. apply matchAttachmentId_Some in E as (-> & _). eexists. reflexivity.
Qed.

Lemma bare_anchored t :
  startsWith bareToken t = true -> exists t', t = 91%N :: 65%N :: t'.
Proof.
  intros H. apply startsWith_inv in H. rewrite H. eexists. reflexivity.
Qed.

(** The generic label holds no token, whatever follows it. *)
Lemma anywhere_generic holds s :
  (forall t, holds t = true -> exists t', t = 91%N :: 65%N :: t') ->
  holds (genericLabel ++ s) = false ->
  anywhere holds (genericLabel ++ s) = anywhere holds s.
Proof.
  intros Ha H0.
  change (genericLabel ++ s) with (91%N :: (str "Attachment]" ++ s)) in *.
  rewrite anywhere_cons, H0, orb_false_l.
  apply anywhere_plain; [exact Ha|reflexivity].
Qed.

(** A token with a non-empty id, spelled out. *)
Lemma hasIdToken_iff s :
  hasIdToken s = true <->
  exists before id after,
    id <> [] /\ ~ In closeBracket id
    /\ s = before ++ idPrefix ++ id ++ closeBracket :: after.
Proof.
  unfold hasIdToken. split.
  - induction s as [|c s IH]; [intros H; vm_compute in H; discriminate|].
    + rewrite anywhere_cons. intros H. apply orb_prop in H as [H|H].
      * unfold idHolds in H.
        destruct (matchAttachmentId (c :: s)) as [[i rest]|] eqn:E;
          [|discriminate].
        apply matchAttachmentId_Some in E as (E & Hne & Hn).
        exists [], i, rest. auto.
      * destruct (IH H) as (b & i & a & Hne & Hn & ->).
        exists (c :: b), i, a. auto.
  - intros (b & i & a & Hne & Hn & ->).
    induction b as [|c b IH].
    + rewrite app_nil_l.
      assert (E : idHolds (idPrefix ++ i ++ closeBracket :: a) = true).
      { unfold idHolds. now rewrite matchAttachmentId_token. }
      change (idPrefix ++ i ++ closeBracket :: a)
        with (91%N :: (idTail ++ i ++ closeBracket :: a)) in *.
      rewrite anywhere_cons, E. reflexivity.
    + change ((c :: b) ++ idPrefix ++ i ++ closeBracket :: a)
        with (c :: (b ++ idPrefix ++ i ++ closeBracket :: a)).
      rewrite anywhere_cons, IH. apply orb_true_r.
Qed.

(** The bare token, spelled out. *)
Lemma hasBareToken_iff s :
  hasBareToken s = true <->
  exists before after, s = before ++ bareToken ++ after.
Proof.
  unfold hasBareToken. split.
  - induction s as [|c s IH]; [intros H; vm_compute in H; discriminate|].
    + rewrite anywhere_cons. intros H. apply orb_prop in H as [H|H].
      * apply startsWith_inv in H. exists [], (skipn (List.length bareToken) (c :: s)).
        exact H.
      * destruct (IH H) as (b & a & ->). exists (c :: b), a. reflexivity.
  - intros (b & a & ->). induction b as [|c b IH].
    + rewrite app_nil_l.
      pose proof (startsWith_app bareToken a) as E.
      change (bareToken ++ a) with (91%N :: (str "ATTACHMENT]" ++ a)) in *.
      rewrite anywhere_cons, E. reflexivity.
    + change ((c :: b) ++ bareToken ++ a) with (c :: (b ++ bareToken ++ a)).
      rewrite anywhere_cons, IH. apply orb_true_r.
Qed.

(** ** The two expressions of [enrichPlaceholders] *)

Lemma bareReplacement_Some s r rest :
  bareReplacement s = Some (r, rest) ->
  r = genericLabel /\ s = bareToken ++ rest.
Proof.
  unfold bareReplacement. destruct (matchBare s) as [t|] eqn:E; [|discriminate].
  intros H; injection H as <- <-. split; [reflexivity|].
  now apply matchBare_Some.
Qed.

Lemma bareReplacement_None s :
  bareReplacement s = None <-> startsWith bareToken s = false.
Proof.
  unfold bareReplacement, matchBare.
  destruct (startsWith bareToken s); split; congruence.
Qed.

Lemma bare_behaved : wellBehaved bareReplacement.
Proof.
  split; intros s r rest E; apply bareReplacement_Some in E as (-> & ->).
  - rewrite length_app. simpl. lia.
  - eexists. reflexivity.
  - apply in_or_app. left. unfold bareToken, closeBracket. simpl. tauto.
  - eexists. reflexivity.
Qed.

(** ** After the second pass no bare token is left *)

Lemma bare_removed n : forall x,
  (List.length x <= n)%nat ->
  hasBareToken (replaceAll bareReplacement x) = false.
Proof.
  unfold hasBareToken.
  induction n as [|n IH]; intros x Hx.
  { destruct x; [reflexivity|simpl in Hx; lia]. }
  destruct x as [|c x]; [reflexivity|].
  destruct (bareReplacement (c :: x)) as [[r rest]|] eqn:E.
  - rewrite (replaceAll_match bare_behaved _ E).
    pose proof (matchShrinks bare_behaved _ E) as Hlen.
    apply bareReplacement_Some in E as (-> & E).
    rewrite anywhere_generic.
    + apply IH. simpl in *. lia.
    + exact bare_anchored.
    + reflexivity.
  - rewrite (replaceAll_skip bare_behaved _ _ E), anywhere_cons.
    rewrite IH by (simpl in Hx; lia). rewrite orb_false_r.
    apply bareReplacement_None in E.
    change bareToken with (91%N :: str "ATTACHMENT]") in *.
    cbn [startsWith] in *.
    rewrite (@startsWith_replaceAll _ bare_behaved (str "ATTACHMENT]"));
      [exact E|].
    simpl. intuition discriminate.
Qed.

(** ** The second pass brings no id token in *)

Lemma id_absent_kept n : forall x,
  (List.length x <= n)%nat ->
  hasIdToken x = false ->
  hasIdToken (replaceAll bareReplacement x) = false.
Proof.
  unfold hasIdToken.
  induction n as [|n IH]; intros x Hx Hno.
  { destruct x; [reflexivity|simpl in Hx; lia]. }
  destruct x as [|c x]; [reflexivity|].
  destruct (bareReplacement (c :: x)) as [[r rest]|] eqn:E.
  - rewrite (replaceAll_match bare_behaved _ E).
    pose proof (matchShrinks bare_behaved _ E) as Hlen.
    apply bareReplacement_Some in E as (-> & E).
    rewrite E in Hno. apply anywhere_suffix in Hno.
    rewrite anywhere_generic.
    + apply IH; [simpl in *; lia|exact Hno].
    + exact idHolds_anchored.
    + reflexivity.
  - rewrite (replaceAll_skip bare_behaved _ _ E), anywhere_cons.
    rewrite anywhere_cons in Hno. apply orb_false_iff in Hno as [H0 Hno].
    rewrite IH by (simpl in Hx; lia || exact Hno). rewrite orb_false_r.
    unfold idHolds in *.
    destruct (matchAttachmentId (c :: x)) eqn:E0; [discriminate|].
    now rewrite (matchAttachmentId_replaced bare_behaved _ _ E0).
Qed.

Section Resolver.

Variable toLowerCase : jsstring -> jsstring.
Variable attachmentById : jsmap attachment.

Local Abbreviation idRule := (idReplacement toLowerCase attachmentById).

Local Abbreviation labelFor := (TextNotions.labelFor toLowerCase attachmentById).
Local Abbreviation afterIds := (TextNotions.afterIds toLowerCase attachmentById).

Lemma idReplacement_Some s r rest :
  idRule s = Some (r, rest) ->
  exists i, r = labelFor i /\ i <> [] /\ ~ In closeBracket i
            /\ s = idPrefix ++ i ++ closeBracket :: rest.
Proof.
  unfold idReplacement.
  destruct (matchAttachmentId s) as [[i t]|] eqn:E; [|discriminate].
  intros H; injection H as <- <-.
  apply matchAttachmentId_Some in E as (E & Hne & Hn).
  exists i. auto.
Qed.

Lemma idReplacement_None s :
  idRule s = None <-> idHolds s = false.
Proof.
  unfold idReplacement, idHolds.
  destruct (matchAttachmentId s) as [[i t]|]; split; congruence.
Qed.

Lemma labelFor_bracketed i : exists r', labelFor i = 91%N :: r'.
Proof.
  unfold TextNotions.labelFor, placeholderLabelForAttachment.
  destruct (mapGet i attachmentById) as [a|]; [|eexists; reflexivity].
  destruct (startsWith _ _); eexists; reflexivity.
Qed.

Lemma id_behaved : wellBehaved idRule.
Proof.
  split; intros s r rest E;
    apply idReplacement_Some in E as (i & -> & Hne & Hn & ->).
  - rewrite !length_app. simpl. lia.
  - eexists. reflexivity.
  - apply in_or_app. right. apply in_or_app. right. left. reflexivity.
  - apply labelFor_bracketed.
Qed.

Lemma enrichPlaceholders_eq text :
  enrichPlaceholders toLowerCase attachmentById text
  = replaceAll bareReplacement (replaceAll idRule text).
Proof. destruct text; reflexivity. Qed.

(** *** The first pass leaves no id token, when no label holds one *)

Hypothesis plainNames : forall i a,
  mapGet i attachmentById = Some a ->
  plain (orElse (filename a) (str "file")) = true.

Lemma anywhere_label holds i s :
  (forall t, holds t = true -> exists t', t = 91%N :: 65%N :: t') ->
  holds (genericLabel ++ s) = false ->
  anywhere holds (labelFor i ++ s) = anywhere holds s.
Proof.
  intros Ha H0. unfold TextNotions.labelFor.
  destruct (mapGet i attachmentById) as [a|] eqn:Ea.
  - apply anywhere_plain; [exact Ha|].
    apply plainNames in Ea. unfold placeholderLabelForAttachment.
    destruct (startsWith _ _);
      (apply plain_app; [reflexivity|apply plain_app; [exact Ea|reflexivity]]).
  - now apply anywhere_generic.
Qed.

Lemma id_removed n : forall x,
  (List.length x <= n)%nat -> hasIdToken (replaceAll idRule x) = false.
Proof.
  unfold hasIdToken.
  induction n as [|n IH]; intros x Hx.
  { destruct x; [reflexivity|simpl in Hx; lia]. }
  destruct x as [|c x]; [reflexivity|].
  destruct (idRule (c :: x)) as [[r rest]|] eqn:E.
  - rewrite (replaceAll_match id_behaved _ E).
    pose proof (matchShrinks id_behaved _ E) as Hlen.
    apply idReplacement_Some in E as (i & -> & _ & _ & E).
    rewrite anywhere_label.
    + apply IH. simpl in *. lia.
    + exact idHolds_anchored.
    + reflexivity.
  - rewrite (replaceAll_skip id_behaved _ _ E), anywhere_cons.
    rewrite IH by (simpl in Hx; lia). rewrite orb_false_r.
    apply idReplacement_None in E. unfold idHolds in *.
    destruct (matchAttachmentId (c :: x)) eqn:E0; [discriminate|].
    now rewrite (matchAttachmentId_replaced id_behaved _ _ E0).
Qed.

(** *** Piece by piece *)

Lemma idRule_token i rest :
  i <> [] -> ~ In closeBracket i ->
  idRule (idPrefix ++ i ++ closeBracket :: rest) = Some (labelFor i, rest).
Proof.
  intros Hne Hn. unfold idReplacement.
  now rewrite matchAttachmentId_token.
Qed.

Lemma first_pass_pieces ps :
  forallb wellFormed ps = true ->
  replaceAll idRule (List.concat (List.map render ps))
  = List.concat (List.map afterIds ps).
Proof.
  induction ps as [|p ps IH]; intros Hw; [reflexivity|].
  simpl in Hw. apply andb_prop in Hw as [Hp Hw].
  cbn [List.map List.concat]. rewrite <- (IH Hw).
  destruct p as [l|i|]; cbn [render TextNotions.afterIds].
  - apply (replaceAll_plain id_behaved), Hp.
  - simpl in Hp. apply andb_prop in Hp as [Hne Hn].
    apply negb_true_iff, existsb_eqb_false in Hn.
    rewrite <- !app_assoc. cbn [app].
    apply (replaceAll_match id_behaved), idRule_token; [|exact Hn].
    destruct i; [discriminate|congruence].
  - change (bareToken ++ ?x) with (91%N :: (str "ATTACHMENT]" ++ x)).
    rewrite (replaceAll_skip id_behaved).
    + reflexivity.
    + apply idReplacement_None. reflexivity.
Qed.

Lemma second_pass_pieces ps :
  forallb wellFormed ps = true ->
  replaceAll bareReplacement (List.concat (List.map afterIds ps))
  = List.concat (List.map (resolved toLowerCase attachmentById) ps).
Proof.
  induction ps as [|p ps IH]; intros Hw; [reflexivity|].
  simpl in Hw. apply andb_prop in Hw as [Hp Hw].
  cbn [List.map List.concat]. rewrite <- (IH Hw).
  destruct p as [l|i|]; cbn [render TextNotions.afterIds resolved].
  - apply (replaceAll_plain bare_behaved), Hp.
  - unfold TextNotions.labelFor. destruct (mapGet i attachmentById) as [a|] eqn:Ea.
    + apply plainNames in Ea. unfold placeholderLabelForAttachment.
      destruct (startsWith _ _);
        (apply (replaceAll_plain bare_behaved);
         apply plain_app; [reflexivity|apply plain_app; [exact Ea|reflexivity]]).
    + change (genericLabel ++ ?x) with (91%N :: (str "Attachment]" ++ x)).
      rewrite (replaceAll_skip bare_behaved).
      * reflexivity.
      * apply bareReplacement_None. reflexivity.
  - apply (replaceAll_match bare_behaved).
    unfold bareReplacement, matchBare.
    now rewrite startsWith_app, skipn_length_app.
Qed.

End Resolver.




Example empty_id_stays :
  enrichPlaceholders latinLower [] (str "see [ATTACHMENT_ID:] and [ATTACHMENT]")
  = str "see [ATTACHMENT_ID:] and [Attachment]".
Proof. reflexivity. Qed.

(** Why the labels are read off under a proviso on the file names: the
    second replace rewrites a bare token that the first one brought in
    with a file name. *)
Example label_rewritten :
  enrichPlaceholders latinLower
    (indexAttachments
       [ {| attachmentId := Some (str "1");
            filename := Some (str "[ATTACHMENT]");
            mimeType := None; size := None; content := None |} ])
    (str "[ATTACHMENT_ID:1]")
  = str "[File: [Attachment]]".
Proof. reflexivity. Qed.

Example nested_id_token :
  enrichPlaceholders latinLower Sample.pngLookup
    (str "[ATTACHMENT_ID:[ATTACHMENT_ID:10001]")
  = str "[Attachment]".
Proof. reflexivity. Qed.

End PlaceholderFacts.

(* ================================================================== *)
(** * Properties of the paged aggregator *)
(* ================================================================== *)

Module PagingFacts.

Import Issues RouteNotions.

Section Aggregator.

Variable toLowerCase : jsstring -> jsstring.
Variable localeCompare : jsstring -> jsstring -> Z.
Variable World : Type.
Variable fetchPage : searchRequest -> World -> fetched page * World.
Variable url : jsstring.
Variable credentials : jsstring * jsstring.

Local Abbreviation loop := (fetchPages fetchPage).
Local Abbreviation request := (requestFor url credentials).

(** One turn of the loop, by what the service answers. *)
Lemma loop_step remaining cursor acc w log :
  loop (S remaining) url credentials cursor acc (w, log) =
    match fetchPage (request cursor) w with
    | (NetworkError message, w') => (Throw message, (w', log ++ [request cursor]))
    | (Response status text data, w') =>
        if negb (ok status)
        then (Return (upstreamFailure "Jira request failed" status text),
              (w', log ++ [request cursor]))
        else
          match data with
          | inl message => (Throw message, (w', log ++ [request cursor]))
          | inr p =>
              if continues p
              then loop remaining url credentials (nextPageToken p)
                     (acc ++ issuesOf p) (w', log ++ [request cursor])
              else (Value (acc ++ issuesOf p), (w', log ++ [request cursor]))
          end
    end.
Proof.
  cbn [fetchPages]. unfold bind, fetchSearch. cbn [fst snd].
  fold (request cursor).
  destruct (fetchPage (request cursor) w) as [[message|status text data] w'].
  - reflexivity.
  - destruct (negb (ok status)); [reflexivity|].
    destruct data as [message|p]; [reflexivity|].
    unfold continues, issuesOf.
    destruct (orElse (isLast p) true || negb (truthy (orElse (nextPageToken p) [])));
      reflexivity.
Qed.

(** While the service serves continuing pages, the loop takes them in. *)
Lemma loop_serves w cursor pages w' cursor' :
  serves fetchPage url credentials w cursor pages w' cursor' ->
  forall k acc log,
    loop (List.length pages + k) url credentials cursor acc (w, log)
    = loop k url credentials cursor' (acc ++ flat_map issuesOf pages)
        (w', log ++ requestsOf url credentials cursor pages).
Proof.
  induction 1 as [w cursor|w cursor status text p pages w1 w2 cursor2 Hf Hok Hc Hs IH];
    intros k acc log.
  - simpl. now rewrite !app_nil_r.
  - cbn [List.length Nat.add]. rewrite loop_step, Hf, Hok, Hc. cbn [negb].
    rewrite IH. cbn [flat_map requestsOf]. now rewrite <- !app_assoc.
Qed.

Lemma requestsOf_length cursor pages :
  List.length (requestsOf url credentials cursor pages) = List.length pages.
Proof.
  revert cursor; induction pages as [|p pages IH]; intros cursor; simpl;
    [reflexivity|now rewrite IH].
Qed.

(** The cursor reached is the one the request after [pages] carries. *)
Lemma requestsOf_last w cursor pages w' cursor' p :
  serves fetchPage url credentials w cursor pages w' cursor' ->
  requestsOf url credentials cursor (pages ++ [p])
  = requestsOf url credentials cursor pages ++ [request cursor'].
Proof.
  induction 1 as [w cursor|w cursor status text q pages w1 w2 cursor2 Hf Hok Hc Hs IH];
    simpl; [reflexivity|now rewrite IH].
Qed.

(** After continuing pages, a page that does not continue ends the loop
    with everything received. *)
Lemma loop_completes w cursor pages w1 cursor1 status text p w2 k acc log :
  serves fetchPage url credentials w cursor pages w1 cursor1 ->
  fetchPage (request cursor1) w1 = (Response status text (inr p), w2) ->
  ok status = true ->
  continues p = false ->
  loop (List.length pages + S k) url credentials cursor acc (w, log)
  = (Value (acc ++ flat_map issuesOf (pages ++ [p])),
     (w2, log ++ requestsOf url credentials cursor (pages ++ [p]))).
Proof.
  intros Hs Hf Hok Hc.
  rewrite (loop_serves Hs), loop_step, Hf, Hok, Hc. cbn [negb].
  rewrite (requestsOf_last p Hs), flat_map_app. simpl.
  now rewrite !app_nil_r, <- !app_assoc.
Qed.

(** After continuing pages, a response that is not [ok] ends the loop
    with the 502 reply. *)
Lemma loop_fails w cursor pages w1 cursor1 status text data w2 k acc log :
  serves fetchPage url credentials w cursor pages w1 cursor1 ->
  fetchPage (request cursor1) w1 = (Response status text data, w2) ->
  ok status = false ->
  loop (List.length pages + S k) url credentials cursor acc (w, log)
  = (Return (upstreamFailure "Jira request failed" status text),
     (w2, (log ++ requestsOf url credentials cursor pages)
          ++ [request cursor1])).
Proof.
  intros Hs Hf Hok.
  rewrite (loop_serves Hs), loop_step, Hf, Hok. reflexivity.
Qed.

(** The loop never sends more requests than it has turns. *)
Lemma loop_bound remaining : forall cursor acc s,
  (List.length (snd (snd (loop remaining url credentials cursor acc s)))
   <= List.length (snd s) + remaining)%nat.
Proof.
  induction remaining as [|remaining IH]; intros cursor acc [w log].
  - simpl. lia.
  - rewrite loop_step.
    destruct (fetchPage (request cursor) w) as [[message|status text data] w'].
    + cbn [snd]. rewrite length_app. simpl. lia.
    + destruct (negb (ok status)).
      * cbn [snd]. rewrite length_app. simpl. lia.
      * destruct data as [message|p].
        -- cbn [snd]. rewrite length_app. simpl. lia.
        -- destruct (continues p).
           ++ etransitivity; [apply IH|]. cbn [snd]. rewrite length_app.
              simpl. lia.
           ++ cbn [snd]. rewrite length_app. simpl. lia.
Qed.

End Aggregator.

Section Handler.

Variable toLowerCase : jsstring -> jsstring.
Variable localeCompare : jsstring -> jsstring -> Z.
Variable World : Type.
Variable fetchPage : searchRequest -> World -> fetched page * World.

Local Abbreviation GET := (Issues.GET toLowerCase localeCompare fetchPage).
Local Abbreviation loop := (fetchPages fetchPage).
Local Abbreviation reply := (groupedReply toLowerCase localeCompare).

(** With its settings in place the handler runs the loop and concludes. *)
Lemma search_configured env baseUrl email token s :
  configured env baseUrl email token ->
  GET env s =
    conclude toLowerCase localeCompare baseUrl
      (loop 30 (searchUrlOf baseUrl) (email, token) None [] s).
Proof.
  intros (Hb & Hb' & He & He' & Ht & Ht').
  unfold Issues.GET, tryCatch, bind, mustGetEnv, conclude, groupedReply.
  rewrite Hb, He, Ht.
  destruct baseUrl; [congruence|]. destruct email; [congruence|].
  destruct token; [congruence|].
  unfold pure at 1 2 3. fold (searchUrlOf (n :: baseUrl)).
  destruct (loop 30 (searchUrlOf (n :: baseUrl)) _ None [] s) as [[all|e|r] s'];
    reflexivity.
Qed.

(** Without them it replies at once and sends nothing. *)
Lemma GET_cases env s :
  snd (GET env s) = s
  \/ exists baseUrl email token, configured env baseUrl email token.
Proof.
  unfold configured.
  destruct (env (str "JIRA_BASE_URL")) as [[|c b]|] eqn:Hb;
    try (left; unfold Issues.GET, tryCatch, bind, mustGetEnv; rewrite Hb;
         reflexivity).
  destruct (env (str "JIRA_EMAIL")) as [[|c1 e]|] eqn:He;
    try (left; unfold Issues.GET, tryCatch, bind, mustGetEnv; rewrite Hb, He;
         reflexivity).
  destruct (env (str "JIRA_API_TOKEN")) as [[|c2 t]|] eqn:Ht;
    try (left; unfold Issues.GET, tryCatch, bind, mustGetEnv;
         rewrite Hb, He, Ht; reflexivity).
  right. exists (c :: b), (c1 :: e), (c2 :: t). repeat split; congruence.
Qed.

Lemma conclude_state baseUrl (o : outcome (list rawIssue) * state World) :
  snd (conclude toLowerCase localeCompare baseUrl o) = snd o.
Proof. destruct o as [[all|e|r] s]; reflexivity. Qed.

(** C5: one invocation sends at most 30 page requests; and when the
    service has served 30 continuing pages, so that a cursor is still on
    offer, the handler stops there and replies, with status 200, with the
    records of these 30 pages grouped. *)
Theorem page_requests_bounded :
  (forall env s,
     (List.length (snd (snd (GET env s))) <= List.length (snd s) + 30)%nat)
  /\ (forall env baseUrl email token w log pages w' cursor',
        configured env baseUrl email token ->
        serves fetchPage (searchUrlOf baseUrl) (email, token)
          w None pages w' cursor' ->
        List.length pages = 30%nat ->
        GET env (w, log)
        = (reply baseUrl (flat_map issuesOf pages),
           (w', log ++ requestsOf (searchUrlOf baseUrl) (email, token)
                         None pages))
        /\ httpStatus (fst (GET env (w, log))) = 200%Z
        /\ List.length (snd (snd (GET env (w, log)))) = (List.length log + 30)%nat).
Proof.
  split.
  - intros env s. destruct (GET_cases env s) as [E|(b & e & t & Hc)].
    + rewrite E. lia.
    + rewrite (search_configured s Hc), conclude_state. apply loop_bound.
  - intros env baseUrl email token w log pages w' cursor' Hc Hs Hl.
    assert (E : GET env (w, log)
                = (reply baseUrl (flat_map issuesOf pages),
                   (w', log ++ requestsOf (searchUrlOf baseUrl) (email, token)
                                 None pages))).
    { rewrite (search_configured (w, log) Hc).
      replace 30%nat with (List.length pages + 0)%nat by lia.
      rewrite (loop_serves Hs). reflexivity. }
    rewrite E. repeat split.
    cbn [snd]. now rewrite length_app, requestsOf_length, Hl.
Qed.

(** What it means for a page not to continue. *)
Lemma continues_false_iff p :
  continues p = false <->
  isLast p = Some true \/ isLast p = None
  \/ nextPageToken p = None \/ nextPageToken p = Some [].
Proof.
  unfold continues.
  destruct (isLast p) as [[|]|], (nextPageToken p) as [[|c t]|]; simpl;
    split; intros H; try reflexivity; try discriminate; auto;
    destruct H as [H|[H|[H|H]]]; discriminate.
Qed.

(** C6: when the service answers with successful pages of which the last
    one, and no earlier one, signals the end of the results or carries no
    cursor, and the bound of 30 is not reached, the loop ends after that
    page with the records of all the pages, each once, in page order and in
    the order within each page; the reply reports them. *)
Theorem pages_accumulated env baseUrl email token w log pages w1 cursor1
    status text p w2 :
  configured env baseUrl email token ->
  serves fetchPage (searchUrlOf baseUrl) (email, token) w None pages w1 cursor1 ->
  (List.length pages < 30)%nat ->
  fetchPage (requestFor (searchUrlOf baseUrl) (email, token) cursor1) w1
  = (Response status text (inr p), w2) ->
  ok status = true ->
  continues p = false ->
  let all := flat_map issuesOf (pages ++ [p]) in
  let sent := requestsOf (searchUrlOf baseUrl) (email, token) None (pages ++ [p]) in
  loop 30 (searchUrlOf baseUrl) (email, token) None [] (w, log)
  = (Value all, (w2, log ++ sent))
  /\ GET env (w, log) = (reply baseUrl all, (w2, log ++ sent))
  /\ List.length sent = S (List.length pages).
Proof.
  intros Hc Hs Hl Hf Hok Hlast all sent.
  assert (E : loop 30 (searchUrlOf baseUrl) (email, token) None [] (w, log)
              = (Value all, (w2, log ++ sent))).
  { replace 30%nat with (List.length pages + S (29 - List.length pages))%nat
      by lia.
    now rewrite (loop_completes _ [] log Hs Hf Hok Hlast). }
  repeat split.
  - exact E.
  - now rewrite (search_configured (w, log) Hc), E.
  - unfold sent. rewrite requestsOf_length, length_app. simpl. lia.
Qed.

(** The issues route on a response that is not [ok]. *)
Lemma search_failure_reported env baseUrl email token w log pages w1 cursor1
    status text data w2 :
  configured env baseUrl email token ->
  serves fetchPage (searchUrlOf baseUrl) (email, token) w None pages w1 cursor1 ->
  (List.length pages < 30)%nat ->
  fetchPage (requestFor (searchUrlOf baseUrl) (email, token) cursor1) w1
  = (Response status text data, w2) ->
  ok status = false ->
  GET env (w, log)
  = ({| httpStatus := 502;
        responseBody :=
          ErrorBody (str "Jira request failed") (Some status) (Some text) |},
     (w2, (log ++ requestsOf (searchUrlOf baseUrl) (email, token) None pages)
          ++ [requestFor (searchUrlOf baseUrl) (email, token) cursor1])).
Proof.
  intros Hc Hs Hl Hf Hok.
  rewrite (search_configured (w, log) Hc).
  replace 30%nat with (List.length pages + S (29 - List.length pages))%nat
    by lia.
  now rewrite (loop_fails _ [] log Hs Hf Hok).
Qed.

End Handler.

Lemma sample_configured :
  configured Sample.env Sample.baseUrl (fst Sample.credentials)
    (snd Sample.credentials).
Proof. repeat split; discriminate. Defined.

Lemma endless_serves :
  serves Sample.endless Sample.searchUrl Sample.credentials 0%nat None
    (repeat (Sample.more [Sample.issue "IMOSHELP-1" ["2024 Sausis"%string]] "next") 30)
    30%nat (Some (str "next")).
Proof.
  repeat (eapply serves_cons; [reflexivity|reflexivity|reflexivity|]).
  apply serves_nil.
Defined.

Lemma page_requests_bounded_witness :
  httpStatus
    (fst (Issues.GET latinLower Sample.compareUnits Sample.endless Sample.env
            (0%nat, []))) = 200%Z
  /\ List.length
       (snd (snd (Issues.GET latinLower Sample.compareUnits Sample.endless
                    Sample.env (0%nat, [])))) = 30%nat.
Proof.
  exact (proj2 (proj2 (@page_requests_bounded latinLower Sample.compareUnits
                         nat Sample.endless)
                  Sample.env _ _ _ 0%nat [] _ _ _
                  sample_configured endless_serves eq_refl)).
Defined.

Lemma threePages_serves :
  serves (Sample.scripted (List.map Sample.success Sample.threePages))
    Sample.searchUrl Sample.credentials 0%nat None
    (firstn 2 Sample.threePages) 2%nat (Some (str "p3")).
Proof.
  repeat (eapply serves_cons; [reflexivity|reflexivity|reflexivity|]).
  apply serves_nil.
Defined.

Lemma pages_accumulated_witness :
  fst (fetchPages (Sample.scripted (List.map Sample.success Sample.threePages))
         30 Sample.searchUrl Sample.credentials None [] (0%nat, []))
  = Value [ Sample.issue "IMOSHELP-1" ["2024 Sausis"%string];
            Sample.issue "IMOSHELP-2" ["2024 Vasaris"%string];
            Sample.issue "IMOSHELP-3" ["2024 Sausis"%string];
            Sample.issue "IMOSHELP-4" ["2023 Gruodis"%string] ].
Proof.
  refine (f_equal fst
           (proj1 (@pages_accumulated latinLower Sample.compareUnits nat
                     (Sample.scripted (List.map Sample.success Sample.threePages))
                     Sample.env _ _ _ 0%nat [] _ _ _ 200%Z (str "{}")
                     (Sample.last [Sample.issue "IMOSHELP-4" ["2023 Gruodis"%string]])
                     3%nat
                     sample_configured threePages_serves
                     _ eq_refl eq_refl eq_refl))).
  simpl. lia.
Defined.

End PagingFacts.

(* ================================================================== *)
(** * Properties of the grouping engine *)
(* ================================================================== *)

Module GroupingFacts.

Import Issues RouteNotions.

(** ** Maps *)

Lemma mapGet_mapSet {V} k k' (v : V) m :
  mapGet k (mapSet k' v m) = if streq k k' then Some v else mapGet k m.
Proof.
  induction m as [|[k1 v1] m IH]; simpl.
  - reflexivity.
  - destruct (streq_spec k' k1) as [->|Hk]; simpl.
    + destruct (streq k k1); reflexivity.
    + rewrite IH. destruct (streq_spec k k1) as [->|Hk1]; [|reflexivity].
      destruct (streq_spec k1 k') as [->|_]; [congruence|reflexivity].
Qed.

Lemma mapGet_mapAdjust {V} k k' (f : V -> V) m :
  mapGet k (mapAdjust f k' m)
  = if streq k k' then option_map f (mapGet k m) else mapGet k m.
Proof.
  induction m as [|[k1 v1] m IH]; simpl.
  - destruct (streq k k'); reflexivity.
  - destruct (streq_spec k' k1) as [->|Hk]; simpl.
    + destruct (streq k k1); reflexivity.
    + rewrite IH. destruct (streq_spec k k1) as [->|Hk1]; [|reflexivity].
      destruct (streq_spec k1 k') as [->|_]; [congruence|reflexivity].
Qed.

Lemma existsb_streq n l : existsb (streq n) l = true <-> In n l.
Proof.
  rewrite existsb_exists. split.
  - intros (x & Hx & E). apply streq_eq in E. now subst.
  - intros H. exists n. split; [exact H|apply streq_refl].
Qed.

Section Grouping.

Variable issue : trimmedIssue.

(** A name met for the first time gains one entry. *)
Lemma first_mention name fv seen groupsMap n :
  versionName fv = Some name -> name <> [] ->
  existsb (streq name) seen = false ->
  addFixVersion issue (seen, groupsMap) fv
  = (name :: seen, snd (addFixVersion issue (seen, groupsMap) fv))
  /\ issuesIn n (snd (addFixVersion issue (seen, groupsMap) fv))
     = issuesIn n groupsMap ++ (if streq n name then [issue] else []).
Proof.
  intros Hv Hne Hs. unfold addFixVersion. rewrite Hv.
  destruct name as [|c name]; [congruence|]. rewrite Hs. cbn [snd].
  split; [reflexivity|].
  unfold issuesIn, mapHas. rewrite mapGet_mapAdjust.
  destruct (streq_spec n (c :: name)) as [->|Hn].
  - destruct (mapGet (c :: name) groupsMap) as [g|] eqn:Eg; cbn [negb].
    + rewrite Eg. reflexivity.
    + rewrite mapGet_mapSet, streq_refl. reflexivity.
  - rewrite app_nil_r.
    destruct (mapGet (c :: name) groupsMap) as [g|] eqn:Eg; cbn [negb];
      [reflexivity|].
    rewrite mapGet_mapSet. apply streq_neq in Hn. now rewrite Hn.
Qed.

(** The inner loop: a group gains one entry when its name is listed and
    was not seen before, and none otherwise. *)
Lemma inner_loop fvs : forall seen groupsMap n,
  issuesIn n (snd (fold_left (addFixVersion issue) fvs (seen, groupsMap)))
  = issuesIn n groupsMap
    ++ (if negb (existsb (streq n) seen) && existsb (streq n) (names fvs)
        then [issue] else []).
Proof.
  induction fvs as [|fv fvs IH]; intros seen groupsMap n.
  - simpl. rewrite andb_false_r. now rewrite app_nil_r.
  - cbn [fold_left].
    destruct (versionName fv) as [[|c name]|] eqn:Hv.
    + unfold addFixVersion at 2. rewrite Hv. rewrite IH.
      unfold names. simpl. now rewrite Hv.
    + destruct (existsb (streq (c :: name)) seen) eqn:Hs.
      * unfold addFixVersion at 2. rewrite Hv, Hs, IH.
        unfold names. cbn [flat_map]. rewrite Hv. cbn [app existsb].
        destruct (streq_spec n (c :: name)) as [->|Hn]; [|reflexivity].
        now rewrite Hs.
      * destruct (@first_mention (c :: name) fv seen groupsMap n Hv)
          as (E1 & E2); [discriminate|exact Hs|].
        rewrite E1, IH, E2. unfold names. cbn [flat_map]. rewrite Hv.
        cbn [app existsb]. rewrite <- app_assoc. f_equal.
        destruct (streq_spec n (c :: name)) as [->|Hn].
        -- rewrite Hs. reflexivity.
        -- reflexivity.
    + unfold addFixVersion at 2. rewrite Hv. rewrite IH.
      unfold names. simpl. now rewrite Hv.
Qed.

End Grouping.

(** The outer loop, one record: the group of every name the record lists
    gains the record once, the other groups are left as they are. *)
Lemma addIssue_entries baseUrl groupsMap raw n :
  issuesIn n (addIssue baseUrl groupsMap raw)
  = issuesIn n groupsMap
    ++ (if existsb (streq n) (namesOf raw) then [trimIssue baseUrl raw] else []).
Proof. unfold addIssue. now rewrite inner_loop. Qed.

(** X2: after all records, the group of a name lists, in the order of
    the records, exactly the records that give the name, each once. *)
Lemma groupIssues_entries baseUrl all n :
  issuesIn n (groupIssues baseUrl all)
  = List.map (trimIssue baseUrl)
      (filter (fun raw => existsb (streq n) (namesOf raw)) all).
Proof.
  unfold groupIssues.
  assert (H : forall groupsMap,
             issuesIn n (fold_left (addIssue baseUrl) all groupsMap)
             = issuesIn n groupsMap
               ++ List.map (trimIssue baseUrl)
                    (filter (fun raw => existsb (streq n) (namesOf raw)) all)).
  { induction all as [|raw all IH]; intros groupsMap; simpl.
    - now rewrite app_nil_r.
    - rewrite IH, addIssue_entries, <- app_assoc.
      destruct (existsb (streq n) (namesOf raw)); reflexivity. }
  now rewrite H.
Qed.

(** C7: a record that names a release, be it several times over, adds
    exactly one entry, its own, to the group of that release. *)
Theorem one_entry_per_record baseUrl groupsMap raw name :
  In name (namesOf raw) ->
  issuesIn name (addIssue baseUrl groupsMap raw)
  = issuesIn name groupsMap ++ [trimIssue baseUrl raw].
Proof.
  intros H. rewrite addIssue_entries.
  apply existsb_streq in H. now rewrite H.
Qed.

Lemma one_entry_per_record_witness :
  (count_occ (list_eq_dec N.eq_dec) (namesOf Sample.twice) (str "2024 Sausis") = 2)%nat
  /\ issuesIn (str "2024 Sausis") (groupIssues Sample.baseUrl [Sample.twice])
     = [trimIssue Sample.baseUrl Sample.twice].
Proof.
  split; [reflexivity|].
  refine (@one_entry_per_record Sample.baseUrl [] Sample.twice (str "2024 Sausis") _).
  simpl. auto.
Defined.

(** ** Order of the groups *)

(** C3 at an input where the code departs from it: a release whose month
    text is the name of an inherited member is not in the month table, yet
    it is taken as parsed, its key is no number, every comparison with it
    yields NaN, and the group stays ahead of a group that parses. *)
Theorem inherited_month_group_order (localeCompare : jsstring -> jsstring -> Z) :
  List.map fixVersion
    (sortGroups latinLower localeCompare
       (groupIssues Sample.baseUrl [Sample.odd]))
  = [str "2024 constructor"; str "2024 sausis"]
  /\ ownMonth LT_MONTH_TO_NUM (latinLower (str "constructor")) = None
  /\ parseLtFixVersion latinLower (str "2024 constructor")
     = Some {| year := Finite (2024 # 1);
               month := MonthObject (str "constructor") |}
  /\ parseLtFixVersion latinLower (str "2024 sausis")
     = Some {| year := Finite (2024 # 1); month := MonthNumber (Finite 1) |}.
Proof. repeat split. Qed.

End GroupingFacts.

(* ================================================================== *)
(** * Properties of the detail view and of failure reporting *)
(* ================================================================== *)

Module DetailFacts.

Import IssueDetail RouteNotions.

Section Handler.

Variable toLowerCase : jsstring -> jsstring.
Variable encodeURIComponent : jsstring -> jsstring.
Variable World : Type.
Variable fetchIssue : issueRequest -> World -> fetched issueData * World.

Local Abbreviation GET :=
  (IssueDetail.GET toLowerCase encodeURIComponent fetchIssue).

Local Abbreviation requestOf := (RouteNotions.requestOf encodeURIComponent).

(** With its settings in place, the handler replies by what the service
    answers. *)
Lemma detail_configured env baseUrl email token key w :
  configured env baseUrl email token ->
  GET env key w =
    match fetchIssue (requestOf baseUrl email token key) w with
    | (NetworkError message, w') =>
        (jsonWithStatus (ErrorBody (str "Server error") None (Some message)) 500,
         w')
    | (Response status text data, w') =>
        if negb (ok status)
        then (upstreamFailure "Jira request failed" status text, w')
        else
          match data with
          | inl message =>
              (jsonWithStatus
                 (ErrorBody (str "Server error") None (Some message)) 500, w')
          | inr data =>
              (json (DetailBody (serialise (detail toLowerCase baseUrl data))),
               w')
          end
    end.
Proof.
  intros (Hb & Hb' & He & He' & Ht & Ht').
  unfold IssueDetail.GET, tryCatch, bind, mustGetEnv, fetchDetail.
  rewrite Hb, He, Ht.
  destruct baseUrl; [congruence|]. destruct email; [congruence|].
  destruct token; [congruence|].
  unfold pure at 1 2 3. fold (requestOf (n :: baseUrl) (n0 :: email) (n1 :: token) key).
  destruct (fetchIssue _ w) as [[message|status text data] w']; [reflexivity|].
  destruct (negb (ok status)); [reflexivity|].
  destruct data; reflexivity.
Qed.

(** The detail route on a response that is not [ok]. *)
Lemma detail_failure_reported env baseUrl email token key w status text data w' :
  configured env baseUrl email token ->
  fetchIssue (requestOf baseUrl email token key) w
  = (Response status text data, w') ->
  ok status = false ->
  GET env key w
  = ({| httpStatus := 502;
        responseBody :=
          ErrorBody (str "Jira request failed") (Some status) (Some text) |},
     w').
Proof.
  intros Hc Hf Hok. rewrite (detail_configured key w Hc), Hf, Hok. reflexivity.
Qed.

(** The detail route on a successful response. *)
Lemma detail_reply env baseUrl email token key w status text data w' :
  configured env baseUrl email token ->
  fetchIssue (requestOf baseUrl email token key) w
  = (Response status text (inr data), w') ->
  ok status = true ->
  GET env key w
  = ({| httpStatus := 200;
        responseBody :=
          DetailBody (serialise (detail toLowerCase baseUrl data)) |}, w').
Proof.
  intros Hc Hf Hok. rewrite (detail_configured key w Hc), Hf, Hok. reflexivity.
Qed.

End Handler.

(** A property that is set is sent, unless it is [undefined]. *)
Lemma field_serialise k properties v :
  property k properties = Some v ->
  isUndefined v = false ->
  field k (serialise (Obj properties)) = Some (serialise v).
Proof.
  intros Hp Hv. cbn [serialise field].
  induction properties as [|[k' x] rest IH]; [discriminate|].
  cbn [property] in Hp.
  destruct (streq k k') eqn:Ek.
  - injection Hp as ->. rewrite Hv. cbn [property]. now rewrite Ek.
  - destruct (isUndefined x); [now apply IH|].
    cbn [property]. rewrite Ek. now apply IH.
Qed.



(** The attachment proxy on a response that is not [ok]. *)
Lemma proxy_failure_reported World
    (fetchContent : jsstring -> jsstring * jsstring -> World
                    -> fetched AttachmentProxy.payload * World)
    env email token contentUrl filename w status text data w' :
  credentialsSet env email token ->
  contentUrl <> [] ->
  fetchContent contentUrl (email, token) w = (Response status text data, w') ->
  ok status = false ->
  AttachmentProxy.GET fetchContent env (Some contentUrl) filename w
  = (AttachmentProxy.JsonReply
       {| httpStatus := 502;
          responseBody :=
            ErrorBody (str "Attachment fetch failed") (Some status) (Some text) |},
     w').
Proof.
  intros (He & He' & Ht & Ht') Hu Hf Hok.
  unfold AttachmentProxy.GET, bind, mustGetEnv.
  destruct contentUrl as [|c u]; [congruence|].
  rewrite He, Ht.
  destruct email; [congruence|]. destruct token; [congruence|].
  unfold pure at 1 2. rewrite Hf, Hok. reflexivity.
Qed.

(** C8: a response of the tracking service that is not a success ends
    the operation at once with a 502 reply that carries the upstream status
    and the raw body: in the issues route whatever was aggregated before is
    dropped and no further page is requested, in the detail route no detail
    is built, in the attachment proxy no bytes are passed on. *)
Theorem upstream_failure_reported :
  (forall toLowerCase localeCompare World
          (fetchPage : Issues.searchRequest -> World -> fetched Issues.page * World)
          env baseUrl email token w log pages w1 cursor1 status text data w2,
     configured env baseUrl email token ->
     serves fetchPage (searchUrlOf baseUrl) (email, token)
       w None pages w1 cursor1 ->
     (List.length pages < 30)%nat ->
     fetchPage (requestFor (searchUrlOf baseUrl) (email, token) cursor1) w1
     = (Response status text data, w2) ->
     ok status = false ->
     Issues.GET toLowerCase localeCompare fetchPage env (w, log)
     = ({| httpStatus := 502;
           responseBody :=
             ErrorBody (str "Jira request failed") (Some status) (Some text) |},
        (w2, (log ++ requestsOf (searchUrlOf baseUrl) (email, token)
                       None pages)
             ++ [requestFor (searchUrlOf baseUrl) (email, token)
                   cursor1])))
  /\ (forall toLowerCase encodeURIComponent World
            (fetchIssue : issueRequest -> World -> fetched issueData * World)
            env baseUrl email token key w status text data w',
        configured env baseUrl email token ->
        fetchIssue (RouteNotions.requestOf encodeURIComponent baseUrl email token key) w
        = (Response status text data, w') ->
        ok status = false ->
        IssueDetail.GET toLowerCase encodeURIComponent fetchIssue env key w
        = ({| httpStatus := 502;
              responseBody :=
                ErrorBody (str "Jira request failed") (Some status) (Some text) |},
           w'))
  /\ (forall World
            (fetchContent : jsstring -> jsstring * jsstring -> World
                            -> fetched AttachmentProxy.payload * World)
            env email token contentUrl filename w status text data w',
        credentialsSet env email token ->
        contentUrl <> [] ->
        fetchContent contentUrl (email, token) w
        = (Response status text data, w') ->
        ok status = false ->
        AttachmentProxy.GET fetchContent env (Some contentUrl) filename w
        = (AttachmentProxy.JsonReply
             {| httpStatus := 502;
                responseBody :=
                  ErrorBody (str "Attachment fetch failed") (Some status)
                    (Some text) |},
           w')).
Proof.
  split; [|split]; intros.
  - eapply PagingFacts.search_failure_reported; eassumption.
  - eapply detail_failure_reported; eassumption.
  - eapply proxy_failure_reported; eassumption.
Qed.

Lemma one_page_serves :
  serves (Sample.scripted
            [Sample.success (Sample.more [Sample.twice] "p2"); Sample.unavailable])
    Sample.searchUrl Sample.credentials 0%nat None
    [Sample.more [Sample.twice] "p2"] 1%nat (Some (str "p2")).
Proof.
  repeat (eapply serves_cons; [reflexivity|reflexivity|reflexivity|]).
  apply serves_nil.
Defined.

Lemma upstream_failure_reported_witness :
  fst (Issues.GET latinLower Sample.compareUnits
         (Sample.scripted
            [Sample.success (Sample.more [Sample.twice] "p2"); Sample.unavailable])
         Sample.env (0%nat, []))
  = {| httpStatus := 502;
       responseBody :=
         ErrorBody (str "Jira request failed") (Some 503%Z)
           (Some (str "Service Unavailable")) |}
  /\ IssueDetail.GET latinLower (fun s => s) (Sample.scripted [Sample.notFound])
       Sample.env (str "IMOSHELP-1") 0%nat
     = ({| httpStatus := 502;
           responseBody :=
             ErrorBody (str "Jira request failed") (Some 404%Z)
               (Some (str "Issue does not exist")) |}, 1%nat)
  /\ AttachmentProxy.GET (fun _ => Sample.scripted [Sample.gone]) Sample.env
       (Some (str "https://jira.example/attachment/1")) None 0%nat
     = (AttachmentProxy.JsonReply
          {| httpStatus := 502;
             responseBody :=
               ErrorBody (str "Attachment fetch failed") (Some 410%Z)
                 (Some (str "Gone")) |}, 1%nat).
Proof.
  split; [|split].
  - refine (f_equal fst
              (proj1 upstream_failure_reported latinLower Sample.compareUnits nat
                 _ Sample.env _ _ _ 0%nat [] _ _ _ 503%Z _ _ 2%nat
                 PagingFacts.sample_configured one_page_serves _ eq_refl eq_refl)).
    simpl. lia.
  - exact (proj1 (proj2 upstream_failure_reported) latinLower (fun s => s) nat
             (Sample.scripted [Sample.notFound]) Sample.env _ _ _
             (str "IMOSHELP-1") 0%nat 404%Z _ _ 1%nat
             PagingFacts.sample_configured eq_refl eq_refl).
  - refine (proj2 (proj2 upstream_failure_reported) nat
              (fun _ => Sample.scripted [Sample.gone]) Sample.env _ _
              (str "https://jira.example/attachment/1") None 0%nat 410%Z _ _ 1%nat
              (proj2 (proj2 PagingFacts.sample_configured)) _ eq_refl eq_refl).
    discriminate.
Defined.

End DetailFacts.

(* ================================================================== *)
(** * Properties of the group order *)
(* ================================================================== *)

Module OrderFacts.

Import Issues RouteNotions NumberFacts.

(** ** Sorting by insertion *)

Section Sorting.

Variable A : Type.
Variable comparefn : A -> A -> number.

Local Abbreviation after := (sortsAfter comparefn).

Local Abbreviation mayPrecede := (RouteNotions.mayPrecede comparefn).

(** The comparator orders the elements that satisfy [P] consistently. *)
Variable P : A -> Prop.
Hypothesis total : forall x y, P x -> P y -> after x y = true -> after y x = false.
Hypothesis transitive : forall x y z,
  P x -> P y -> P z -> mayPrecede x y -> mayPrecede y z -> mayPrecede x z.

Lemma insert_permutation x l : Permutation (insert comparefn x l) (x :: l).
Proof.
  induction l as [|y l IH]; simpl; [reflexivity|].
  destruct (after x y); [|reflexivity].
  rewrite IH. apply perm_swap.
Qed.

Lemma sort_permutation l : Permutation (sort comparefn l) l.
Proof.
  induction l as [|x l IH]; simpl; [reflexivity|].
  rewrite insert_permutation. now constructor.
Qed.

Lemma insert_sorted x l :
  P x -> Forall P l -> StronglySorted mayPrecede l ->
  StronglySorted mayPrecede (insert comparefn x l).
Proof.
  intros Hx Hl Hs. induction l as [|y l IH]; simpl.
  - repeat constructor.
  - inversion Hl as [|? ? Hy Hl']; subst.
    inversion Hs as [|? ? Hs' Hall]; subst.
    destruct (after x y) eqn:E.
    + constructor; [now apply IH|].
      eapply Permutation_Forall;
        [symmetry; apply insert_permutation|].
      constructor; [now apply total|exact Hall].
    + constructor; [exact Hs|]. constructor; [exact E|].
      rewrite Forall_forall in Hall, Hl' |- *. intros z Hz.
      apply (transitive Hx Hy (Hl' z Hz) E (Hall z Hz)).
Qed.

Lemma sort_sorted l :
  Forall P l -> StronglySorted mayPrecede (sort comparefn l).
Proof.
  induction 1 as [|x l Hx Hl IH]; simpl; [constructor|].
  apply insert_sorted; [exact Hx| |exact IH].
  eapply Permutation_Forall; [symmetry; apply sort_permutation|exact Hl].
Qed.

End Sorting.

Lemma sorted_before {A} (R : A -> A -> Prop) l1 a l2 b l3 :
  StronglySorted R (l1 ++ a :: l2 ++ b :: l3) -> R a b.
Proof.
  induction l1 as [|x l1 IH]; simpl; intros H; inversion H as [|? ? Hs Hall]; subst.
  - rewrite Forall_forall in Hall. apply Hall.
    apply in_or_app. right. left. reflexivity.
  - now apply IH.
Qed.

(** ** The comparator of the groups *)

Section Comparator.

Variable toLowerCase : jsstring -> jsstring.
Variable localeCompare : jsstring -> jsstring -> Z.

Local Abbreviation parse := (parseLtFixVersion toLowerCase).
Local Abbreviation compare := (compareGroups toLowerCase localeCompare).
Local Abbreviation rank := (RouteNotions.rank toLowerCase).
Local Abbreviation tame := (RouteNotions.tame toLowerCase).

(** What a successful parse returns. *)
Lemma parse_Some name p :
  parse name = Some p ->
  isFinite (year p) = true
  /\ ((exists v, month p = MonthNumber (ofZ v)) \/ exists o, month p = MonthObject o).
Proof.
  unfold parseLtFixVersion.
  destruct (_ <? 2)%nat; [discriminate|].
  destruct (isFinite _) eqn:Ef; [|discriminate]. cbn [negb orb].
  destruct (numLt _ _ || numGt _ _); [discriminate|].
  set (found := nullish _ _).
  assert (Hf : forall m, found = Some m ->
                 (exists v, m = MonthNumber (ofZ v)) \/ exists o, m = MonthObject o).
  { intros m. unfold found, nullish, monthProperty.
    repeat match goal with
           | |- context [ownMonth ?t ?k] => destruct (ownMonth t k)
           | |- context [inheritedProperty ?k] => destruct (inheritedProperty k)
           end; intros H; inversion H; eauto. }
  destruct found as [m|]; [|discriminate].
  destruct (monthFalsy m); [discriminate|].
  intros H; injection H as <-. split; [exact Ef|]. now apply Hf.
Qed.

(** The key of a name that parses with a month of the table is a
    number that an order can be read from. *)
Lemma rank_tame g p :
  tame g -> parse (fixVersion g) = Some p ->
  exists k, monthKey p = KeyNumber k /\ rank g = Some k /\ ordered k.
Proof.
  intros Ht Hp. destruct (Ht p Hp) as (m & Hm).
  destruct (parse_Some _ Hp) as (Hf & [(v & Hv)|(o & Ho)]); [|congruence].
  unfold RouteNotions.rank. rewrite Hp. unfold monthKey. rewrite Hv.
  eexists. split; [reflexivity|]. split; [reflexivity|].
  destruct (year p) as [|s|y]; try discriminate.
  unfold numMul, ofZ.
  pose proof (round64_ordered (y * inject_Z 100)) as Ho.
  destruct (round64 (y * inject_Z 100)) as [|s|x]; [contradiction|exact I|].
  apply round64_ordered.
Qed.

Lemma rank_None g : parse (fixVersion g) = None -> rank g = None.
Proof. unfold RouteNotions.rank. now intros ->. Qed.

Lemma gt0_ofZ z : numGt (ofZ z) (ofZ 0) = (0 <? z)%Z.
Proof.
  unfold ofZ, numGt, numLt, Qle_bool, inject_Z. simpl.
  rewrite Z.mul_1_r. destruct (Z.ltb_spec 0 z), (Z.leb_spec z 0); simpl; lia.
Qed.

(** Whether [a] must go after [b], by their ranks. *)
Lemma sortsAfter_rank a b :
  tame a -> tame b ->
  sortsAfter compare a b =
    match rank a, rank b with
    | Some ka, Some kb => numLt ka kb
    | None, Some _ => true
    | Some _, None => false
    | None, None => (0 <? localeCompare (fixVersion a) (fixVersion b))%Z
    end.
Proof.
  intros Ha Hb. unfold sortsAfter, compareGroups.
  destruct (parse (fixVersion a)) as [pa|] eqn:Ea;
    destruct (parse (fixVersion b)) as [pb|] eqn:Eb.
  - destruct (rank_tame Ha Ea) as (ka & Ka & Ra & Oa).
    destruct (rank_tame Hb Eb) as (kb & Kb & Rb & Ob).
    rewrite Ka, Kb, Ra, Rb. cbn [keyDifference].
    now apply difference_sign.
  - destruct (rank_tame Ha Ea) as (ka & Ka & Ra & Oa).
    rewrite Ra, (rank_None _ Eb). reflexivity.
  - destruct (rank_tame Hb Eb) as (kb & Kb & Rb & Ob).
    rewrite Rb, (rank_None _ Ea). reflexivity.
  - rewrite (rank_None _ Ea), (rank_None _ Eb). apply gt0_ofZ.
Qed.

Lemma rank_ordered g k : tame g -> rank g = Some k -> ordered k.
Proof.
  intros Ht. unfold RouteNotions.rank.
  destruct (parse (fixVersion g)) as [p|] eqn:Ep; [|discriminate].
  destruct (rank_tame Ht Ep) as (k' & Kk & _ & Ok). rewrite Kk.
  now intros H; injection H as <-.
Qed.

Hypothesis orders : consistent localeCompare.

Lemma compare_total a b :
  tame a -> tame b ->
  sortsAfter compare a b = true -> sortsAfter compare b a = false.
Proof.
  intros Ha Hb. rewrite (sortsAfter_rank Ha Hb), (sortsAfter_rank Hb Ha).
  destruct (rank a) as [ka|], (rank b) as [kb|]; try congruence.
  - apply numLt_asym.
  - intros H. apply Z.ltb_lt in H. apply (proj1 orders) in H.
    apply Z.ltb_ge. exact H.
Qed.

Lemma compare_transitive a b c :
  tame a -> tame b -> tame c ->
  mayPrecede compare a b -> mayPrecede compare b c -> mayPrecede compare a c.
Proof.
  intros Ha Hb Hc. unfold mayPrecede.
  rewrite (sortsAfter_rank Ha Hb), (sortsAfter_rank Hb Hc),
    (sortsAfter_rank Ha Hc).
  destruct (rank a) as [ka|] eqn:Ra, (rank b) as [kb|] eqn:Rb,
    (rank c) as [kc|] eqn:Rc; try congruence.
  - pose proof (rank_ordered Ha Ra) as Oa.
    pose proof (rank_ordered Hb Rb) as Ob.
    pose proof (rank_ordered Hc Rc) as Oc.
    intros H1 H2.
    pose proof (numGe_trans ka kb kc) as T.
    rewrite !numGe_not_lt in T by assumption.
    rewrite H1, H2 in T. specialize (T eq_refl eq_refl).
    now apply negb_true_iff in T.
  - intros H1 H2. apply Z.ltb_ge in H1, H2. apply Z.ltb_ge.
    exact (proj2 orders _ _ _ H1 H2).
Qed.

(** X1: when no name meets an inherited member and the names are
    compared consistently, the groups come out in the order the handler aims
    at: parsed names by descending key, then the other names in the order
    of their comparison. *)
Theorem groups_sorted groupsMap :
  Forall tame (mapValues groupsMap) ->
  let out := sortGroups toLowerCase localeCompare groupsMap in
  Permutation out (mapValues groupsMap)
  /\ forall before a between b after,
       out = before ++ a :: between ++ b :: after ->
       (forall pa pb,
          parse (fixVersion a) = Some pa -> parse (fixVersion b) = Some pb ->
          exists ka kb,
            monthKey pa = KeyNumber ka /\ monthKey pb = KeyNumber kb
            /\ numGe ka kb = true)
       /\ (parse (fixVersion a) = None -> parse (fixVersion b) = None)
       /\ (parse (fixVersion a) = None -> parse (fixVersion b) = None ->
           (localeCompare (fixVersion a) (fixVersion b) <= 0)%Z).
Proof.
  intros Ht out.
  assert (Hperm : Permutation out (mapValues groupsMap))
    by apply sort_permutation.
  split; [exact Hperm|].
  intros before a between b after E.
  assert (Hall : Forall tame out)
    by (eapply Permutation_Forall; [symmetry; exact Hperm|exact Ht]).
  assert (Hs : StronglySorted (mayPrecede compare) out)
    by (apply (sort_sorted compare_total compare_transitive); exact Ht).
  rewrite E in Hs, Hall. apply sorted_before in Hs.
  rewrite Forall_forall in Hall.
  assert (Ha : tame a) by (apply Hall, in_or_app; right; left; reflexivity).
  assert (Hb : tame b).
  { apply Hall, in_or_app. right. right. apply in_or_app. right. left.
    reflexivity. }
  unfold RouteNotions.mayPrecede in Hs. rewrite (sortsAfter_rank Ha Hb) in Hs.
  repeat split.
  - intros pa pb Ea Eb.
    destruct (rank_tame Ha Ea) as (ka & Ka & Ra & Oa).
    destruct (rank_tame Hb Eb) as (kb & Kb & Rb & Ob).
    exists ka, kb. repeat split; try assumption.
    rewrite Ra, Rb in Hs. rewrite numGe_not_lt by assumption. now rewrite Hs.
  - intros Ea. rewrite (rank_None _ Ea) in Hs.
    destruct (parse (fixVersion b)) as [pb|] eqn:Eb; [|reflexivity].
    destruct (rank_tame Hb Eb) as (kb & Kb & Rb & Ob).
    rewrite Rb in Hs. discriminate.
  - intros Ea Eb. rewrite (rank_None _ Ea), (rank_None _ Eb) in Hs.
    now apply Z.ltb_ge in Hs.
Qed.

End Comparator.

(** ** Worked examples *)

Example key_sausis :
  option_map monthKey (parseLtFixVersion latinLower (str "2024 Sausis"))
  = Some (KeyNumber (Finite (202401 # 1))).
Proof. vm_compute. reflexivity. Qed.

Example key_vasaris :
  option_map monthKey (parseLtFixVersion latinLower (str "2024 vasaris"))
  = Some (KeyNumber (Finite (202402 # 1))).
Proof. vm_compute. reflexivity. Qed.

Example newest_first :
  List.map fixVersion
    (sortGroups latinLower Sample.compareUnits
       (groupIssues Sample.baseUrl Sample.mixed))
  = [str "2025 Sausis"; str "2024 vasaris"; str "2024 Sausis";
     str "Archive"; str "Backlog"].
Proof. vm_compute. reflexivity. Qed.

(** The order by code units is a consistent comparison. *)
Lemma compareUnits_consistent : consistent Sample.compareUnits.
Proof.
  split.
  - intros a. induction a as [|x a IH]; intros [|y b]; simpl; try lia.
    rewrite (N.compare_antisym x y).
    destruct (N.compare x y); simpl; try lia. apply IH.
  - intros a. induction a as [|x a IH]; intros [|y b] [|z c]; simpl; try lia.
    destruct (N.compare_spec x y), (N.compare_spec y z), (N.compare_spec x z);
      subst; try lia. apply IH.
Qed.

Lemma mixed_tame :
  Forall (tame latinLower)
    (mapValues (groupIssues Sample.baseUrl Sample.mixed)).
Proof.
  repeat constructor; intros p H; vm_compute in H;
    try discriminate; injection H as <-; eexists; reflexivity.
Qed.

(** The hypotheses of [groups_sorted] hold of the sample. *)
Lemma groups_sorted_witness :
  Permutation
    (sortGroups latinLower Sample.compareUnits
       (groupIssues Sample.baseUrl Sample.mixed))
    (mapValues (groupIssues Sample.baseUrl Sample.mixed)).
Proof.
  exact (proj1 (groups_sorted compareUnits_consistent _ mixed_tame)).
Defined.

(** The whole handler on the record [Sample.odd]. *)
Example odd_reply :
  fst (Issues.GET latinLower Sample.compareUnits
         (Sample.scripted [Sample.success (Sample.last [Sample.odd])])
         Sample.env (0%nat, []))
  = {| httpStatus := 200;
       responseBody :=
         GroupsBody 1
           [ {| fixVersion := str "2024 constructor"; released := None;
                issues := [trimIssue Sample.baseUrl Sample.odd] |};
             {| fixVersion := str "2024 sausis"; released := None;
                issues := [trimIssue Sample.baseUrl Sample.odd] |} ] |}.
Proof. vm_compute. reflexivity. Qed.

End OrderFacts.

(* ================================================================== *)
(** * Settings, rejections and the requests sent *)
(* ================================================================== *)

Module ReplyFacts.

Import Issues RouteNotions ReplyNotions.

(** ** Missing settings *)

Lemma unset_false env name :
  unset env name = false -> exists v, env (str name) = Some v /\ v <> [].
Proof.
  unfold unset. destruct (env (str name)) as [[|c v]|]; try discriminate.
  intros _. eexists; split; [reflexivity|discriminate].
Qed.

Lemma mustGetEnv_unset S env name (s : S) :
  unset env name = true ->
  mustGetEnv env name s = (Throw (str "Missing env var: " ++ str name), s).
Proof.
  unfold unset, mustGetEnv. destruct (env (str name)) as [[|c v]|];
    try discriminate; reflexivity.
Qed.

Lemma mustGetEnv_set S env name v (s : S) :
  env (str name) = Some v -> v <> [] -> mustGetEnv env name s = (Value v, s).
Proof.
  unfold mustGetEnv. intros -> Hv. destruct v; [congruence|reflexivity].
Qed.

(** X3: when one of the three settings is unset or empty, the issues
    handler and the detail handler reply with status 500, the error
    [Server error] and the details [Missing env var: NAME] for the first
    such setting in the order base address, e-mail address, token; they
    send no request. *)
Theorem missing_setting_reported
    toLowerCase localeCompare encodeURIComponent
    (World : Type)
    (fetchPage : searchRequest -> World -> fetched page * World)
    (fetchIssue : IssueDetail.issueRequest -> World
                  -> fetched IssueDetail.issueData * World)
    env name :
  find (unset env) settings = Some name ->
  (forall s,
     Issues.GET toLowerCase localeCompare fetchPage env s = (missing name, s))
  /\ (forall key w,
        IssueDetail.GET toLowerCase encodeURIComponent fetchIssue env key w
        = (missing name, w)).
Proof.
  unfold settings. cbn [find]. intros H.
  destruct (unset env "JIRA_BASE_URL") eqn:Hb.
  { injection H as <-. split; intros;
      unfold Issues.GET, IssueDetail.GET, tryCatch, bind;
      rewrite (mustGetEnv_unset _ _ _ Hb); reflexivity. }
  destruct (unset_false _ _ Hb) as (b & Eb & Nb).
  destruct (unset env "JIRA_EMAIL") eqn:He.
  { injection H as <-. split; intros;
      unfold Issues.GET, IssueDetail.GET, tryCatch, bind;
      rewrite (mustGetEnv_set _ _ _ Eb Nb), (mustGetEnv_unset _ _ _ He);
      reflexivity. }
  destruct (unset_false _ _ He) as (e & Ee & Ne).
  destruct (unset env "JIRA_API_TOKEN") eqn:Ht; [|discriminate].
  injection H as <-. split; intros;
    unfold Issues.GET, IssueDetail.GET, tryCatch, bind;
    rewrite (mustGetEnv_set _ _ _ Eb Nb), (mustGetEnv_set _ _ _ Ee Ne),
      (mustGetEnv_unset _ _ _ Ht); reflexivity.
Qed.

Lemma missing_setting_reported_witness :
  Issues.GET latinLower Sample.compareUnits Sample.endless
    MoreSamples.halfSet (0%nat, [])
  = (missing "JIRA_EMAIL", (0%nat, [])).
Proof.
  exact (proj1 (@missing_setting_reported latinLower Sample.compareUnits
                  (fun s => s) nat Sample.endless MoreSamples.silent
                  MoreSamples.halfSet "JIRA_EMAIL" eq_refl) (0%nat, [])).
Defined.

(** ** The attachment proxy *)

(** X4: the proxy checks its [contentUrl] parameter before anything
    else: when the parameter is missing or empty the reply is status 400
    with the error [Missing contentUrl], whatever the settings are; when it
    is given and a credential is unset or empty, the reply is status 500
    naming the first such credential.  Nothing is fetched in either case. *)
Theorem proxy_refusals
    (World : Type)
    (fetchContent : jsstring -> jsstring * jsstring -> World
                    -> fetched AttachmentProxy.payload * World)
    env filename w :
  (forall contentUrl,
     contentUrl = None \/ contentUrl = Some [] ->
     AttachmentProxy.GET fetchContent env contentUrl filename w
     = (AttachmentProxy.JsonReply missingContentUrl, w))
  /\ (forall contentUrl name,
        contentUrl <> [] ->
        find (unset env) credentialNames = Some name ->
        AttachmentProxy.GET fetchContent env (Some contentUrl) filename w
        = (AttachmentProxy.JsonReply (missing name), w)).
Proof.
  split.
  - intros contentUrl [->| ->]; reflexivity.
  - intros [|c contentUrl] name Hc; [congruence|].
    unfold credentialNames. cbn [find]. intros H.
    unfold AttachmentProxy.GET, bind.
    destruct (unset env "JIRA_EMAIL") eqn:He.
    { injection H as <-. rewrite (mustGetEnv_unset _ _ _ He). reflexivity. }
    destruct (unset_false _ _ He) as (e & Ee & Ne).
    destruct (unset env "JIRA_API_TOKEN") eqn:Ht; [|discriminate].
    injection H as <-.
    rewrite (mustGetEnv_set _ _ _ Ee Ne), (mustGetEnv_unset _ _ _ Ht).
    reflexivity.
Qed.

Lemma proxy_refusals_witness :
  AttachmentProxy.GET (fun _ => MoreSamples.silent) MoreSamples.bare
    (Some []) (Some (str "a.png")) 0%nat
  = (AttachmentProxy.JsonReply missingContentUrl, 0%nat).
Proof.
  exact (proj1 (@proxy_refusals nat (fun _ => MoreSamples.silent)
                  MoreSamples.bare (Some (str "a.png")) 0%nat)
           (Some []) (or_intror eq_refl)).
Defined.

Lemma stripQuotes_free s : ~ In 34%N (AttachmentProxy.stripQuotes s).
Proof.
  unfold AttachmentProxy.stripQuotes. rewrite filter_In.
  intros [_ H]. discriminate.
Qed.

Lemma stripQuotes_same s : ~ In 34%N s -> AttachmentProxy.stripQuotes s = s.
Proof.
  unfold AttachmentProxy.stripQuotes.
  induction s as [|c s IH]; simpl; intros H; [reflexivity|].
  destruct (N.eqb_spec c 34) as [->|Hc]; [tauto|].
  simpl. f_equal. apply IH. tauto.
Qed.

(** X5: with both credentials set, a [contentUrl] and an [ok] answer,
    the proxy fetches the address it was given with these credentials and
    replies with the bytes it received, unchanged; the content type is
    the one received, or [application/octet-stream] when none came; the
    disposition is [inline; filename=] followed by the file name between
    two double quotes, [attachment] when no name was given.  No double
    quote of the name itself gets into the header, and a name without
    double quotes is passed as it is.  This is for a file name a header
    can carry: bytes only, without NUL, line feed and carriage return. *)
Theorem proxy_passes_content
    (World : Type)
    (fetchContent : jsstring -> jsstring * jsstring -> World
                    -> fetched AttachmentProxy.payload * World)
    env email token contentUrl filename w status text p w' :
  credentialsSet env email token ->
  contentUrl <> [] ->
  fetchContent contentUrl (email, token) w = (Response status text (inr p), w') ->
  ok status = true ->
  let name := orElse filename (str "attachment") in
  let type :=
    orElse (AttachmentProxy.contentType p) (str "application/octet-stream") in
  headerSafe name = true ->
  headerSafe type = true ->
  AttachmentProxy.GET fetchContent env (Some contentUrl) filename w
  = (AttachmentProxy.BytesReply type
       (str "inline; filename=" ++ [34%N]
        ++ AttachmentProxy.stripQuotes name ++ [34%N])
       (AttachmentProxy.bytes p), w')
  /\ ~ In 34%N (AttachmentProxy.stripQuotes name)
  /\ (~ In 34%N name -> AttachmentProxy.stripQuotes name = name).
Proof.
  intros (He & Ne & Ht & Nt) Hc Hf Hok name type _ _. split; [|split].
  - destruct contentUrl as [|c contentUrl]; [congruence|].
    unfold AttachmentProxy.GET, bind.
    rewrite (mustGetEnv_set _ _ _ He Ne), (mustGetEnv_set _ _ _ Ht Nt).
    rewrite Hf, Hok. reflexivity.
  - apply stripQuotes_free.
  - apply stripQuotes_same.
Qed.

Lemma credentials_sample :
  credentialsSet Sample.env (fst Sample.credentials) (snd Sample.credentials).
Proof. repeat split; discriminate. Defined.

Lemma proxy_passes_content_witness :
  AttachmentProxy.GET
    (fun _ => Sample.scripted [Sample.success MoreSamples.png]) Sample.env
    (Some (str "https://jira.example/attachment/1"))
    (Some (str "a" ++ [34%N] ++ str ".png")) 0%nat
  = (AttachmentProxy.BytesReply (str "image/png")
       (str "inline; filename=" ++ [34%N] ++ str "a.png" ++ [34%N])
       [137; 80; 78; 71]%N, 1%nat).
Proof.
  refine (proj1 (@proxy_passes_content nat
                   (fun _ => Sample.scripted [Sample.success MoreSamples.png])
                   Sample.env _ _ (str "https://jira.example/attachment/1")
                   (Some (str "a" ++ [34%N] ++ str ".png")) 0%nat
                   200%Z (str "{}") MoreSamples.png 1%nat
                   credentials_sample _ eq_refl eq_refl eq_refl eq_refl)).
  discriminate.
Defined.

(** ** Rejections *)

Section Loop.

Variable World : Type.
Variable fetchPage : searchRequest -> World -> fetched page * World.
Variable url : jsstring.
Variable credentials : jsstring * jsstring.

Local Abbreviation loop := (fetchPages fetchPage).
Local Abbreviation request := (requestFor url credentials).

Lemma loop_throws w cursor pages w1 cursor1 r message w2 k acc log :
  serves fetchPage url credentials w cursor pages w1 cursor1 ->
  fetchPage (request cursor1) w1 = (r, w2) ->
  rejected r = Some message ->
  loop (List.length pages + S k) url credentials cursor acc (w, log)
  = (Throw message,
     (w2, (log ++ requestsOf url credentials cursor pages)
          ++ [request cursor1])).
Proof.
  intros Hs Hf Hr.
  rewrite (PagingFacts.loop_serves Hs), PagingFacts.loop_step, Hf.
  destruct r as [m|status text [m|p]]; simpl in Hr.
  - now injection Hr as ->.
  - destruct (ok status); [|discriminate]. now injection Hr as ->.
  - discriminate.
Qed.

(** What the loop adds to the log of requests. *)
Lemma loop_requests remaining : forall cursor acc s,
  exists new,
    snd (snd (loop remaining url credentials cursor acc s)) = snd s ++ new
    /\ (List.length new <= remaining)%nat
    /\ match new with
       | [] => remaining = 0%nat
       | q :: rest => q = request cursor /\ Forall (followUp url credentials) rest
       end.
Proof.
  induction remaining as [|remaining IH]; intros cursor acc [w log].
  - exists []. simpl. now rewrite app_nil_r.
  - rewrite PagingFacts.loop_step.
    destruct (fetchPage (request cursor) w) as [[message|status text data] w'].
    + exists [request cursor]. cbn [snd List.length]. repeat split; auto; lia.
    + destruct (negb (ok status)).
      * exists [request cursor]. cbn [snd List.length]. repeat split; auto; lia.
      * destruct data as [message|p].
        -- exists [request cursor]. cbn [snd List.length].
           repeat split; auto; lia.
        -- destruct (continues p) eqn:Hc.
           ++ destruct (IH (nextPageToken p) (acc ++ issuesOf p)
                           (w', log ++ [request cursor]))
                as (new & E & Hl & Hn).
              exists (request cursor :: new). rewrite E. cbn [snd List.length].
              rewrite <- app_assoc. repeat split; auto; [lia|].
              destruct new as [|q rest]; [constructor|].
              destruct Hn as [-> Hrest]. constructor; [|exact Hrest].
              unfold continues in Hc.
              destruct (nextPageToken p) as [[|c t]|];
                try (rewrite orb_true_r in Hc; discriminate).
              repeat split. exists (c :: t). split; [reflexivity|discriminate].
           ++ exists [request cursor]. cbn [snd List.length].
              repeat split; auto; lia.
Qed.

End Loop.

(** X6: when the upstream call rejects, or answers [ok] with a body
    that is no JSON, the handler replies with status 500, the error
    [Server error] and the message of the rejection as details.  In the
    issues handler this holds on any page: the pages received before are
    dropped. *)
Theorem rejection_reported :
  (forall toLowerCase localeCompare (World : Type)
          (fetchPage : searchRequest -> World -> fetched page * World)
          env baseUrl email token w log pages w1 cursor1 r message w2,
     configured env baseUrl email token ->
     serves fetchPage (searchUrlOf baseUrl) (email, token)
       w None pages w1 cursor1 ->
     (List.length pages < 30)%nat ->
     fetchPage (requestFor (searchUrlOf baseUrl) (email, token) cursor1) w1
     = (r, w2) ->
     rejected r = Some message ->
     Issues.GET toLowerCase localeCompare fetchPage env (w, log)
     = (serverError message,
        (w2, (log ++ requestsOf (searchUrlOf baseUrl) (email, token) None pages)
             ++ [requestFor (searchUrlOf baseUrl) (email, token) cursor1])))
  /\ (forall toLowerCase encodeURIComponent (World : Type)
            (fetchIssue : IssueDetail.issueRequest -> World
                          -> fetched IssueDetail.issueData * World)
            env baseUrl email token key w r message w',
        configured env baseUrl email token ->
        fetchIssue (requestOf encodeURIComponent baseUrl email token key) w
        = (r, w') ->
        rejected r = Some message ->
        IssueDetail.GET toLowerCase encodeURIComponent fetchIssue env key w
        = (serverError message, w')).
Proof.
  split.
  - intros toLowerCase localeCompare World fetchPage env baseUrl email token
      w log pages w1 cursor1 r message w2 Hc Hs Hl Hf Hr.
    rewrite (PagingFacts.search_configured toLowerCase localeCompare fetchPage
               (w, log) Hc).
    replace 30%nat with (List.length pages + S (29 - List.length pages))%nat by lia.
    rewrite (loop_throws _ _ _ Hs Hf Hr). reflexivity.
  - intros toLowerCase encodeURIComponent World fetchIssue env baseUrl email
      token key w r message w' Hc Hf Hr.
    rewrite (DetailFacts.detail_configured toLowerCase encodeURIComponent
               fetchIssue key w Hc), Hf.
    destruct r as [m|status text [m|p]]; simpl in Hr.
    + now injection Hr as ->.
    + destruct (ok status); [|discriminate]. now injection Hr as ->.
    + discriminate.
Qed.

Lemma rejection_reported_witness :
  Issues.GET latinLower Sample.compareUnits
    (Sample.scripted [Sample.success (Sample.more [Sample.twice] "p2")])
    Sample.env (0%nat, [])
  = (serverError (str "connection refused"),
     (2%nat,
      [ requestFor Sample.searchUrl Sample.credentials None;
        requestFor Sample.searchUrl Sample.credentials (Some (str "p2")) ])).
Proof.
  refine (proj1 rejection_reported latinLower Sample.compareUnits nat
            (Sample.scripted [Sample.success (Sample.more [Sample.twice] "p2")])
            Sample.env _ _ _ 0%nat [] [Sample.more [Sample.twice] "p2"]
            1%nat (Some (str "p2")) (NetworkError (str "connection refused"))
            (str "connection refused") 2%nat
            PagingFacts.sample_configured _ _ eq_refl eq_refl).
  - eapply serves_cons; [reflexivity|reflexivity|reflexivity|apply serves_nil].
  - simpl. lia.
Defined.

(** ** The requests sent *)

(** X7: with its settings in place the issues handler sends at least
    one and at most 30 requests, all of them to the search address under
    the configured base address and with the configured credentials; the
    first carries no cursor and every later one carries a cursor that is
    not empty.  This holds whatever the service answers. *)
Theorem requests_well_formed
    toLowerCase localeCompare (World : Type)
    (fetchPage : searchRequest -> World -> fetched page * World)
    env baseUrl email token s :
  configured env baseUrl email token ->
  exists rest,
    snd (snd (Issues.GET toLowerCase localeCompare fetchPage env s))
    = snd s ++ opening (searchUrlOf baseUrl) (email, token) :: rest
    /\ Forall (followUp (searchUrlOf baseUrl) (email, token)) rest
    /\ (List.length rest < 30)%nat.
Proof.
  intros Hc.
  rewrite (PagingFacts.search_configured toLowerCase localeCompare fetchPage
             s Hc), PagingFacts.conclude_state.
  destruct (loop_requests fetchPage (searchUrlOf baseUrl) (email, token)
              30 None [] s) as (new & E & Hl & Hn).
  destruct new as [|q rest]; [discriminate|].
  destruct Hn as [-> Hrest]. exists rest. simpl in Hl.
  repeat split; [exact E|exact Hrest|lia].
Qed.

Lemma requests_well_formed_witness :
  exists rest,
    snd (snd (Issues.GET latinLower Sample.compareUnits Sample.endless
                Sample.env (0%nat, [])))
    = [] ++ opening Sample.searchUrl Sample.credentials :: rest
    /\ Forall (followUp Sample.searchUrl Sample.credentials) rest
    /\ (List.length rest < 30)%nat.
Proof.
  exact (@requests_well_formed latinLower Sample.compareUnits nat
           Sample.endless Sample.env _ _ _ (0%nat, [])
           PagingFacts.sample_configured).
Defined.

End ReplyFacts.

(* ================================================================== *)
(** * The groups before they are sorted *)
(* ================================================================== *)

Module GroupShapeFacts.

Import Issues RouteNotions GroupNotions GroupingFacts.

(** ** Keys of a map *)

Lemma mapGet_keys {V} k (m : jsmap V) :
  existsb (streq k) (keys m) = mapHas k m.
Proof.
  unfold mapHas. induction m as [|[k1 v1] m IH]; simpl; [reflexivity|].
  destruct (streq k k1); [reflexivity|exact IH].
Qed.

Lemma mapHas_false {V} k (m : jsmap V) : mapHas k m = false <-> mapGet k m = None.
Proof. unfold mapHas. destruct (mapGet k m); split; congruence. Qed.

Lemma mapSet_new {V} k (v : V) m :
  mapGet k m = None -> mapSet k v m = m ++ [(k, v)].
Proof.
  induction m as [|[k1 v1] m IH]; simpl; [reflexivity|].
  destruct (streq k k1); [discriminate|]. intros H. now rewrite IH.
Qed.

Lemma mapAdjust_last {V} (f : V -> V) k v m :
  mapGet k m = None -> mapAdjust f k (m ++ [(k, v)]) = m ++ [(k, f v)].
Proof.
  induction m as [|[k1 v1] m IH]; simpl.
  - now rewrite streq_refl.
  - destruct (streq k k1); [discriminate|]. intros H. now rewrite IH.
Qed.

Lemma keys_mapAdjust {V} (f : V -> V) k m : keys (mapAdjust f k m) = keys m.
Proof.
  unfold keys. induction m as [|[k1 v1] m IH]; simpl; [reflexivity|].
  destruct (streq k k1); simpl; [reflexivity|now rewrite IH].
Qed.

(** ** One release entry of one record *)

Section Step.

Variable issue : trimmedIssue.

Lemma step_unnamed seen m fv :
  names [fv] = [] -> addFixVersion issue (seen, m) fv = (seen, m).
Proof.
  unfold names, addFixVersion. simpl.
  destruct (versionName fv) as [[|c nm]|]; try reflexivity. discriminate.
Qed.

Lemma step_seen seen m fv nm :
  names [fv] = [nm] -> existsb (streq nm) seen = true ->
  addFixVersion issue (seen, m) fv = (seen, m).
Proof.
  unfold names, addFixVersion. simpl.
  destruct (versionName fv) as [[|c n]|]; try discriminate.
  intros H; injection H as <-. now intros ->.
Qed.

Lemma step_old seen m fv nm :
  names [fv] = [nm] -> existsb (streq nm) seen = false ->
  mapHas nm m = true ->
  addFixVersion issue (seen, m) fv
  = (nm :: seen, mapAdjust (joined issue) nm m).
Proof.
  unfold names, addFixVersion. simpl.
  destruct (versionName fv) as [[|c n]|]; try discriminate.
  intros H; injection H as <-. intros -> ->. reflexivity.
Qed.

Lemma step_new seen m fv nm :
  names [fv] = [nm] -> existsb (streq nm) seen = false ->
  mapHas nm m = false ->
  addFixVersion issue (seen, m) fv
  = (nm :: seen, m ++ [(nm, opened nm fv issue)]).
Proof.
  unfold names, addFixVersion. simpl.
  destruct (versionName fv) as [[|c n]|]; try discriminate.
  intros H; injection H as <-. intros -> Hm. rewrite Hm. cbn [negb].
  apply mapHas_false in Hm. rewrite mapSet_new by exact Hm.
  f_equal. now rewrite mapAdjust_last.
Qed.

Lemma names_one fv : names [fv] = [] \/ exists nm, names [fv] = [nm].
Proof.
  unfold names. simpl. destruct (versionName fv) as [[|c n]|];
    [left; reflexivity|right; eexists; reflexivity|left; reflexivity].
Qed.

Lemma names_cons fv fvs : names (fv :: fvs) = names [fv] ++ names fvs.
Proof. unfold names. simpl. now rewrite app_nil_r. Qed.

Lemma mentions_named fv nm n : names [fv] = [nm] -> mentions n fv = streq n nm.
Proof.
  unfold names, mentions. simpl.
  destruct (versionName fv) as [[|c m]|]; try discriminate.
  now intros H; injection H as <-.
Qed.

Lemma mentions_unnamed fv n : names [fv] = [] -> mentions n fv = false.
Proof.
  unfold names, mentions. simpl.
  destruct (versionName fv) as [[|c m]|]; try discriminate; reflexivity.
Qed.

End Step.

(** ** First mentions *)

Lemma firstMentions_ext A B l :
  (forall x, existsb (streq x) A = existsb (streq x) B) ->
  firstMentions A l = firstMentions B l.
Proof.
  revert A B; induction l as [|n l IH]; intros A B H; simpl; [reflexivity|].
  rewrite <- H. destruct (existsb (streq n) A).
  - now apply IH.
  - f_equal. apply IH. intros x. simpl. now rewrite H.
Qed.

Lemma firstMentions_app S a b :
  firstMentions S (a ++ b)
  = firstMentions S a ++ firstMentions (S ++ firstMentions S a) b.
Proof.
  revert S; induction a as [|n a IH]; intros S; simpl.
  - now rewrite app_nil_r.
  - destruct (existsb (streq n) S) eqn:Hn.
    + apply IH.
    + simpl. f_equal. rewrite IH. f_equal. apply firstMentions_ext.
      intros x. simpl. rewrite !existsb_app. simpl.
      destruct (streq x n), (existsb (streq x) S); reflexivity.
Qed.

Lemma firstMentions_fresh S l x :
  In x (firstMentions S l) -> existsb (streq x) S = false.
Proof.
  revert S; induction l as [|n l IH]; intros S; simpl; [tauto|].
  destruct (existsb (streq n) S) eqn:Hn.
  - apply IH.
  - intros [<-|H]; [exact Hn|].
    apply IH in H. simpl in H. now apply orb_false_iff in H.
Qed.

Lemma firstMentions_NoDup S l : NoDup (firstMentions S l).
Proof.
  revert S; induction l as [|n l IH]; intros S; simpl; [constructor|].
  destruct (existsb (streq n) S); [apply IH|].
  constructor; [|apply IH].
  intros H. apply firstMentions_fresh in H. simpl in H.
  now rewrite streq_refl in H.
Qed.

(** ** The keys the loops build *)

Lemma inner_keys issue fvs : forall seen m,
  keys (snd (fold_left (addFixVersion issue) fvs (seen, m)))
  = keys m ++ firstMentions (seen ++ keys m) (names fvs).
Proof.
  induction fvs as [|fv fvs IH]; intros seen m.
  - simpl. now rewrite app_nil_r.
  - cbn [fold_left]. rewrite names_cons.
    destruct (names_one fv) as [E|(nm & E)].
    { rewrite (step_unnamed issue seen m fv E), E. apply IH. }
    rewrite E. cbn [app firstMentions]. rewrite existsb_app, mapGet_keys.
    destruct (existsb (streq nm) seen) eqn:Hs.
    { rewrite (step_seen issue seen m fv E Hs). apply IH. }
    destruct (mapHas nm m) eqn:Hm; cbn [orb].
    + rewrite (step_old issue seen m fv E Hs Hm), IH, keys_mapAdjust.
      f_equal. apply firstMentions_ext. intros x. simpl.
      rewrite !existsb_app, !mapGet_keys.
      destruct (streq_spec x nm) as [->|_]; [|reflexivity].
      rewrite Hm. now rewrite orb_true_r.
    + rewrite (step_new issue seen m fv E Hs Hm), IH.
      unfold keys at 1 2. rewrite !map_app. cbn [List.map fst].
      fold (keys m). rewrite <- app_assoc. cbn [app]. do 2 f_equal.
      apply firstMentions_ext. intros x. simpl.
      rewrite !existsb_app. simpl.
      destruct (streq x nm), (existsb (streq x) seen),
        (existsb (streq x) (keys m)); reflexivity.
Qed.

Lemma outer_keys baseUrl all : forall m,
  keys (fold_left (addIssue baseUrl) all m)
  = keys m ++ firstMentions (keys m) (flat_map namesOf all).
Proof.
  induction all as [|raw all IH]; intros m.
  - simpl. now rewrite app_nil_r.
  - cbn [fold_left flat_map]. rewrite IH. unfold addIssue at 1 2.
    rewrite inner_keys. cbn [app]. fold (namesOf raw).
    rewrite firstMentions_app, app_assoc. reflexivity.
Qed.

(** ** What every group satisfies *)

Lemma Forall_mapAdjust (P : jsstring * group -> Prop) f k m :
  (forall g, P (k, g) -> P (k, f g)) ->
  Forall P m -> Forall P (mapAdjust f k m).
Proof.
  intros Hf. induction 1 as [|[k1 g1] m H1 H IH]; simpl; [constructor|].
  destruct (streq_spec k k1) as [->|_]; constructor; auto.
Qed.

Lemma inner_shape (P : jsstring * group -> Prop) issue :
  (forall nm fv, nm <> [] -> P (nm, opened nm fv issue)) ->
  (forall nm g, P (nm, g) -> P (nm, joined issue g)) ->
  forall fvs seen (m : jsmap group),
    Forall P m ->
    Forall P (snd (fold_left (addFixVersion issue) fvs (seen, m))).
Proof.
  intros Hopen Hjoin. induction fvs as [|fv fvs IH]; intros seen m Hm;
    [exact Hm|].
  cbn [fold_left].
  destruct (names_one fv) as [E|(nm & E)].
  { rewrite (step_unnamed issue seen m fv E). now apply IH. }
  destruct (existsb (streq nm) seen) eqn:Hs.
  { rewrite (step_seen issue seen m fv E Hs). now apply IH. }
  destruct (mapHas nm m) eqn:Hh.
  - rewrite (step_old issue seen m fv E Hs Hh). apply IH.
    apply Forall_mapAdjust; [apply Hjoin|exact Hm].
  - rewrite (step_new issue seen m fv E Hs Hh). apply IH.
    apply Forall_app. split; [exact Hm|]. constructor; [|constructor].
    apply Hopen. unfold names in E. simpl in E.
    destruct (versionName fv) as [[|c n]|]; try discriminate.
    injection E as <-. discriminate.
Qed.

Lemma groups_shape (P : jsstring * group -> Prop) :
  (forall nm fv issue, nm <> [] -> P (nm, opened nm fv issue)) ->
  (forall nm issue g, P (nm, g) -> P (nm, joined issue g)) ->
  forall baseUrl all, Forall P (groupIssues baseUrl all).
Proof.
  intros Hopen Hjoin baseUrl all. unfold groupIssues.
  assert (H : forall m : jsmap group,
             Forall P m -> Forall P (fold_left (addIssue baseUrl) all m)).
  { induction all as [|raw all IH]; intros m Hm; [exact Hm|].
    cbn [fold_left]. apply IH. unfold addIssue.
    apply inner_shape; auto. }
  apply H. constructor.
Qed.

(** X8: before they are sorted, the groups are the release names the
    records mention, every name once, in the order of their first mention
    (records in the order received, release entries in the order listed;
    absent and empty names are passed over).  Every group is stored under
    its own name, which is not empty, and has at least one entry. *)
Theorem groups_by_first_mention baseUrl all :
  let groupsMap := groupIssues baseUrl all in
  List.map fixVersion (mapValues groupsMap)
  = firstMentions [] (flat_map namesOf all)
  /\ keys groupsMap = List.map fixVersion (mapValues groupsMap)
  /\ NoDup (List.map fixVersion (mapValues groupsMap))
  /\ Forall (fun g => issues g <> [] /\ fixVersion g <> []) (mapValues groupsMap).
Proof.
  intros groupsMap.
  assert (Hk : keys groupsMap = List.map fixVersion (mapValues groupsMap)).
  { unfold keys, mapValues. rewrite map_map.
    pose proof (@groups_shape (fun kg => fst kg = fixVersion (snd kg))) as H.
    specialize (H (fun _ _ _ _ => eq_refl) (fun _ _ _ E => E) baseUrl all).
    fold groupsMap in H. induction H as [|kg m E _ IH]; simpl; [reflexivity|].
    now rewrite E, IH. }
  assert (Hf : keys groupsMap = firstMentions [] (flat_map namesOf all)).
  { unfold groupsMap, groupIssues. now rewrite outer_keys. }
  repeat split.
  - now rewrite <- Hk.
  - exact Hk.
  - rewrite <- Hk, Hf. apply firstMentions_NoDup.
  - unfold mapValues. apply Forall_map.
    apply (@groups_shape
             (fun kg => issues (snd kg) <> [] /\ fixVersion (snd kg) <> [])).
    + intros nm fv issue Hn. simpl. split; [discriminate|exact Hn].
    + intros nm issue g [H1 H2]. simpl. split; [|exact H2].
      destruct (issues g); discriminate.
Qed.

(** ** The released flag *)

Lemma find_app {A} (p : A -> bool) a b :
  find p (a ++ b) = match find p a with Some x => Some x | None => find p b end.
Proof.
  induction a as [|x a IH]; simpl; [reflexivity|].
  destruct (p x); [reflexivity|exact IH].
Qed.

Local Abbreviation flagged m vs :=
  (forall n, option_map released (mapGet n m)
             = option_map versionReleased (find (mentions n) vs)).

Lemma inner_released issue fvs : forall seen m vs,
  flagged m vs ->
  (forall x, existsb (streq x) seen = true -> mapHas x m = true) ->
  flagged (snd (fold_left (addFixVersion issue) fvs (seen, m))) (vs ++ fvs).
Proof.
  induction fvs as [|fv fvs IH]; intros seen m vs Hm Hs.
  - simpl. now rewrite app_nil_r.
  - cbn [fold_left].
    replace (vs ++ fv :: fvs) with ((vs ++ [fv]) ++ fvs)
      by now rewrite <- app_assoc.
    destruct (names_one fv) as [E|(nm & E)].
    { rewrite (step_unnamed issue seen m fv E). apply IH; [|exact Hs].
      intros n. rewrite find_app. simpl. rewrite (mentions_unnamed _ n E).
      rewrite Hm. now destruct (find (mentions n) vs). }
    assert (Hstep : forall n,
               mapHas nm m = true ->
               option_map released (mapGet n m)
               = option_map versionReleased (find (mentions n) (vs ++ [fv]))).
    { intros n Hh. rewrite find_app. simpl. rewrite (mentions_named fv n E).
      rewrite Hm. destruct (find (mentions n) vs) eqn:Ef; [reflexivity|].
      destruct (streq_spec n nm) as [->|_]; [|reflexivity].
      specialize (Hm nm). rewrite Ef in Hm. unfold mapHas in Hh.
      destruct (mapGet nm m); discriminate. }
    destruct (existsb (streq nm) seen) eqn:Hseen.
    { rewrite (step_seen issue seen m fv E Hseen). apply IH; [|exact Hs].
      intros n. apply Hstep. now apply Hs. }
    destruct (mapHas nm m) eqn:Hh.
    + rewrite (step_old issue seen m fv E Hseen Hh). apply IH.
      * intros n. rewrite mapGet_mapAdjust, <- (Hstep n eq_refl).
        destruct (streq n nm); [|reflexivity]. now destruct (mapGet n m).
      * intros x. simpl. unfold mapHas. rewrite mapGet_mapAdjust.
        destruct (streq_spec x nm) as [->|_]; simpl.
        -- intros _. unfold mapHas in Hh. now destruct (mapGet nm m).
        -- apply Hs.
    + rewrite (step_new issue seen m fv E Hseen Hh).
      assert (Hg : forall n,
                 mapGet n (m ++ [(nm, opened nm fv issue)])
                 = if streq n nm then Some (opened nm fv issue) else mapGet n m).
      { intros n. apply mapHas_false in Hh.
        rewrite <- (mapSet_new nm (opened nm fv issue) m Hh), mapGet_mapSet.
        destruct (streq_spec n nm) as [->|_]; reflexivity. }
      apply IH.
      * intros n. rewrite Hg, find_app. simpl. rewrite (mentions_named fv n E).
        destruct (streq_spec n nm) as [->|_].
        -- specialize (Hm nm). apply mapHas_false in Hh. rewrite Hh in Hm.
           simpl in Hm. destruct (find (mentions nm) vs); [discriminate|].
           reflexivity.
        -- rewrite Hm. now destruct (find (mentions n) vs).
      * intros x. simpl. unfold mapHas. rewrite Hg.
        destruct (streq x nm); simpl; [reflexivity|apply Hs].
Qed.

Lemma outer_released baseUrl all : forall m vs,
  flagged m vs ->
  flagged (fold_left (addIssue baseUrl) all m) (vs ++ flat_map versionsOf all).
Proof.
  induction all as [|raw all IH]; intros m vs Hm.
  - simpl. now rewrite app_nil_r.
  - cbn [fold_left flat_map]. rewrite app_assoc. apply IH.
    unfold addIssue. apply inner_released; [exact Hm|discriminate].
Qed.

(** X9: a group carries the released flag of the first release entry
    that mentions its name, in the order of the records and of their
    release lists ([null] when that entry has none); later entries of the
    same name never change it.  A name no entry mentions has no group. *)
Theorem released_from_first_mention baseUrl all n :
  option_map released (mapGet n (groupIssues baseUrl all))
  = option_map versionReleased (find (mentions n) (flat_map versionsOf all)).
Proof.
  unfold groupIssues.
  apply (@outer_released baseUrl all [] []). reflexivity.
Qed.

(** ** The number of entries *)

Lemma entries_app a b : entries (a ++ b) = (entries a + entries b)%nat.
Proof. unfold entries. now rewrite map_app, list_sum_app. Qed.

Lemma entries_joined issue nm m :
  mapHas nm m = true ->
  entries (mapValues (mapAdjust (joined issue) nm m))
  = S (entries (mapValues m)).
Proof.
  unfold mapHas, entries, mapValues.
  induction m as [|[k1 g1] m IH]; simpl; [discriminate|].
  destruct (streq nm k1); simpl.
  - intros _. rewrite length_app. simpl. lia.
  - intros H. rewrite IH by exact H. lia.
Qed.

Lemma inner_entries issue fvs : forall seen m,
  entries (mapValues (snd (fold_left (addFixVersion issue) fvs (seen, m))))
  = (entries (mapValues m) + List.length (firstMentions seen (names fvs)))%nat.
Proof.
  induction fvs as [|fv fvs IH]; intros seen m.
  - simpl. lia.
  - cbn [fold_left]. rewrite names_cons.
    destruct (names_one fv) as [E|(nm & E)].
    { rewrite (step_unnamed issue seen m fv E), E. apply IH. }
    rewrite E. cbn [app firstMentions].
    destruct (existsb (streq nm) seen) eqn:Hs.
    { rewrite (step_seen issue seen m fv E Hs). apply IH. }
    destruct (mapHas nm m) eqn:Hh.
    + rewrite (step_old issue seen m fv E Hs Hh), IH, entries_joined by exact Hh.
      simpl. lia.
    + rewrite (step_new issue seen m fv E Hs Hh), IH.
      unfold mapValues at 1. rewrite map_app, entries_app. simpl.
      unfold entries at 2. simpl. fold (mapValues m). lia.
Qed.

Lemma entries_groupIssues baseUrl all :
  entries (mapValues (groupIssues baseUrl all))
  = list_sum
      (List.map (fun raw => List.length (firstMentions [] (namesOf raw))) all).
Proof.
  unfold groupIssues.
  assert (H : forall m,
             entries (mapValues (fold_left (addIssue baseUrl) all m))
             = (entries (mapValues m)
                + list_sum
                    (List.map
                       (fun raw => List.length (firstMentions [] (namesOf raw)))
                       all))%nat).
  { induction all as [|raw all IH]; intros m; simpl; [lia|].
    rewrite IH. unfold addIssue. rewrite inner_entries.
    fold (namesOf raw). lia. }
  rewrite H. reflexivity.
Qed.

End GroupShapeFacts.

(* ================================================================== *)
(** * Sort keys of whole years *)
(* ================================================================== *)

Module KeyFacts.

Import Issues RouteNotions NumberFacts.

Local Open Scope Q_scope.

(** ** Integers that binary64 holds exactly *)

Lemma Qred_integer z : Qred (inject_Z z) = inject_Z z.
Proof.
  unfold Qred, inject_Z.
  pose proof (Z.ggcd_gcd z 1) as Hg.
  pose proof (Z.ggcd_correct_divisors z 1) as Hd.
  destruct (Z.ggcd z 1) as [g [n d]]. simpl in *.
  rewrite Z.gcd_1_r in Hg. subst g. destruct Hd as [Hn Hd].
  assert (Ed : d = 1%Z) by lia. assert (En : n = z) by lia.
  rewrite Ed, En. reflexivity.
Qed.

Lemma roundHalfEven_integer q k : q == inject_Z k -> roundHalfEven q = k.
Proof.
  intros E. unfold roundHalfEven.
  assert (Hf : Qfloor q = k) by (rewrite E; apply Qfloor_Z).
  rewrite Hf.
  assert (Hc : (q - inject_Z k ?= 1 # 2) = Lt).
  { apply (proj1 (Qlt_alt _ _)). rewrite E.
    setoid_replace (inject_Z k - inject_Z k) with 0 by ring. reflexivity. }
  now rewrite Hc.
Qed.

Lemma pow2_lt_inv a b : pow2 a < pow2 b -> (a < b)%Z.
Proof.
  intros H. destruct (Z.lt_ge_cases a b) as [Hab|Hab]; [exact Hab|].
  apply pow2_le in Hab. exfalso. eapply Qlt_irrefl, Qlt_le_trans; eauto.
Qed.

Lemma floorLog2_below q n : 0 < q -> q < pow2 (n + 1) -> (floorLog2 q <= n)%Z.
Proof.
  intros H0 Hq. pose proof (log2_lower H0) as Hl.
  unfold floorLog2.
  set (l := (Z.log2 (Qnum q) - Z.log2 (Zpos (Qden q)))%Z) in *.
  assert (Hb : (l - 1 < n + 1)%Z).
  { apply pow2_lt_inv. eapply Qle_lt_trans; eauto. }
  destruct (Qle_bool (pow2 l) q) eqn:Ht; [|lia].
  apply Qle_bool_iff in Ht.
  assert (l < n + 1)%Z; [|lia].
  apply pow2_lt_inv. eapply Qle_lt_trans; eauto.
Qed.

Lemma pow2_inverse u : pow2 u * pow2 (- u) == 1.
Proof. rewrite <- pow2_add, Z.add_opp_diag_r. reflexivity. Qed.

Lemma roundPositive_exact neg q z :
  q == inject_Z z -> (0 < z < 2 ^ 53)%Z ->
  roundPositive neg q
  = Finite (Qred (if neg then - inject_Z z else inject_Z z)).
Proof.
  intros E Hz.
  assert (H0 : 0 < q) by (rewrite E; apply inject_Z_pos; lia).
  assert (Hq : q < pow2 (52 + 1)).
  { rewrite E, pow2_Z by lia. rewrite <- Zlt_Qlt. simpl. lia. }
  pose proof (floorLog2_below 52 H0 Hq) as He.
  unfold roundPositive.
  set (u := Z.max (floorLog2 q - 52) (-1074)).
  assert (Hu : (u <= 0)%Z) by (unfold u; lia).
  assert (Hm : q / pow2 u == inject_Z (z * 2 ^ (- u))).
  { rewrite inject_Z_mult, <- (pow2_Z (n := - u)) by lia. rewrite E.
    apply Qmult_inj_r with (z := pow2 u).
    - intros H. pose proof (pow2_pos u) as Hp. rewrite H in Hp.
      now apply Qlt_irrefl in Hp.
    - rewrite Qmult_comm, Qmult_div_r.
      + rewrite <- Qmult_assoc, (Qmult_comm (pow2 (- u))), pow2_inverse.
        now rewrite Qmult_1_r.
      + intros H. pose proof (pow2_pos u) as Hp. rewrite H in Hp.
        now apply Qlt_irrefl in Hp. }
  rewrite (roundHalfEven_integer Hm).
  assert (Hv : inject_Z (z * 2 ^ (- u)) * pow2 u == inject_Z z).
  { rewrite inject_Z_mult, <- (pow2_Z (n := - u)) by lia.
    rewrite <- Qmult_assoc, (Qmult_comm (pow2 (- u))), pow2_inverse.
    now rewrite Qmult_1_r. }
  destruct (Qle_bool (pow2 1024) _) eqn:Ht.
  - apply Qle_bool_iff in Ht. rewrite Hv, pow2_Z in Ht by lia.
    rewrite <- Zle_Qle in Ht. exfalso.
    assert (2 ^ 53 <= 2 ^ 1024)%Z by (apply Z.pow_le_mono_r; lia). lia.
  - f_equal. apply Qred_complete. destruct neg; now rewrite Hv.
Qed.

(** An integer below [2^53] in magnitude is its own rounding. *)
Lemma round64_exact q z :
  q == inject_Z z -> (Z.abs z < 2 ^ 53)%Z -> round64 q = ofZ z.
Proof.
  intros E Hz. unfold round64, ofZ.
  destruct (Z.compare_spec z 0) as [->|Hn|Hp].
  - assert (Hc : (q ?= 0) = Eq) by (apply (proj1 (Qeq_alt _ _)); exact E).
    now rewrite Hc.
  - assert (Hc : (q ?= 0) = Lt).
    { apply (proj1 (Qlt_alt _ _)). rewrite E. change 0 with (inject_Z 0).
      rewrite <- Zlt_Qlt. exact Hn. }
    rewrite Hc.
    assert (E' : - q == inject_Z (- z)) by (rewrite E, inject_Z_opp; reflexivity).
    rewrite (roundPositive_exact true E') by lia.
    f_equal. rewrite <- (Qred_integer z). apply Qred_complete.
    rewrite inject_Z_opp. ring.
  - assert (Hc : (q ?= 0) = Gt).
    { apply (proj1 (Qgt_alt _ _)). rewrite E. change 0 with (inject_Z 0).
      rewrite <- Zlt_Qlt. exact Hp. }
    rewrite Hc, (roundPositive_exact false E) by lia.
    now rewrite Qred_integer.
Qed.

Lemma numMul_exact a b :
  (Z.abs (a * b) < 2 ^ 53)%Z -> numMul (ofZ a) (ofZ b) = ofZ (a * b).
Proof.
  intros H. unfold numMul, ofZ. apply round64_exact; [|exact H].
  now rewrite inject_Z_mult.
Qed.

Lemma numAdd_exact a b :
  (Z.abs (a + b) < 2 ^ 53)%Z -> numAdd (ofZ a) (ofZ b) = ofZ (a + b).
Proof.
  intros H. unfold numAdd, ofZ. apply round64_exact; [|exact H].
  now rewrite inject_Z_plus.
Qed.

Lemma numSub_exact a b :
  (Z.abs (a - b) < 2 ^ 53)%Z -> numSub (ofZ a) (ofZ b) = ofZ (a - b).
Proof.
  intros H. unfold numSub, numNeg, numAdd, ofZ. apply round64_exact; [|exact H].
  rewrite Qred_correct. unfold Z.sub. rewrite inject_Z_plus, inject_Z_opp.
  reflexivity.
Qed.

Local Close Scope Q_scope.

(** ** What a successful parse returns *)

Section Parser.

Variable toLowerCase : jsstring -> jsstring.

Local Abbreviation parse := (parseLtFixVersion toLowerCase).

Lemma parse_inv name p :
  parse name = Some p ->
  yearAccepted (year p) = true
  /\ exists k, monthProperty k = Some (month p).
Proof.
  unfold parseLtFixVersion, yearAccepted.
  destruct (_ <? 2)%nat; [discriminate|].
  destruct (negb (isFinite _) || numLt _ _ || numGt _ _) eqn:Hy; [discriminate|].
  set (k1 := toLowerCase (join _ _)). set (k2 := toLowerCase (nth 1 _ _)).
  unfold nullish.
  destruct (monthProperty k1) as [m|] eqn:E1.
  - destruct (monthFalsy m); [discriminate|].
    intros H; injection H as <-. cbn [year month]. rewrite Hy. eauto.
  - destruct (monthProperty k2) as [m|] eqn:E2; [|discriminate].
    destruct (monthFalsy m); [discriminate|].
    intros H; injection H as <-. cbn [year month]. rewrite Hy. eauto.
Qed.

Lemma yearAccepted_range y :
  yearAccepted y = true -> exists q, y = Finite q /\ (2000 <= q <= 2100)%Q.
Proof.
  unfold yearAccepted. destruct y as [|s|q]; try discriminate.
  cbn [isFinite negb orb]. intros H. apply negb_true_iff, orb_false_iff in H.
  destruct H as [H1 H2]. unfold numGt, numLt, ofZ in *.
  apply negb_false_iff, Qle_bool_iff in H1, H2.
  exists q. split; [reflexivity|]. split; assumption.
Qed.

Lemma monthProperty_range k m :
  monthProperty k = Some m ->
  (exists v, m = MonthNumber (ofZ v) /\ (1 <= v <= 12)%Z)
  \/ (exists o, m = MonthObject o /\ inheritedProperty o = true).
Proof.
  unfold monthProperty.
  destruct (ownMonth LT_MONTH_TO_NUM k) as [v|] eqn:E.
  - intros H; injection H as <-. left. exists v. split; [reflexivity|].
    now apply ReleaseNameFacts.ownMonth_range in E.
  - destruct (inheritedProperty k) eqn:Hi; [|discriminate].
    intros H; injection H as <-. right. exists k. auto.
Qed.

(** X10: a label that parses yields a finite year between 2000 and
    2100, both included, and as month either a number of the table, one
    of 1 .. 12, or the member every object inherits under the month
    text. *)
Theorem parse_result_range name p :
  parse name = Some p ->
  (exists q, year p = Finite q /\ (2000 <= q <= 2100)%Q)
  /\ ((exists v, month p = MonthNumber (ofZ v) /\ (1 <= v <= 12)%Z)
      \/ (exists o, month p = MonthObject o /\ inheritedProperty o = true)).
Proof.
  intros H. apply parse_inv in H as (Hy & k & Hk). split.
  - now apply yearAccepted_range.
  - now apply monthProperty_range in Hk.
Qed.

End Parser.

Lemma parse_result_range_witness :
  (exists q, Finite (2025 # 1) = Finite q /\ (2000 <= q <= 2100)%Q)
  /\ ((exists v, MonthNumber (Finite (12 # 1)) = MonthNumber (ofZ v)
                 /\ (1 <= v <= 12)%Z)
      \/ (exists o, MonthNumber (Finite (12 # 1)) = MonthObject o
                    /\ inheritedProperty o = true)).
Proof.
  exact (@parse_result_range latinLower (str " 2025  Gruodis  hotfix ")
           {| year := Finite (2025 # 1); month := MonthNumber (Finite (12 # 1)) |}
           eq_refl).
Defined.

(** ** Whole years *)

Section Order.

Variable toLowerCase : jsstring -> jsstring.
Variable localeCompare : jsstring -> jsstring -> Z.

Local Abbreviation parse := (parseLtFixVersion toLowerCase).
Local Abbreviation compare := (compareGroups toLowerCase localeCompare).

Lemma whole_range name y m :
  parse name = Some {| year := ofZ y; month := MonthNumber (ofZ m) |} ->
  (2000 <= y <= 2100 /\ 1 <= m <= 12)%Z.
Proof.
  intros H. apply parse_inv in H as (Hy & k & Hk). cbn [year month] in *.
  apply yearAccepted_range in Hy as (q & Eq & H1 & H2).
  unfold ofZ in Eq. injection Eq as <-.
  change 2000%Q with (inject_Z 2000) in H1.
  change 2100%Q with (inject_Z 2100) in H2.
  rewrite <- Zle_Qle in H1, H2.
  apply monthProperty_range in Hk as [(v & E & Hv)|(o & E & _)];
    [|discriminate].
  unfold ofZ, inject_Z in E. injection E as ->. lia.
Qed.

Lemma whole_key y m :
  (2000 <= y <= 2100)%Z -> (1 <= m <= 12)%Z ->
  monthKey {| year := ofZ y; month := MonthNumber (ofZ m) |}
  = KeyNumber (ofZ (y * 100 + m)).
Proof.
  intros Hy Hm. unfold monthKey. cbn [year month].
  rewrite numMul_exact by lia. rewrite numAdd_exact by lia. reflexivity.
Qed.

(** X11: for two release names that parse to a whole year and a month
    of the table, the sort key is exactly [year * 100 + month], the
    comparator returns exactly the difference of the keys, and it places
    the first group after the second exactly when the first is the
    earlier release, by year and then by month. *)
Theorem whole_years_newest_first a b ya ma yb mb :
  parse (fixVersion a)
  = Some {| year := ofZ ya; month := MonthNumber (ofZ ma) |} ->
  parse (fixVersion b)
  = Some {| year := ofZ yb; month := MonthNumber (ofZ mb) |} ->
  monthKey {| year := ofZ ya; month := MonthNumber (ofZ ma) |}
  = KeyNumber (ofZ (ya * 100 + ma))
  /\ compare a b = ofZ ((yb * 100 + mb) - (ya * 100 + ma))
  /\ (sortsAfter compare a b = true
      <-> (ya < yb \/ (ya = yb /\ ma < mb))%Z).
Proof.
  intros Ha Hb.
  destruct (whole_range _ Ha) as (Hya & Hma).
  destruct (whole_range _ Hb) as (Hyb & Hmb).
  assert (Hc : compare a b = ofZ ((yb * 100 + mb) - (ya * 100 + ma))).
  { unfold compareGroups. rewrite Ha, Hb.
    rewrite !whole_key by assumption. unfold keyDifference.
    apply numSub_exact. lia. }
  split; [now apply whole_key|]. split; [exact Hc|].
  unfold sortsAfter. rewrite Hc, OrderFacts.gt0_ofZ, Z.ltb_lt. lia.
Qed.

End Order.

Lemma whole_years_newest_first_witness :
  monthKey {| year := ofZ 2024; month := MonthNumber (ofZ 1) |}
  = KeyNumber (ofZ (2024 * 100 + 1))
  /\ compareGroups latinLower Sample.compareUnits
       {| fixVersion := str "2024 Sausis"; released := None; issues := [] |}
       {| fixVersion := str "2025 gruodis"; released := None; issues := [] |}
     = ofZ ((2025 * 100 + 12) - (2024 * 100 + 1))
  /\ (sortsAfter (compareGroups latinLower Sample.compareUnits)
        {| fixVersion := str "2024 Sausis"; released := None; issues := [] |}
        {| fixVersion := str "2025 gruodis"; released := None; issues := [] |}
      = true
      <-> (2024 < 2025 \/ (2024 = 2025 /\ 1 < 12))%Z).
Proof.
  exact (@whole_years_newest_first latinLower Sample.compareUnits
           {| fixVersion := str "2024 Sausis"; released := None; issues := [] |}
           {| fixVersion := str "2025 gruodis"; released := None; issues := [] |}
           2024 1 2025 12 eq_refl eq_refl).
Defined.

End KeyFacts.

(* ================================================================== *)
(** * Texts: white space, the attachment lookup, the resolver *)
(* ================================================================== *)

Module TextFacts.

Import IssueDetail RouteNotions LookupNotions PlaceholderFacts.

(** ** White space around a text *)

Lemma trimStart_blank pre s :
  blank pre = true -> trimStart (pre ++ s) = trimStart s.
Proof.
  unfold blank. induction pre as [|c pre IH]; simpl; [reflexivity|].
  intros H. apply andb_prop in H as [Hc H]. rewrite Hc. now apply IH.
Qed.

Lemma trimStart_app a b :
  trimStart (a ++ b)
  = match trimStart a with [] => trimStart b | r => r ++ b end.
Proof.
  induction a as [|c a IH]; simpl; [now destruct (trimStart b)|].
  destruct (isWhiteSpace c); [exact IH|reflexivity].
Qed.

Lemma trimEnd_blank s post :
  blank post = true -> trimEnd (s ++ post) = trimEnd s.
Proof.
  intros H. unfold trimEnd. rewrite rev_app_distr, trimStart_blank;
    [reflexivity|]. unfold blank. now rewrite AdfFacts.forallb_rev.
Qed.

Lemma trim_padded pre s post :
  blank pre = true -> blank post = true -> trim (pre ++ s ++ post) = trim s.
Proof.
  intros Hpre Hpost. unfold trim.
  rewrite trimStart_blank by exact Hpre. rewrite trimStart_app.
  destruct (trimStart s) as [|c r] eqn:E.
  - apply AdfFacts.trimStart_nil_iff in Hpost. now rewrite Hpost.
  - now apply trimEnd_blank.
Qed.

(** X12: white space before and after a release name, and before and
    after an issue key, makes no difference: the name parses to the same
    result, and the detail handler sends the same request and gives the
    same reply. *)
Theorem outer_space_ignored
    toLowerCase encodeURIComponent (World : Type)
    (fetchIssue : issueRequest -> World -> fetched issueData * World)
    pre post :
  blank pre = true -> blank post = true ->
  (forall name,
     parseLtFixVersion toLowerCase (pre ++ name ++ post)
     = parseLtFixVersion toLowerCase name)
  /\ (forall baseUrl email token key,
        requestOf encodeURIComponent baseUrl email token (pre ++ key ++ post)
        = requestOf encodeURIComponent baseUrl email token key)
  /\ (forall env key w,
        IssueDetail.GET toLowerCase encodeURIComponent fetchIssue env
          (pre ++ key ++ post) w
        = IssueDetail.GET toLowerCase encodeURIComponent fetchIssue env key w).
Proof.
  intros Hpre Hpost. repeat split.
  - intros name. unfold parseLtFixVersion. now rewrite trim_padded.
  - intros baseUrl email token key. unfold requestOf. now rewrite trim_padded.
  - intros env key w. unfold IssueDetail.GET. now rewrite trim_padded.
Qed.

Lemma outer_space_ignored_witness :
  parseLtFixVersion latinLower (str "  " ++ str "2024 Sausis" ++ [9; 10]%N)
  = parseLtFixVersion latinLower (str "2024 Sausis").
Proof.
  exact (proj1 (@outer_space_ignored latinLower (fun s => s) nat
                  MoreSamples.silent (str "  ") [9; 10]%N eq_refl eq_refl)
           (str "2024 Sausis")).
Defined.

(** ** The attachment lookup *)

Lemma index_step i (m : jsmap attachment) a :
  mapGet i
    (match attachmentId a with
     | Some ((_ :: _) as j) => mapSet j a m
     | _ => m
     end)
  = if hasId i a then Some a else mapGet i m.
Proof.
  unfold hasId. destruct (attachmentId a) as [[|c j]|]; try reflexivity.
  apply GroupingFacts.mapGet_mapSet.
Qed.

(** X13: looking an id up in the attachment index gives the last
    attachment of the list that has this id; attachments without id, or
    with an empty id, are not in the index. *)
Theorem lookup_finds_last attachmentsRaw i :
  mapGet i (indexAttachments attachmentsRaw)
  = find (hasId i) (rev attachmentsRaw).
Proof.
  unfold indexAttachments.
  assert (H : forall m : jsmap attachment,
             mapGet i
               (fold_left
                  (fun m a =>
                     match attachmentId a with
                     | Some ((_ :: _) as j) => mapSet j a m
                     | _ => m
                     end) attachmentsRaw m)
             = match find (hasId i) (rev attachmentsRaw) with
               | Some a => Some a
               | None => mapGet i m
               end).
  { induction attachmentsRaw as [|a l IH]; intros m; [reflexivity|].
    cbn [fold_left rev]. rewrite IH, GroupShapeFacts.find_app, index_step.
    cbn [find]. destruct (find (hasId i) (rev l)); [reflexivity|].
    now destruct (hasId i a). }
  rewrite H. now destruct (find (hasId i) (rev attachmentsRaw)).
Qed.

(** ** Texts the resolver leaves alone *)

Section Scan.

Variable matchAt : jsstring -> option (jsstring * jsstring).
Hypothesis behaved : wellBehaved matchAt.

Lemma replaceAll_unmatched s :
  anywhere (matches matchAt) s = false -> replaceAll matchAt s = s.
Proof.
  induction s as [|c s IH]; [reflexivity|].
  rewrite anywhere_cons, (replaceAll_cons behaved). unfold matches at 1.
  destruct (matchAt (c :: s)); [discriminate|].
  intros H. simpl in H. now rewrite IH.
Qed.

Lemma replaceAll_nonempty s : s <> [] -> replaceAll matchAt s <> [].
Proof.
  destruct s as [|c s]; [congruence|]. intros _.
  rewrite (replaceAll_cons behaved).
  destruct (matchAt (c :: s)) as [[r rest]|] eqn:E; [|discriminate].
  destruct (matchBracketed behaved _ E) as (r' & ->). discriminate.
Qed.

Lemma replaceAll_headOk s :
  headOk s = true -> headOk (replaceAll matchAt s) = true.
Proof.
  destruct s as [|c s]; [reflexivity|]. rewrite (replaceAll_cons behaved).
  destruct (matchAt (c :: s)) as [[r rest]|] eqn:E; [|trivial].
  destruct (matchBracketed behaved _ E) as (r' & ->). reflexivity.
Qed.

Lemma endOk_app a b :
  endOk (a ++ b) = match b with [] => endOk a | _ => endOk b end.
Proof.
  destruct b as [|c b]; [now rewrite app_nil_r|].
  unfold endOk. rewrite rev_app_distr.
  destruct (rev (c :: b)) as [|d t] eqn:E; [|reflexivity].
  apply (f_equal (@List.length _)) in E. rewrite length_rev in E. discriminate.
Qed.

Hypothesis closes : closing matchAt.

Lemma replaceAll_endOk n : forall s,
  (List.length s <= n)%nat ->
  endOk s = true -> endOk (replaceAll matchAt s) = true.
Proof.
  induction n as [|n IH]; intros s Hn Hs.
  { destruct s; [reflexivity|simpl in Hn; lia]. }
  destruct s as [|c s]; [reflexivity|].
  rewrite (replaceAll_cons behaved).
  destruct (matchAt (c :: s)) as [[r rest]|] eqn:E.
  - pose proof (matchShrinks behaved _ E) as Hl.
    destruct (matchEnds closes _ E) as (r' & ->).
    destruct (matchSuffix closes _ E) as (consumed & Es).
    rewrite endOk_app.
    destruct (replaceAll matchAt rest) as [|d x] eqn:Ex.
    + rewrite endOk_app. reflexivity.
    + rewrite <- Ex. apply IH; [simpl in *; lia|].
      rewrite Es, endOk_app in Hs.
      destruct rest; [discriminate|exact Hs].
  - change (c :: replaceAll matchAt s) with ([c] ++ replaceAll matchAt s).
    rewrite endOk_app.
    destruct (replaceAll matchAt s) as [|d x] eqn:Ex.
    + destruct s as [|c' s]; [exact Hs|].
      exfalso. apply (@replaceAll_nonempty (c' :: s)); [discriminate|exact Ex].
    + rewrite <- Ex. apply IH; [simpl in *; lia|].
      change (c :: s) with ([c] ++ s) in Hs. rewrite endOk_app in Hs.
      destruct s; [discriminate|exact Hs].
Qed.

End Scan.

Lemma matches_id toLowerCase attachmentById t :
  matches (idReplacement toLowerCase attachmentById) t = idHolds t.
Proof.
  unfold matches, idReplacement, idHolds.
  now destruct (matchAttachmentId t) as [[i r]|].
Qed.

Lemma matches_bare t : matches bareReplacement t = startsWith bareToken t.
Proof.
  unfold matches, bareReplacement, matchBare.
  now destruct (startsWith bareToken t).
Qed.

Lemma anywhere_ext f g s :
  (forall t, f t = g t) -> anywhere f s = anywhere g s.
Proof.
  intros H. induction s as [|c s IH]; simpl; rewrite H; [reflexivity|].
  now rewrite IH.
Qed.

Lemma id_pass_kept toLowerCase attachmentById text :
  hasIdToken text = false ->
  replaceAll (idReplacement toLowerCase attachmentById) text = text.
Proof.
  intros H. apply (replaceAll_unmatched (id_behaved toLowerCase attachmentById)).
  rewrite (anywhere_ext _ _ _ (matches_id toLowerCase attachmentById)).
  exact H.
Qed.

Lemma bare_pass_kept text :
  hasBareToken text = false -> replaceAll bareReplacement text = text.
Proof.
  intros H. apply (replaceAll_unmatched bare_behaved).
  rewrite (anywhere_ext _ _ _ matches_bare). exact H.
Qed.

(** X14: a text that holds no token [[ATTACHMENT_ID:<id>]] with an id
    that is not empty, and no token [[ATTACHMENT]], comes out of the
    resolver as it went in, whatever the attachments are. *)
Theorem text_without_tokens_kept toLowerCase attachmentById text :
  hasIdToken text = false -> hasBareToken text = false ->
  enrichPlaceholders toLowerCase attachmentById text = text.
Proof.
  intros Hi Hb. rewrite enrichPlaceholders_eq.
  rewrite (id_pass_kept toLowerCase attachmentById text Hi).
  now apply bare_pass_kept.
Qed.

Lemma text_without_tokens_kept_witness :
  enrichPlaceholders latinLower Sample.pngLookup
    (str "see [1] and [ATTACHMENT_ID:] or [attachment]")
  = str "see [1] and [ATTACHMENT_ID:] or [attachment]".
Proof.
  exact (@text_without_tokens_kept latinLower Sample.pngLookup
           (str "see [1] and [ATTACHMENT_ID:] or [attachment]")
           eq_refl eq_refl).
Defined.

(** X15: when no file name of the lookup can start a token, resolving
    a text twice gives what resolving it once gives. *)
Theorem resolving_twice toLowerCase attachmentById text :
  (forall i a, mapGet i attachmentById = Some a ->
               plain (orElse (filename a) (str "file")) = true) ->
  enrichPlaceholders toLowerCase attachmentById
    (enrichPlaceholders toLowerCase attachmentById text)
  = enrichPlaceholders toLowerCase attachmentById text.
Proof.
  intros Hplain.
  set (once := enrichPlaceholders toLowerCase attachmentById text).
  assert (Hi : hasIdToken once = false).
  { unfold once. rewrite enrichPlaceholders_eq.
    eapply id_absent_kept; [apply le_n|].
    eapply id_removed; [exact Hplain|apply le_n]. }
  assert (Hb : hasBareToken once = false).
  { unfold once. rewrite enrichPlaceholders_eq. eapply bare_removed, le_n. }
  rewrite (enrichPlaceholders_eq toLowerCase attachmentById once).
  rewrite (id_pass_kept toLowerCase attachmentById once Hi).
  now apply bare_pass_kept.
Qed.

Lemma pngLookup_plain i a :
  mapGet i Sample.pngLookup = Some a ->
  plain (orElse (filename a) (str "file")) = true.
Proof.
  unfold Sample.pngLookup. simpl.
  destruct (streq i _); intros H; inversion H. reflexivity.
Defined.

Lemma resolving_twice_witness :
  enrichPlaceholders latinLower Sample.pngLookup
    (enrichPlaceholders latinLower Sample.pngLookup
       (str "[ATTACHMENT_ID:10001] and [ATTACHMENT]"))
  = enrichPlaceholders latinLower Sample.pngLookup
      (str "[ATTACHMENT_ID:10001] and [ATTACHMENT]").
Proof.
  exact (@resolving_twice latinLower Sample.pngLookup
           (str "[ATTACHMENT_ID:10001] and [ATTACHMENT]") pngLookup_plain).
Defined.

(** ** The texts of a detail reply are trimmed *)

Lemma trimStart_headOk s : headOk s = true -> trimStart s = s.
Proof.
  destruct s as [|c s]; [reflexivity|]. simpl.
  now destruct (isWhiteSpace c).
Qed.

Lemma headOk_trimStart s : headOk (trimStart s) = true.
Proof.
  induction s as [|c s IH]; [reflexivity|]. simpl.
  destruct (isWhiteSpace c) eqn:E; [exact IH|]. simpl. now rewrite E.
Qed.

Lemma trimStart_suffix s : exists ws, s = ws ++ trimStart s.
Proof.
  induction s as [|c s (ws & IH)]; [now exists []|]. simpl.
  destruct (isWhiteSpace c).
  - exists (c :: ws). simpl. now f_equal.
  - now exists [].
Qed.

Lemma tight_trim s : headOk s = true -> endOk s = true -> trim s = s.
Proof.
  intros Hh He. unfold trim, trimEnd.
  rewrite (trimStart_headOk _ Hh), (trimStart_headOk _ He).
  apply rev_involutive.
Qed.

Lemma trim_tight s : headOk (trim s) = true /\ endOk (trim s) = true.
Proof.
  unfold trim, trimEnd. set (t := trimStart s).
  assert (Ht : headOk t = true) by apply headOk_trimStart.
  split.
  - destruct (trimStart_suffix (rev t)) as (ws & E).
    set (u := trimStart (rev t)) in *.
    apply (f_equal (@rev _)) in E. rewrite rev_involutive, rev_app_distr in E.
    destruct (rev u) as [|c r]; [reflexivity|].
    rewrite E in Ht. exact Ht.
  - unfold endOk. rewrite rev_involutive. apply headOk_trimStart.
Qed.

Lemma id_closing toLowerCase attachmentById :
  closing (idReplacement toLowerCase attachmentById).
Proof.
  split; intros s r rest E;
    apply idReplacement_Some in E as (i & -> & _ & _ & ->).
  - unfold labelFor, placeholderLabelForAttachment, genericLabel.
    destruct (mapGet i attachmentById) as [a|].
    + destruct (startsWith _ _); rewrite app_assoc; eexists; reflexivity.
    + exists (str "[Attachment"). reflexivity.
  - exists (idPrefix ++ i ++ [closeBracket]).
    rewrite <- !app_assoc. reflexivity.
Qed.

Lemma bare_closing : closing bareReplacement.
Proof.
  split; intros s r rest E; apply bareReplacement_Some in E as (-> & ->).
  - exists (str "[Attachment"). reflexivity.
  - now exists bareToken.
Qed.

Lemma enrich_tight toLowerCase attachmentById text :
  headOk text = true -> endOk text = true ->
  trim (enrichPlaceholders toLowerCase attachmentById text)
  = enrichPlaceholders toLowerCase attachmentById text.
Proof.
  intros Hh He. rewrite enrichPlaceholders_eq. apply tight_trim.
  - apply (replaceAll_headOk bare_behaved).
    now apply (replaceAll_headOk (id_behaved toLowerCase attachmentById)).
  - eapply (replaceAll_endOk bare_behaved bare_closing); [apply le_n|].
    eapply (replaceAll_endOk (id_behaved toLowerCase attachmentById)
              (id_closing toLowerCase attachmentById)); [apply le_n|exact He].
Qed.

Lemma enrich_trimmed toLowerCase attachmentById text :
  let out := enrichPlaceholders toLowerCase attachmentById (trim text) in
  trim out = out.
Proof. apply enrich_tight; apply trim_tight. Qed.

Lemma comment_bodies (f : comment -> jsstring) cs :
  List.map (field (str "bodyText"))
    (List.map
       (fun x => if isUndefined x then Null else serialise x)
       (List.map
          (fun c =>
             Obj [ (str "id", strOrUndefined (commentId c));
                   (str "author",
                     Str (orElse (displayNameOf (author c)) (str "Unknown")));
                   (str "created", strOrNull (commentCreated c));
                   (str "bodyText", Str (f c)) ]) cs))
  = List.map (fun c => Some (Str (f c))) cs.
Proof.
  rewrite !map_map. apply map_ext. intros c.
  cbn [isUndefined].
  refine (@DetailFacts.field_serialise _ _ (Str (f c)) _ _); reflexivity.
Qed.

(** X16: the description text of a detail reply, and the body text of
    each of its comments, neither starts nor ends with white space:
    trimming it again changes nothing. *)
Theorem detail_texts_trimmed toLowerCase baseUrl data :
  let sent := serialise (detail toLowerCase baseUrl data) in
  (exists d, field (str "descriptionText") sent = Some (Str d) /\ trim d = d)
  /\ Forall (fun b => exists t, b = Some (Str t) /\ trim t = t) (bodyTexts sent).
Proof.
  cbv zeta. split.
  - eexists. split.
    + refine (@DetailFacts.field_serialise _ _ (Str _) _ _); reflexivity.
    + apply enrich_trimmed.
  - unfold bodyTexts, detail. cbv zeta.
    erewrite DetailFacts.field_serialise; [|reflexivity|reflexivity].
    cbn [serialise]. rewrite comment_bodies.
    apply Forall_map, Forall_forall. intros c _. eexists. split; [reflexivity|].
    apply enrich_trimmed.
Qed.

End TextFacts.

(* ================================================================== *)
(** * The page: search, counts and error messages *)
(* ================================================================== *)

Module PageFacts.

Import Issues RouteNotions ReplyNotions GroupNotions PageNotions.

(** ** Selections *)

Lemma selection_same {A} (R : A -> A -> Prop) l :
  (forall x, R x x) -> selection R l l.
Proof. intros H. induction l; constructor; auto. Qed.

Lemma selection_filter {A} (p : A -> bool) l : selection eq (filter p l) l.
Proof.
  induction l as [|x l IH]; simpl; [constructor|].
  destruct (p x); constructor; auto.
Qed.

Lemma selection_length {A} (shown all : list A) :
  selection eq shown all -> (List.length shown <= List.length all)%nat.
Proof. induction 1; simpl; lia. Qed.

Lemma selection_Forall {A B} (R : A -> B -> Prop) (P : A -> Prop)
    (Q : B -> Prop) shown all :
  (forall a b, R a b -> Q b -> P a) ->
  selection R shown all -> Forall Q all -> Forall P shown.
Proof.
  intros H. induction 1 as [|a b shown all Hab Hs IH|b shown all Hs IH];
    intros Hall; inversion Hall; subst; [constructor|constructor|]; eauto.
Qed.

Lemma selection_sorted {A} (R : A -> A -> Prop) (S : A -> A -> Prop) shown all :
  (forall a a' b b', R a a' -> R b b' -> S a' b' -> S a b) ->
  selection R shown all -> StronglySorted S all -> StronglySorted S shown.
Proof.
  intros H. induction 1 as [|a b shown all Hab Hs IH|b shown all Hs IH];
    intros Hall; inversion Hall; subst; [constructor|constructor|]; auto.
  eapply selection_Forall; [|exact Hs|eassumption].
  intros x y Hxy Hy. eapply H; eauto.
Qed.

(** ** Counting *)

Lemma shown_entries gs : Page.shownTicketsCount gs = entries gs.
Proof.
  unfold Page.shownTicketsCount, entries.
  assert (H : forall acc,
             fold_left (fun acc g => (acc + List.length (issues g))%nat) gs acc
             = (acc + list_sum (List.map (fun g => List.length (issues g)) gs))%nat).
  { induction gs as [|g gs IH]; intros acc; simpl; [lia|]. rewrite IH. lia. }
  now rewrite H.
Qed.

Lemma entries_selection shown all :
  selection narrowed shown all -> (entries shown <= entries all)%nat.
Proof.
  unfold entries.
  induction 1 as [|a b shown all (_ & _ & Hab) Hs IH|b shown all Hs IH];
    simpl; [lia| |lia].
  apply selection_length in Hab. lia.
Qed.

Lemma entries_permutation a b : Permutation a b -> entries a = entries b.
Proof. unfold entries. induction 1; simpl; lia. Qed.

(** ** Search *)

Section Search.

Variable toLowerCase : jsstring -> jsstring.

Local Abbreviation filteredGroups := (Page.filteredGroups toLowerCase).
Local Abbreviation normalize := (Page.normalize toLowerCase).

Lemma narrowed_same g : narrowed g g.
Proof. repeat split. apply selection_same. reflexivity. Qed.

Lemma filtered_selection data query :
  selection narrowed (filteredGroups (Some data) query) (Page.groups data).
Proof.
  unfold Page.filteredGroups. destruct (negb (truthy (normalize query))).
  - apply selection_same, narrowed_same.
  - induction (Page.groups data) as [|g gs IH]; simpl; [constructor|].
    destruct (0 <? _)%nat; constructor; auto.
    repeat split. apply selection_filter.
Qed.

(** X17: what the search shows is a selection of the groups of the
    reply, in their order, each with its name, its released flag and a
    selection of its issues in their order; with a query that normalises
    to a text that is not empty, no group without issues is shown; the
    number of tickets shown never exceeds the number of entries of the
    reply; and with no reply loaded nothing is shown. *)
Theorem search_narrows data query :
  let shown := filteredGroups (Some data) query in
  selection narrowed shown (Page.groups data)
  /\ (normalize query <> [] -> Forall (fun g => issues g <> []) shown)
  /\ (normalize query = [] -> shown = Page.groups data)
  /\ (Page.shownTicketsCount shown
      <= Page.shownTicketsCount (Page.groups data))%nat
  /\ filteredGroups None query = [].
Proof.
  cbv zeta. repeat split.
  - apply filtered_selection.
  - intros Hq. unfold Page.filteredGroups.
    destruct (normalize query) as [|c q]; [congruence|]. cbn [truthy negb].
    apply Forall_forall. intros g Hg. apply filter_In in Hg as [_ Hg].
    apply Nat.ltb_lt in Hg. destruct (issues g); [simpl in Hg; lia|discriminate].
  - intros Hq. unfold Page.filteredGroups. now rewrite Hq.
  - rewrite !shown_entries. apply entries_selection, filtered_selection.
Qed.

End Search.

(** X18: while the search box holds nothing that normalises to a
    text, the number of tickets the page shows for a reply of the issues
    handler is the number of entries of all its groups: each record counts
    once for every distinct release name it lists, so a record of two
    releases counts twice and a record of none does not count, whereas the
    [total] of the reply counts every record once.  This is for groups the
    comparator orders consistently, for which the sort is specified. *)
Theorem tickets_shown toLowerCase localeCompare baseUrl all query :
  consistent localeCompare ->
  Forall (tame toLowerCase) (mapValues (groupIssues baseUrl all)) ->
  Page.normalize toLowerCase query = [] ->
  Page.shownTicketsCount
    (Page.filteredGroups toLowerCase
       (Some {| Page.total := List.length all;
                Page.groups :=
                  sortGroups toLowerCase localeCompare
                    (groupIssues baseUrl all) |})
       query)
  = list_sum
      (List.map (fun raw => List.length (firstMentions [] (namesOf raw))) all).
Proof.
  intros _ _ Hq.
  unfold Page.filteredGroups. rewrite Hq. cbn [truthy negb Page.groups].
  rewrite shown_entries. unfold sortGroups.
  rewrite (entries_permutation (OrderFacts.sort_permutation _ _)).
  apply GroupShapeFacts.entries_groupIssues.
Qed.

Lemma tickets_shown_witness :
  Page.shownTicketsCount
    (Page.filteredGroups latinLower
       (Some {| Page.total := List.length Sample.mixed;
                Page.groups :=
                  sortGroups latinLower Sample.compareUnits
                    (groupIssues Sample.baseUrl Sample.mixed) |})
       (str "  "))
  = list_sum
      (List.map (fun raw => List.length (firstMentions [] (namesOf raw)))
         Sample.mixed).
Proof.
  exact (@tickets_shown latinLower Sample.compareUnits Sample.baseUrl
           Sample.mixed (str "  ") OrderFacts.compareUnits_consistent
           OrderFacts.mixed_tame eq_refl).
Defined.

Example tickets_of_mixed :
  Page.shownTicketsCount
    (sortGroups latinLower Sample.compareUnits
       (groupIssues Sample.baseUrl Sample.mixed)) = 5%nat
  /\ List.length Sample.mixed = 3%nat.
Proof. split; reflexivity. Qed.

(** ** Search keeps the order of the groups *)

Section Order.

Variable toLowerCase : jsstring -> jsstring.
Variable localeCompare : jsstring -> jsstring -> Z.

Local Abbreviation compare := (compareGroups toLowerCase localeCompare).

Lemma compare_names a a' b b' :
  fixVersion a = fixVersion a' -> fixVersion b = fixVersion b' ->
  compare a b = compare a' b'.
Proof. unfold compareGroups. now intros -> ->. Qed.

(** X19: when the groups of the reply are in the order of the
    comparator (no name's month text names an inherited member, and
    [localeCompare] orders names consistently), the groups the search
    shows are in that order too, whatever the query is. *)
Theorem search_keeps_order groupsMap total query :
  consistent localeCompare ->
  Forall (tame toLowerCase) (mapValues groupsMap) ->
  StronglySorted (mayPrecede compare)
    (Page.filteredGroups toLowerCase
       (Some {| Page.total := total;
                Page.groups := sortGroups toLowerCase localeCompare groupsMap |})
       query).
Proof.
  intros Hc Ht.
  eapply selection_sorted; [|apply filtered_selection|].
  - intros a a' b b' (Ea & _) (Eb & _). unfold mayPrecede, sortsAfter.
    now rewrite (compare_names _ _ _ _ Ea Eb).
  - cbn [Page.groups]. unfold sortGroups.
    apply (OrderFacts.sort_sorted
             (OrderFacts.compare_total Hc) (OrderFacts.compare_transitive Hc)).
    exact Ht.
Qed.

End Order.

Lemma search_keeps_order_witness :
  StronglySorted (mayPrecede (compareGroups latinLower Sample.compareUnits))
    (Page.filteredGroups latinLower
       (Some {| Page.total := 3;
                Page.groups :=
                  sortGroups latinLower Sample.compareUnits
                    (groupIssues Sample.baseUrl Sample.mixed) |})
       (str "sausis")).
Proof.
  exact (@search_keeps_order latinLower Sample.compareUnits
           (groupIssues Sample.baseUrl Sample.mixed) 3 (str "sausis")
           OrderFacts.compareUnits_consistent OrderFacts.mixed_tame).
Defined.

(** ** Error messages *)

Lemma worded_failure wire error status text :
  Page.apiJson (delivered wire (upstreamFailure error status text))
  = Page.ApiError (worded (str error) text).
Proof.
  unfold delivered, upstreamFailure, worded. simpl.
  destruct text; reflexivity.
Qed.

Lemma worded_error wire message :
  Page.apiJson (delivered wire (serverError message))
  = Page.ApiError (worded (str "Server error") message).
Proof.
  unfold delivered, serverError, worded. simpl.
  destruct message; reflexivity.
Qed.

(** X20: what the page reports for a failed load.  When the service
    answers the issues handler or the detail handler with a status that is
    not [ok], the page reports [Jira request failed: ] followed by the body
    of that answer, and just [Jira request failed] when that body is
    empty; when a setting is missing it reports
    [Server error: Missing env var: NAME]; when its own request is rejected
    it reports the message of the rejection; and when the reply is not
    [ok] and no JSON, it reports [Request failed (STATUS)]. *)
Theorem failures_worded :
  (forall toLowerCase localeCompare (World : Type)
          (fetchPage : searchRequest -> World -> fetched page * World)
          env baseUrl email token w log pages w1 cursor1 status text data w2
          wire,
     configured env baseUrl email token ->
     serves fetchPage (searchUrlOf baseUrl) (email, token)
       w None pages w1 cursor1 ->
     (List.length pages < 30)%nat ->
     fetchPage (requestFor (searchUrlOf baseUrl) (email, token) cursor1) w1
     = (Response status text data, w2) ->
     ok status = false ->
     Page.apiJson
       (delivered wire
          (fst (Issues.GET toLowerCase localeCompare fetchPage env (w, log))))
     = Page.ApiError (worded (str "Jira request failed") text))
  /\ (forall toLowerCase encodeURIComponent (World : Type)
            (fetchIssue : IssueDetail.issueRequest -> World
                          -> fetched IssueDetail.issueData * World)
            env baseUrl email token key w status text data w' wire,
        configured env baseUrl email token ->
        fetchIssue (requestOf encodeURIComponent baseUrl email token key) w
        = (Response status text data, w') ->
        ok status = false ->
        Page.apiJson
          (delivered wire
             (fst (IssueDetail.GET toLowerCase encodeURIComponent fetchIssue
                     env key w)))
        = Page.ApiError (worded (str "Jira request failed") text))
  /\ (forall wire name,
        Page.apiJson (delivered wire (missing name))
        = Page.ApiError
            (Str (str "Server error: Missing env var: " ++ str name)))
  /\ (forall message,
        Page.apiJson (NetworkError message) = Page.ApiError (Str message))
  /\ (forall status wire message,
        ok status = false ->
        Page.apiJson (Response status wire (inl message))
        = Page.ApiError
            (Str (str "Request failed (" ++ Page.numberToText status
                  ++ str ")"))).
Proof.
  split; [|split; [|split; [|split]]].
  - intros toLowerCase localeCompare World fetchPage env baseUrl email token
      w log pages w1 cursor1 status text data w2 wire Hc Hs Hl Hf Hok.
    rewrite (PagingFacts.search_failure_reported toLowerCase localeCompare
               log Hc Hs Hl Hf Hok).
    apply (worded_failure wire "Jira request failed" status text).
  - intros toLowerCase encodeURIComponent World fetchIssue env baseUrl email
      token key w status text data w' wire Hc Hf Hok.
    rewrite (DetailFacts.detail_failure_reported toLowerCase encodeURIComponent
               fetchIssue key w Hc Hf Hok).
    apply (worded_failure wire "Jira request failed" status text).
  - intros wire name. unfold missing. rewrite worded_error. reflexivity.
  - reflexivity.
  - intros status wire message Hok. unfold Page.apiJson. rewrite Hok.
    reflexivity.
Qed.

Lemma failures_worded_witness :
  Page.apiJson
    (delivered (str "{}")
       (fst (IssueDetail.GET latinLower (fun s => s)
               (Sample.scripted [Sample.notFound]) Sample.env
               (str "IMOSHELP-1") 0%nat)))
  = Page.ApiError
      (Str (str "Jira request failed: Issue does not exist")).
Proof.
  exact (proj1 (proj2 failures_worded) latinLower (fun s => s) nat
           (Sample.scripted [Sample.notFound]) Sample.env _ _ _
           (str "IMOSHELP-1") 0%nat 404%Z (str "Issue does not exist")
           (inl (str "Unexpected token I")) 1%nat (str "{}")
           PagingFacts.sample_configured eq_refl eq_refl).
Defined.

Example status_text :
  Page.numberToText 502 = str "502" /\ Page.numberToText (-7) = str "-7"
  /\ Page.numberToText 0 = str "0" /\ Page.numberToText 1000 = str "1000".
Proof. repeat split. Qed.

End PageFacts.

(* ================================================================== *)
(** * Groups that compare equal, and records without key *)
(* ================================================================== *)

Module StableFacts.

Import Issues RouteNotions WireNotions.

(** ** The sort keeps the order of what it need not exchange *)

Section Stable.

Variable A : Type.
Variable comparefn : A -> A -> number.

Lemma In_insert x b l : In b l -> In b (insert comparefn x l).
Proof.
  intros H. eapply Permutation_in;
    [symmetry; apply OrderFacts.insert_permutation|]. now right.
Qed.

Lemma insert_keeps x a b l :
  precedes a b l -> precedes a b (insert comparefn x l).
Proof.
  induction 1 as [l Hb|y l H IH]; simpl.
  - destruct (sortsAfter comparefn x a).
    + constructor. now apply In_insert.
    + now do 2 constructor.
  - destruct (sortsAfter comparefn x y).
    + now constructor.
    + now do 2 constructor.
Qed.

Lemma insert_ahead x y l :
  In y l -> sortsAfter comparefn x y = false ->
  precedes x y (insert comparefn x l).
Proof.
  intros Hy Hxy. induction l as [|z l IH]; [contradiction|]. simpl.
  destruct (sortsAfter comparefn x z) eqn:E.
  - constructor. apply IH. destruct Hy as [->|Hy]; [congruence|exact Hy].
  - now constructor.
Qed.

Lemma sort_stable a b l :
  precedes a b l -> sortsAfter comparefn a b = false ->
  precedes a b (sort comparefn l).
Proof.
  intros H Hab. induction H as [l Hb|y l H IH]; simpl.
  - apply insert_ahead; [|exact Hab].
    eapply Permutation_in; [symmetry; apply OrderFacts.sort_permutation|exact Hb].
  - now apply insert_keeps.
Qed.

End Stable.

(** X21: when the comparator orders the groups consistently, a group
    whose name was mentioned before the name of another group stays ahead
    of it in the reply unless the comparator puts it after; so two groups
    of the same year and month (a name in two spellings, or with a word
    after the month) keep the order of their first mention. *)
Theorem earlier_mention_stays_ahead toLowerCase localeCompare groupsMap a b :
  consistent localeCompare ->
  Forall (tame toLowerCase) (mapValues groupsMap) ->
  precedes a b (mapValues groupsMap) ->
  sortsAfter (compareGroups toLowerCase localeCompare) a b = false ->
  precedes a b (sortGroups toLowerCase localeCompare groupsMap).
Proof.
  intros _ _ H Hab. unfold sortGroups. now apply sort_stable.
Qed.

Lemma sameMonth_tame :
  Forall (tame latinLower)
    (mapValues (groupIssues Sample.baseUrl TieSamples.sameMonth)).
Proof.
  repeat constructor; intros p H; vm_compute in H;
    try discriminate; injection H as <-; eexists; reflexivity.
Qed.

Lemma earlier_mention_stays_ahead_witness :
  precedes TieSamples.hotfix TieSamples.january
    (sortGroups latinLower Sample.compareUnits
       (groupIssues Sample.baseUrl TieSamples.sameMonth)).
Proof.
  refine (@earlier_mention_stays_ahead latinLower Sample.compareUnits
            (groupIssues Sample.baseUrl TieSamples.sameMonth)
            TieSamples.hotfix TieSamples.january
            OrderFacts.compareUnits_consistent sameMonth_tame _ _).
  - apply precedes_here. left. reflexivity.
  - vm_compute. reflexivity.
Defined.

Example same_month_order :
  List.map fixVersion
    (sortGroups latinLower Sample.compareUnits
       (groupIssues Sample.baseUrl TieSamples.sameMonth))
  = [str "2025 kovas"; str "2024 sausis hotfix"; str "2024 Sausis"].
Proof. vm_compute. reflexivity. Qed.

(** ** Records without key *)

Lemma field_sent k properties :
  field k (serialise (Obj properties)) = sentProperty k properties.
Proof.
  cbn [serialise field].
  induction properties as [|[k' v] rest IH]; [reflexivity|].
  cbn [sentProperty]. destruct (isUndefined v).
  - rewrite andb_false_r. exact IH.
  - cbn [property]. rewrite andb_true_r.
    destruct (streq k k'); [reflexivity|exact IH].
Qed.

(** X22: a record that comes without key is sent without a [key]
    property, and its link ends in [/browse/undefined]: so it is for the
    detail reply and for an issue of a group. *)
Theorem absent_key_link toLowerCase baseUrl :
  (forall data,
     IssueDetail.key data = None ->
     let sent := serialise (IssueDetail.detail toLowerCase baseUrl data) in
     field (str "key") sent = None
     /\ field (str "url") sent
        = Some (Str (baseUrl ++ str "/browse/undefined")))
  /\ (forall raw,
        Issues.key raw = None ->
        let issue := trimIssue baseUrl raw in
        issueUrl issue = baseUrl ++ str "/browse/undefined"
        /\ field (str "key") (serialise (Page.issueJson issue)) = None
        /\ field (str "url") (serialise (Page.issueJson issue))
           = Some (Str (baseUrl ++ str "/browse/undefined"))).
Proof.
  split.
  - intros data H. cbv zeta. unfold IssueDetail.detail. cbv zeta.
    rewrite !field_sent, H. split; reflexivity.
  - intros raw H. cbv zeta. unfold Page.issueJson, trimIssue.
    rewrite !field_sent. cbn [issueKey issueUrl issueSummary]. rewrite H.
    repeat split; reflexivity.
Qed.

Lemma absent_key_link_witness :
  field (str "key")
    (serialise (IssueDetail.detail latinLower Sample.baseUrl TieSamples.keyless))
  = None
  /\ field (str "url")
       (serialise (IssueDetail.detail latinLower Sample.baseUrl TieSamples.keyless))
     = Some (Str (Sample.baseUrl ++ str "/browse/undefined")).
Proof.
  exact (proj1 (absent_key_link latinLower Sample.baseUrl)
           TieSamples.keyless eq_refl).
Defined.

End StableFacts.

(* ================================================================== *)
(** * From media nodes to labels *)
(* ================================================================== *)

Module MediaFacts.

Import IssueDetail LookupNotions MediaNotions PlaceholderFacts TextFacts.

Lemma media_token attrs : adfToPlainText (media attrs) = render (pieceOf attrs).
Proof.
  unfold media, pieceOf. cbn [adfToPlainText]. cbv beta.
  change (isLit (Some (str "media")) "text") with false.
  change (isLit (Some (str "media")) "hardBreak") with false.
  change (isLit (Some (str "media")) "inlineCard") with false.
  change (isLit (Some (str "media")) "blockCard") with false.
  change (isLit (Some (str "media")) "embedCard") with false.
  change (isLit (Some (str "media")) "media") with true.
  cbn [orb]. cbv iota. unfold mediaNode. fold (mediaId attrs).
  destruct (mediaId attrs); reflexivity.
Qed.

Lemma medias_tokens attrsList :
  List.concat (List.map adfToPlainText (List.map media attrsList))
  = List.concat (List.map render (List.map pieceOf attrsList)).
Proof.
  induction attrsList as [|a l IH]; [reflexivity|].
  cbn [List.map List.concat]. now rewrite media_token, IH.
Qed.

Lemma token_headOk attrs : headOk (render (pieceOf attrs)) = true.
Proof. unfold pieceOf. destruct (mediaId attrs); reflexivity. Qed.

Lemma token_endOk attrs : endOk (render (pieceOf attrs)) = true.
Proof.
  unfold pieceOf. destruct (mediaId attrs) as [|c id]; [reflexivity|].
  cbn [render]. rewrite !endOk_app. reflexivity.
Qed.

Lemma token_nonempty attrs : render (pieceOf attrs) <> [].
Proof. unfold pieceOf. destruct (mediaId attrs); discriminate. Qed.

Lemma tokens_headOk l :
  headOk (List.concat (List.map render (List.map pieceOf l))) = true.
Proof.
  destruct l as [|a l]; [reflexivity|]. cbn [List.map List.concat].
  pose proof (token_headOk a) as H. pose proof (token_nonempty a) as N.
  destruct (render (pieceOf a)); [congruence|exact H].
Qed.

Lemma tokens_endOk l :
  endOk (List.concat (List.map render (List.map pieceOf l))) = true.
Proof.
  induction l as [|a l IH]; [reflexivity|]. cbn [List.map List.concat].
  rewrite endOk_app.
  destruct (List.concat (List.map render (List.map pieceOf l))) eqn:E.
  - apply token_endOk.
  - exact IH.
Qed.

Lemma tokens_nonempty l :
  l <> [] -> List.concat (List.map render (List.map pieceOf l)) <> [].
Proof.
  destruct l as [|a l]; [congruence|]. intros _. cbn [List.map List.concat].
  pose proof (token_nonempty a). destruct (render (pieceOf a)); [congruence|].
  discriminate.
Qed.

Lemma holder_text type attrsList :
  type = "mediaSingle"%string \/ type = "mediaGroup"%string ->
  attrsList <> [] ->
  trim (adfToPlainText (mediaHolder type attrsList))
  = List.concat (List.map render (List.map pieceOf attrsList)).
Proof.
  intros Ht Hl.
  set (tokens := List.concat (List.map render (List.map pieceOf attrsList))).
  assert (E : adfToPlainText (mediaHolder type attrsList) = tokens ++ newline).
  { unfold mediaHolder. cbn [adfToPlainText present]. cbv beta.
    rewrite medias_tokens. fold tokens.
    pose proof (tokens_nonempty Hl) as N. fold tokens in N.
    destruct Ht as [-> | ->];
      (destruct tokens; [congruence|reflexivity]). }
  rewrite E.
  replace (tokens ++ newline) with ([] ++ tokens ++ newline) by reflexivity.
  rewrite trim_padded by reflexivity.
  apply tight_trim; [apply tokens_headOk|apply tokens_endOk].
Qed.

(** X23: media nodes held by a [mediaSingle] or [mediaGroup] node
    come out of flattening, trimming and resolving as their labels, one
    after the other: when no id holds a ["]"] and no file name of the
    lookup can start a token, each media node with an id of the lookup
    becomes the image label or the file label of its attachment, and each
    other media node becomes [[Attachment]]. *)
Theorem media_labelled toLowerCase attachmentById type attrsList :
  (forall i a, mapGet i attachmentById = Some a ->
               plain (orElse (filename a) (str "file")) = true) ->
  type = "mediaSingle"%string \/ type = "mediaGroup"%string ->
  attrsList <> [] ->
  Forall (fun attrs => ~ In closeBracket (mediaId attrs)) attrsList ->
  enrichPlaceholders toLowerCase attachmentById
    (trim (adfToPlainText (mediaHolder type attrsList)))
  = List.concat
      (List.map
         (fun attrs => resolved toLowerCase attachmentById (pieceOf attrs))
         attrsList).
Proof.
  intros Hplain Ht Hl Hids.
  rewrite (holder_text Ht Hl), enrichPlaceholders_eq.
  assert (Hw : forallb wellFormed (List.map pieceOf attrsList) = true).
  { apply forallb_forall. intros p Hp. apply in_map_iff in Hp as (a & <- & Ha).
    rewrite Forall_forall in Hids. specialize (Hids a Ha).
    unfold pieceOf. destruct (mediaId a) as [|c id] eqn:E; [reflexivity|].
    cbn [wellFormed truthy andb]. apply negb_true_iff.
    now apply existsb_eqb_false. }
  rewrite (first_pass_pieces toLowerCase attachmentById _ Hw).
  rewrite (@second_pass_pieces toLowerCase attachmentById Hplain _ Hw).
  now rewrite map_map.
Qed.

Lemma media_labelled_witness :
  enrichPlaceholders latinLower Sample.pngLookup
    (trim
       (adfToPlainText
          (mediaHolder "mediaGroup"
             [ Some {| attrUrl := None; attrId := Some (str "10001") |};
               None;
               Some {| attrUrl := None; attrId := Some (str "7") |} ])))
  = str "[Image: a.png][Attachment][Attachment]".
Proof.
  refine (@media_labelled latinLower Sample.pngLookup "mediaGroup"
            [ Some {| attrUrl := None; attrId := Some (str "10001") |};
              None;
              Some {| attrUrl := None; attrId := Some (str "7") |} ]
            pngLookup_plain (or_intror eq_refl) _ _).
  - discriminate.
  - repeat constructor; vm_compute; intuition discriminate.
Defined.

End MediaFacts.

(* ================================================================== *)
(** * The page: open and closed months *)
(* ================================================================== *)

Module MonthFacts.

Import MonthNotions.

Lemma isOpen_mapSet r n v k :
  Page.isOpen (mapSet n v r) k = if streq k n then v else Page.isOpen r k.
Proof.
  unfold Page.isOpen, Page.flag. rewrite GroupingFacts.mapGet_mapSet.
  now destruct (streq k n).
Qed.

Lemma mapHas_mapSet (r : Page.openMonths) n v k :
  mapHas k (mapSet n v r) = streq k n || mapHas k r.
Proof.
  unfold mapHas. rewrite GroupingFacts.mapGet_mapSet.
  now destruct (streq k n).
Qed.

Lemma shielded_open r k : shielded r k = true -> Page.isOpen r k = true.
Proof.
  unfold shielded, Page.isOpen, Page.flag, mapHas.
  destruct (mapGet k r); [now rewrite andb_false_r|].
  now destruct (inheritedProperty k).
Qed.

Lemma isOpen_assign r n v k :
  Page.isOpen (Page.assign r n v) k
  = if streq k n && negb (shielded r k) then v else Page.isOpen r k.
Proof.
  unfold Page.assign. fold (shielded r n).
  destruct (streq_spec k n) as [->|Hk]; cbn [andb].
  - destruct (shielded r n); [reflexivity|].
    cbn [negb]. now rewrite isOpen_mapSet, streq_refl.
  - destruct (shielded r n); [reflexivity|].
    rewrite isOpen_mapSet. apply streq_neq in Hk. now rewrite Hk.
Qed.

Lemma shielded_assign r n v k :
  shielded (Page.assign r n v) k = shielded r k.
Proof.
  unfold Page.assign. fold (shielded r n).
  destruct (shielded r n) eqn:Hn; [reflexivity|].
  unfold shielded in *. rewrite mapHas_mapSet.
  destruct (streq_spec k n) as [->|_]; [|reflexivity].
  cbn [orb negb]. rewrite andb_false_r. symmetry. exact Hn.
Qed.

Lemma isOpen_setAll v groups : forall r k,
  Page.isOpen (Page.setAll v groups r) k
  = if existsb (streq k) (List.map fixVersion groups) && negb (shielded r k)
    then v else Page.isOpen r k.
Proof.
  unfold Page.setAll.
  induction groups as [|g gs IH]; intros r k; [reflexivity|].
  cbn [fold_left List.map existsb]. rewrite IH, shielded_assign, isOpen_assign.
  destruct (existsb (streq k) (List.map fixVersion gs)),
    (streq k (fixVersion g)), (shielded r k); reflexivity.
Qed.

Lemma answered_mapSet r n v k : answered r k -> answered (mapSet n v r) k.
Proof.
  unfold answered, Page.flag. rewrite GroupingFacts.mapGet_mapSet.
  destruct (streq k n); [discriminate|trivial].
Qed.

Lemma answered_assign r n v k :
  answered r k -> answered (Page.assign r n v) k.
Proof.
  unfold Page.assign. destruct (_ && _); [trivial|apply answered_mapSet].
Qed.

Lemma assign_answers r n v : answered (Page.assign r n v) n.
Proof.
  unfold Page.assign, answered, Page.flag.
  destruct (streq_spec n (str "__proto__")) as [->|_]; cbn [andb].
  - unfold mapHas.
    destruct (mapGet (str "__proto__") r) eqn:E; cbn [negb].
    + rewrite GroupingFacts.mapGet_mapSet, streq_refl. discriminate.
    + rewrite E. discriminate.
  - rewrite GroupingFacts.mapGet_mapSet, streq_refl. discriminate.
Qed.

Lemma setAll_answers v groups : forall r k,
  answered r k \/ In k (List.map fixVersion groups) ->
  answered (Page.setAll v groups r) k.
Proof.
  unfold Page.setAll.
  induction groups as [|g gs IH]; intros r k [H|H]; cbn [fold_left];
    try contradiction; try exact H.
  - apply IH. left. now apply answered_assign.
  - destruct H as [<-|H].
    + apply IH. left. apply assign_answers.
    + apply IH. now right.
Qed.

(** X24: clicking the header of a month flips the month between open
    and closed and leaves every other month as it is, provided the record
    can answer for the name: it has an own property of this name or every
    object inherits a member of this name.  This is so for every month of
    the reply once the page has loaded, and stays so whatever is clicked
    afterwards.  (A name the record cannot answer for is shown open, and
    the first click leaves it open.) *)
Theorem month_header_flips :
  (forall prev name,
     answered prev name ->
     Page.isOpen (Page.toggleMonth name prev) name = negb (Page.isOpen prev name))
  /\ (forall prev name other,
        other <> name ->
        Page.isOpen (Page.toggleMonth name prev) other = Page.isOpen prev other)
  /\ (forall prev name,
        Page.flag prev name = None ->
        Page.isOpen prev name = true
        /\ Page.isOpen (Page.toggleMonth name prev) name = true)
  /\ (forall data g,
        In g (Page.groups data) -> answered (Page.initial data) (fixVersion g))
  /\ (forall prev name k data,
        answered prev k ->
        answered (Page.toggleMonth name prev) k
        /\ answered (Page.openAll data prev) k
        /\ answered (Page.closeAll data prev) k).
Proof.
  split; [|split; [|split; [|split]]].
  - intros prev name H. unfold Page.toggleMonth.
    rewrite isOpen_mapSet, streq_refl. unfold answered in H.
    unfold Page.isOpen. destruct (Page.flag prev name) as [[b|]|];
      [reflexivity|reflexivity|congruence].
  - intros prev name other H. unfold Page.toggleMonth.
    rewrite isOpen_mapSet. apply streq_neq in H. now rewrite H.
  - intros prev name H. unfold Page.toggleMonth.
    rewrite isOpen_mapSet, streq_refl. unfold Page.isOpen. now rewrite H.
  - intros data g H. unfold Page.initial. apply setAll_answers. right.
    now apply in_map.
  - intros prev name k data H. repeat split.
    + now apply answered_mapSet.
    + apply setAll_answers. now left.
    + apply setAll_answers. now left.
Qed.

(** X25: after [Open all] every month of the reply is open.  After
    [Close all] every month of the reply is closed, except a month named
    [__proto__] of which the record has no own property: the assignment
    does not reach it and it stays open.  Months that are not in the reply
    are left as they were. *)
Theorem open_all_close_all data prev :
  (forall g, In g (Page.groupsOf data) ->
     Page.isOpen (Page.openAll data prev) (fixVersion g) = true)
  /\ (forall g, In g (Page.groupsOf data) ->
        Page.isOpen (Page.closeAll data prev) (fixVersion g)
        = shielded prev (fixVersion g))
  /\ (forall name,
        ~ In name (List.map fixVersion (Page.groupsOf data)) ->
        Page.isOpen (Page.openAll data prev) name = Page.isOpen prev name
        /\ Page.isOpen (Page.closeAll data prev) name = Page.isOpen prev name).
Proof.
  unfold Page.openAll, Page.closeAll. split; [|split].
  - intros g Hg. rewrite isOpen_setAll.
    destruct (_ && _) eqn:E; [reflexivity|].
    assert (Hin : existsb (streq (fixVersion g))
                    (List.map fixVersion (Page.groupsOf data)) = true).
    { apply GroupingFacts.existsb_streq. now apply in_map. }
    rewrite Hin in E. cbn [andb] in E. apply negb_false_iff in E.
    now apply shielded_open.
  - intros g Hg. rewrite isOpen_setAll.
    assert (Hin : existsb (streq (fixVersion g))
                    (List.map fixVersion (Page.groupsOf data)) = true).
    { apply GroupingFacts.existsb_streq. now apply in_map. }
    rewrite Hin. cbn [andb].
    destruct (shielded prev (fixVersion g)) eqn:E; [|reflexivity].
    now apply shielded_open.
  - intros name Hn.
    assert (Hin : existsb (streq name)
                    (List.map fixVersion (Page.groupsOf data)) = false).
    { destruct (existsb _ _) eqn:E; [|reflexivity].
      apply GroupingFacts.existsb_streq in E. contradiction. }
    now rewrite !isOpen_setAll, Hin.
Qed.

Example proto_month :
  let g := {| fixVersion := str "__proto__"; released := None; issues := [] |} in
  let data := {| Page.total := 0; Page.groups := [g] |} in
  Page.initial data = []
  /\ Page.isOpen (Page.closeAll (Some data) (Page.initial data)) (str "__proto__")
     = true
  /\ Page.isOpen (Page.toggleMonth (str "__proto__") (Page.initial data))
       (str "__proto__") = false
  /\ Page.isOpen
       (Page.closeAll (Some data)
          (Page.toggleMonth (str "__proto__")
             (Page.toggleMonth (str "__proto__") (Page.initial data))))
       (str "__proto__") = false.
Proof. repeat split. Qed.

End MonthFacts.

(* ================================================================== *)
(** * The flattener, node by node *)
(* ================================================================== *)

Module FlattenFacts.

Import FlattenNotions.




End FlattenFacts.

(* ================================================================== *)
(** * Labels that parse, and issues that match *)
(* ================================================================== *)

Module LabelFacts.

Import Issues LookupNotions LabelNotions TextFacts.

(** ** Words and the runs between them *)

Lemma splitRuns_word w : forall inRun cur rest,
  existsb isWhiteSpace w = false ->
  splitRuns inRun cur (w ++ rest)
  = splitRuns (match w with [] => inRun | _ => false end) (rev w ++ cur) rest.
Proof.
  induction w as [|c w IH]; intros inRun cur rest H; [reflexivity|].
  simpl in H. apply orb_false_iff in H as [Hc H].
  cbn [app splitRuns]. rewrite Hc, IH by exact H.
  cbn [rev]. rewrite <- app_assoc. cbn [app]. now destruct w.
Qed.

Lemma splitRuns_blank sep : forall cur rest,
  blank sep = true ->
  splitRuns true cur (sep ++ rest) = splitRuns true cur rest.
Proof.
  unfold blank. induction sep as [|c sep IH]; intros cur rest H; [reflexivity|].
  simpl in H. apply andb_prop in H as [Hc H].
  cbn [app splitRuns]. rewrite Hc. now apply IH.
Qed.

Lemma split_two_words y sep m :
  existsb isWhiteSpace y = false -> y <> [] ->
  blank sep = true -> sep <> [] ->
  existsb isWhiteSpace m = false ->
  splitWhiteSpace (y ++ sep ++ m) = [y; m].
Proof.
  intros Hy Ny Hsep Nsep Hm. unfold splitWhiteSpace.
  rewrite splitRuns_word by exact Hy.
  destruct y as [|c0 y]; [congruence|]. rewrite app_nil_r.
  destruct sep as [|c sep]; [congruence|].
  unfold blank in Hsep. simpl in Hsep. apply andb_prop in Hsep as [Hc Hsep].
  cbn [app splitRuns]. rewrite Hc, rev_involutive. f_equal.
  rewrite splitRuns_blank by exact Hsep.
  rewrite <- (app_nil_r m), splitRuns_word by exact Hm.
  cbn [splitRuns]. now rewrite !app_nil_r, rev_involutive.
Qed.

Lemma word_headOk w rest :
  existsb isWhiteSpace w = false -> w <> [] -> headOk (w ++ rest) = true.
Proof.
  destruct w as [|c w]; [congruence|]. simpl.
  intros H _. apply orb_false_iff in H as [-> _]. reflexivity.
Qed.

Lemma word_endOk w : existsb isWhiteSpace w = false -> endOk w = true.
Proof.
  intros H. unfold endOk.
  assert (Hr : existsb isWhiteSpace (rev w) = false).
  { destruct (existsb isWhiteSpace (rev w)) eqn:E; [|reflexivity].
    apply existsb_exists in E as (x & Hx & Ex). apply in_rev in Hx.
    assert (existsb isWhiteSpace w = true)
      by (apply existsb_exists; eauto). congruence. }
  destruct (rev w) as [|c r]; [reflexivity|]. simpl in Hr.
  apply orb_false_iff in Hr as [Hc _]. cbn [headOk]. now rewrite Hc.
Qed.

(** ** Years *)

Lemma numberEq_eq a b : numberEq a b = true -> a = b.
Proof.
  destruct a as [|s|[n d]], b as [|t|[n' d']]; simpl; try discriminate;
    try reflexivity.
  - intros H. apply Bool.eqb_prop in H. now subst.
  - intros H. apply andb_prop in H as [H1 H2].
    apply Z.eqb_eq in H1. apply Pos.eqb_eq in H2. now subst.
Qed.

Lemma years_checked : forallb yearReadable acceptedYears = true.
Proof. vm_compute. reflexivity. Qed.

Lemma year_readable n :
  (2000 <= n <= 2100)%Z ->
  toNumber (Page.numberToText n) = ofZ n
  /\ existsb isWhiteSpace (Page.numberToText n) = false
  /\ Page.numberToText n <> [].
Proof.
  intros Hn.
  assert (Hin : In n acceptedYears).
  { unfold acceptedYears. apply in_map_iff.
    exists (Z.to_nat (n - 2000)). split; [lia|]. apply in_seq. lia. }
  pose proof years_checked as H. rewrite forallb_forall in H.
  specialize (H n Hin). unfold yearReadable in H.
  apply andb_prop in H as [H H3]. apply andb_prop in H as [H1 H2].
  repeat split.
  - now apply numberEq_eq.
  - now apply negb_true_iff in H2.
  - destruct (Page.numberToText n); [discriminate|discriminate].
Qed.

Lemma year_in_range n :
  (2000 <= n <= 2100)%Z ->
  negb (isFinite (ofZ n)) || numLt (ofZ n) (ofZ 2000) || numGt (ofZ n) (ofZ 2100)
  = false.
Proof.
  intros Hn. unfold ofZ, numGt, numLt. cbn [isFinite negb orb].
  apply orb_false_iff. split; apply negb_false_iff, Qle_bool_iff;
    rewrite <- Zle_Qle; lia.
Qed.

(** X27: a label made of a year between 2000 and 2100, written as a
    decimal numeral, white space, and one word that lower-cases to a month
    name of the table, parses to that year and to the number of that
    month, whatever white space stands before, between and after. *)
Theorem plain_label_parsed toLowerCase pre n sep m post v :
  blank pre = true -> blank sep = true -> sep <> [] -> blank post = true ->
  (2000 <= n <= 2100)%Z ->
  m <> [] -> existsb isWhiteSpace m = false ->
  ownMonth LT_MONTH_TO_NUM (toLowerCase m) = Some v ->
  parseLtFixVersion toLowerCase
    (pre ++ (Page.numberToText n ++ sep ++ m) ++ post)
  = Some {| year := ofZ n; month := MonthNumber (ofZ v) |}.
Proof.
  intros Hpre Hsep Nsep Hpost Hn Nm Hm Hv.
  destruct (year_readable Hn) as (Ey & Hy & Ny).
  unfold parseLtFixVersion.
  rewrite trim_padded by assumption.
  rewrite tight_trim.
  - rewrite split_two_words by assumption.
    cbn [List.length Nat.ltb Nat.leb nth skipn join].
    rewrite Ey, (year_in_range Hn).
    unfold monthProperty. rewrite Hv. cbn [nullish].
    assert (Hf : monthFalsy (MonthNumber (ofZ v)) = false).
    { apply (@ReleaseNameFacts.monthProperty_truthy (toLowerCase m)).
      unfold monthProperty. now rewrite Hv. }
    now rewrite Hf.
  - now apply word_headOk.
  - rewrite app_assoc, endOk_app. destruct m; [congruence|].
    now apply word_endOk.
Qed.

Lemma plain_label_parsed_witness :
  parseLtFixVersion latinLower
    (str " " ++ (Page.numberToText 2024 ++ [9; 32]%N ++ str "GRUODIS") ++ str "  ")
  = Some {| year := ofZ 2024; month := MonthNumber (ofZ 12) |}.
Proof.
  refine (@plain_label_parsed latinLower (str " ") 2024 [9; 32]%N
            (str "GRUODIS") (str "  ") 12
            eq_refl eq_refl _ eq_refl _ _ eq_refl eq_refl);
    [discriminate|lia|discriminate].
Defined.

(** ** What the search shows *)

Lemma includes_iff q s : Page.includes q s = true <-> occurs q s.
Proof.
  unfold occurs. split.
  - induction s as [|c s IH]; simpl.
    + rewrite orb_false_r. intros H.
      apply PlaceholderFacts.startsWith_inv in H. exists [], (skipn (List.length q) []).
      exact H.
    + intros H. apply orb_prop in H as [H|H].
      * apply PlaceholderFacts.startsWith_inv in H.
        exists [], (skipn (List.length q) (c :: s)). exact H.
      * destruct (IH H) as (before & after & ->).
        exists (c :: before), after. reflexivity.
  - intros (before & after & ->).
    induction before as [|c before IH].
    + cbn [app]. destruct (q ++ after) eqn:E; simpl;
        rewrite <- E, PlaceholderFacts.startsWith_app; reflexivity.
    + cbn [app Page.includes]. rewrite IH. apply orb_true_r.
Qed.

(** X28: with a query that normalises to a text that is not empty, an
    issue is shown under a release name exactly when a group of that name
    in the reply lists it and the normalised query occurs in the
    normalised text made of its key, its summary and the release name,
    separated by spaces. *)
Theorem search_matches toLowerCase data query name i :
  Page.normalize toLowerCase query <> [] ->
  (exists shown,
     In shown (Page.filteredGroups toLowerCase (Some data) query)
     /\ fixVersion shown = name /\ In i (issues shown))
  <-> ((exists g, In g (Page.groups data) /\ fixVersion g = name /\ In i (issues g))
       /\ occurs (Page.normalize toLowerCase query) (searched toLowerCase name i)).
Proof.
  intros Hq. unfold Page.filteredGroups.
  destruct (Page.normalize toLowerCase query) as [|c q] eqn:Eq; [congruence|].
  cbn [truthy negb]. split.
  - intros (shown & Hs & Hn & Hi).
    apply filter_In in Hs as [Hs _]. apply in_map_iff in Hs as (g & <- & Hg).
    cbn [fixVersion issues] in *. apply filter_In in Hi as [Hi Hm].
    apply includes_iff in Hm. subst name. split; [eauto|exact Hm].
  - intros [(g & Hg & Hn & Hi) Hm]. subst name.
    eexists. split; [|split].
    + apply filter_In. split; [apply in_map, Hg|].
      cbn [issues]. apply Nat.ltb_lt.
      assert (Hin : In i (filter
                (fun i0 => Page.includes (c :: q)
                   (Page.normalize toLowerCase
                      (interpolate (issueKey i0) ++ str " " ++ issueSummary i0
                       ++ str " " ++ fixVersion g))) (issues g))).
      { apply filter_In. split; [exact Hi|]. now apply includes_iff. }
      destruct (filter _ (issues g)); [contradiction|simpl; lia].
    + reflexivity.
    + cbn [issues]. apply filter_In. split; [exact Hi|]. now apply includes_iff.
Qed.

Lemma search_matches_witness :
  (exists shown,
     In shown
       (Page.filteredGroups latinLower
          (Some {| Page.total := 2;
                   Page.groups := [TieSamples.hotfix; TieSamples.january] |})
          (str " HOTFIX "))
     /\ fixVersion shown = str "2024 sausis hotfix"
     /\ In (trimIssue Sample.baseUrl
              (Sample.issue "IMOSHELP-1" ["2024 sausis hotfix"%string]))
          (issues shown))
  <-> ((exists g,
          In g [TieSamples.hotfix; TieSamples.january]
          /\ fixVersion g = str "2024 sausis hotfix"
          /\ In (trimIssue Sample.baseUrl
                   (Sample.issue "IMOSHELP-1" ["2024 sausis hotfix"%string]))
               (issues g))
       /\ occurs (str "hotfix")
            (searched latinLower (str "2024 sausis hotfix")
               (trimIssue Sample.baseUrl
                  (Sample.issue "IMOSHELP-1" ["2024 sausis hotfix"%string])))).
Proof.
  refine (@search_matches latinLower
            {| Page.total := 2;
               Page.groups := [TieSamples.hotfix; TieSamples.january] |}
            (str " HOTFIX ") (str "2024 sausis hotfix")
            (trimIssue Sample.baseUrl
               (Sample.issue "IMOSHELP-1" ["2024 sausis hotfix"%string])) _).
  discriminate.
Defined.

End LabelFacts.
